(** * wow-recorder: the Manager orchestrator (src/main/Manager.ts)

    A shallow embedding of the [Manager] class: its run-state flags, the
    table of configuration stages, the reconciliation pass
    ([internalManage]), the single-flight gate in front of it ([manage]),
    status publication ([refreshStatus]), crash recovery, the periodic
    restart and [forceStop].

    Conventions of the embedding.
    - A configuration snapshot is a JavaScript object: a finite map from
      property names to primitive values.  lodash's [isEqual] on two such
      objects is equality of the maps.
    - Everything the Manager does to the outside (IPC messages to the
      renderer, calls on the Recorder, the Poller, log handlers, timers,
      console lines) is appended to a trace, oldest entry first; so are the
      calls of a stage's [get], [validate] and [configure], with the index
      of the stage.
    - [manage] and [internalManage] are [async]: each [await] is a point
      where the call is suspended and other events run.  A suspended call
      of [manage] is a task in a pool; the event loop is a step function
      over labels.  The promise of a [configure] resolves or rejects;
      [onWowStopped] is split at its [await] in the same way. *)

From stdpp Require Import base strings gmap list.
From Stdlib Require Import ZArith Lia.

Open Scope Z_scope.
Open Scope nat_scope.

(** ** JavaScript values, objects and errors *)

Inductive JsVal :=
| JUndefined
| JBool (b : bool)
| JNum (n : Z)
| JStr (s : string).

#[global] Instance JsVal_eq_dec : EqDecision JsVal.
Proof. solve_decision. Defined.

(** Truthiness, as used by [!x] and [if (x)]. *)
Definition truthy (v : JsVal) : bool :=
  match v with
  | JUndefined => false
  | JBool b => b
  | JNum n => negb (n =? 0)%Z
  | JStr s => negb (String.eqb s "")
  end.

Abbreviation JsObject := (gmap string JsVal).

(** Property read [o.k]; a missing property reads as [undefined]. *)
Definition field (o : JsObject) (k : string) : JsVal :=
  default JUndefined (o !! k).

(** lodash [isEqual] on snapshots. *)
Definition isEqual (a b : JsObject) : bool := bool_decide (a = b).

(** [a === b] on primitives. *)
Definition strictEq (a b : JsVal) : bool := bool_decide (a = b).

(** [s.endsWith(suffix)]. *)
Definition endsWith (s suffix : string) : bool :=
  let ls := String.length s in
  let lt := String.length suffix in
  Nat.leb lt ls && String.eqb (String.substring (ls - lt) lt s) suffix.

(** Values that are thrown.  [Error_] is [new Error(message)].  The classes
    [AuthError] (utils/AuthError) and [RetryableConfigError]
    (utils/RetryableConfigError) are imported by Manager.ts; they are taken
    here as two further classes of errors, the second carrying the delay
    [time] that [internalManage] reads.  [BombRejection] is the rejection of the
    promise bomb, [TypeError_] a run-time type error. *)
Inductive JsError :=
| Error_ (message : string)
| AuthError (message : string)
| RetryableConfigError (message : string) (time : Z)
| BombRejection (reason : string)
| TypeError_ (message : string).

#[global] Instance JsError_eq_dec : EqDecision JsError.
Proof. solve_decision. Defined.

(** [error instanceof RetryableConfigError]. *)
Definition instanceofRetryable (e : JsError) : option Z :=
  match e with
  | RetryableConfigError _ time => Some time
  | _ => None
  end.

(** [error instanceof AuthError]. *)
Definition instanceofAuthError (e : JsError) : bool :=
  match e with
  | AuthError _ => true
  | _ => false
  end.

(** [String(error)]: name, colon, message. *)
Definition String_ (e : JsError) : string :=
  match e with
  | Error_ m => "Error: " +:+ m
  | AuthError m => "Error: " +:+ m
  | RetryableConfigError m _ => "Error: " +:+ m
  | BombRejection r => r
  | TypeError_ m => "TypeError: " +:+ m
  end.

(** The result of a validator: [None] when it returns, [Some e] when it
    throws [e]. *)
Definition Thrown := option JsError.

Definition andThen (a : Thrown) (b : Thrown) : Thrown :=
  match a with
  | Some e => Some e
  | None => b
  end.

Notation "a ;;; b" := (andThen a b) (at level 100, b at level 200, right associativity).

Notation "'throwIf' c 'then' e 'else' k" :=
  (if c then Some e else k)
  (at level 10, c at level 200, e at level 200, k at level 200, only parsing).

(** ** Enumerations *)

Module ERecordingState.
Inductive t := Offline | Starting | Recording | Stopping.
#[global] Instance eq_dec : EqDecision t.
Proof. solve_decision. Defined.
End ERecordingState.

Module RecStatus.
Inductive t :=
| WaitingForWoW
| Recording
| InvalidConfig
| ReadyToRecord
| FatalError
| Overrunning
| Reconfiguring.
#[global] Instance eq_dec : EqDecision t.
Proof. solve_decision. Defined.
End RecStatus.

Module MicStatus.
Inductive t := NONE | MUTED | LISTENING.
#[global] Instance eq_dec : EqDecision t.
Proof. solve_decision. Defined.
End MicStatus.

(** The five stages, in the order of the [stages] array. *)
Inductive StageName := obsBase | obsVideo | obsAudio | flavour | overlay.

#[global] Instance StageName_eq_dec : EqDecision StageName.
Proof. solve_decision. Defined.

Inductive Flavour := Retail | Classic | Era.

#[global] Instance Flavour_eq_dec : EqDecision Flavour.
Proof. solve_decision. Defined.

(** ** What validation reads from outside the Manager

    The validators consult the file system, the disk helpers of ./util and
    the cloud service.  Their answers during one run of a validator are
    collected in [Env]. *)

(** How [Promise.race([client.checkAuth(), getPromiseBomb(10000, ...)])]
    settles. *)
Inductive RaceOutcome :=
| CheckResolved (read write : bool)
| CheckRejected (e : JsError)
| BombWon.

Record Env := {
  dirname : JsVal -> JsVal;                    (* path.dirname *)
  existsSync : JsVal -> bool;                  (* fs.existsSync *)
  exists_ : JsVal -> bool;                     (* util exists *)
  checkDisk : JsVal -> JsVal -> Thrown;        (* util checkDisk *)
  isFolderOwned : JsVal -> bool;
  takeOwnershipStorageDir : JsVal -> Thrown;
  takeOwnershipBufferDir : JsVal -> Thrown;
  validateFlavour : JsObject -> Thrown;        (* util validateFlavour *)
  checkAuthRace : RaceOutcome
}.

Definition authDeadline : Z := 10000.
Definition authRetryDelay : Z := 10000.

(** Modelled from the spec: [getPromiseBomb] of ./util is not in the
    sources at hand; it rejects after the deadline with the given reason. *)
Definition getPromiseBomb (fuse : Z) (reason : string) : JsError := BombRejection reason.

(** The value or rejection of the race. *)
Definition raceWinner (env : Env) : (bool * bool) + JsError :=
  match checkAuthRace env with
  | CheckResolved r w => inl (r, w)
  | CheckRejected e => inr e
  | BombWon => inr (getPromiseBomb authDeadline "Authentication timed out")
  end.

(** ** Validators *)

(** [path.dirname(p)].  The runtime throws a TypeError unless [p] is a
    string; of its message the part that does not depend on [p] is kept. *)
Definition dquote : string :=
  String (Ascii.Ascii false true false false false true false false) EmptyString.

Definition path_dirname (env : Env) (p : JsVal) : JsError + JsVal :=
  match p with
  | JStr _ => inr (dirname env p)
  | _ => inl (TypeError_ ("The " +:+ dquote +:+ "path" +:+ dquote
                          +:+ " argument must be of type string."))
  end.

Definition validateBaseConfig (env : Env) (config : JsObject) : Thrown :=
  let storagePath := field config "storagePath" in
  let maxStorage := field config "maxStorage" in
  let obsPath := field config "obsPath" in
  throwIf negb (truthy storagePath) then Error_ "Storage path is invalid." else
  match path_dirname env storagePath with
  | inl e => Some e
  | inr storageParentDir =>
      throwIf negb (existsSync env storageParentDir)
        then Error_ "Storage Path is invalid." else
      checkDisk env storagePath maxStorage ;;;
      throwIf negb (truthy obsPath) then Error_ "Buffer Storage Path is invalid." else
      match path_dirname env obsPath with
      | inl e => Some e
      | inr obsParentDir =>
          let obsParentDirExists := exists_ env obsParentDir in
          throwIf negb obsParentDirExists then Error_ "Buffer Storage Path is invalid." else
          throwIf strictEq storagePath obsPath
            then Error_ "Storage Path is the same as Buffer Path" else
          let obsDirExists := exists_ env obsPath in
          (if obsDirExists then checkDisk env obsPath (JNum 10)
           else match path_dirname env obsPath with
                | inl e => Some e
                | inr parentDir => checkDisk env parentDir (JNum 10)
                end) ;;;
          let storagePathOwned := isFolderOwned env storagePath in
          (if negb storagePathOwned then takeOwnershipStorageDir env storagePath
           else None) ;;;
          (if obsDirExists && negb (isFolderOwned env obsPath)
           then takeOwnershipBufferDir env obsPath else None)
      end
  end.

Definition validateCloudBaseConfig (env : Env) (config : JsObject) : Thrown :=
  let cloudAccountName := field config "cloudAccountName" in
  let cloudAccountPassword := field config "cloudAccountPassword" in
  let cloudGuildName := field config "cloudGuildName" in
  let cloudUpload := field config "cloudUpload" in
  throwIf negb (truthy cloudAccountName)
    then Error_ "Account name must not be empty." else
  throwIf negb (truthy cloudAccountPassword)
    then Error_ "Password must not be empty." else
  throwIf negb (truthy cloudGuildName)
    then Error_ "Guild name must not be empty." else
  match raceWinner env with
  | inr error =>
      if instanceofAuthError error then Some error
      else Some (RetryableConfigError
                   "Failed to authenticate with the cloud store." authRetryDelay)
  | inl (read, write) =>
      throwIf negb read
        then Error_ "User is not authorized to access the guild." else
      throwIf negb write && truthy cloudUpload
        then Error_ "User is not authorized to upload to the guild." else
      None
  end.

Definition validateBaseCfg (env : Env) (config : JsObject) : Thrown :=
  let cloudStorage := field config "cloudStorage" in
  validateBaseConfig env config ;;;
  (if truthy cloudStorage then validateCloudBaseConfig env config else None).

Definition validateVideoConfig (config : JsObject) : Thrown :=
  let obsCaptureMode := field config "obsCaptureMode" in
  let obsWindowName := field config "obsWindowName" in
  throwIf strictEq obsCaptureMode (JStr "window_capture") && negb (truthy obsWindowName)
    then Error_ "Must select a window in the scene settings, if none appear, make sure WoW is running."
    else None.

Definition validateOverlayConfig (env : Env) (config : JsObject) : Thrown :=
  let chatOverlayOwnImage := field config "chatOverlayOwnImage" in
  let chatOverlayOwnImagePath := field config "chatOverlayOwnImagePath" in
  let cloudStorage := field config "cloudStorage" in
  if negb (truthy chatOverlayOwnImage) then None else
  throwIf negb (truthy cloudStorage)
    then Error_ "To use a custom overlay, enable cloud storage." else
  throwIf negb (truthy chatOverlayOwnImagePath)
    then Error_ "Overlay image was not provided for custom overlay." else
  match chatOverlayOwnImagePath with
  | JStr p =>
      throwIf negb (endsWith p ".png") then Error_ "Overlay image must be a PNG file" else
      let fileExists := exists_ env chatOverlayOwnImagePath in
      throwIf negb fileExists then Error_ (p +:+ " does not exist") else
      None
  | _ => Some (TypeError_ "chatOverlayOwnImagePath.endsWith is not a function")
  end.

(** The [validate] closure of each entry of the [stages] array. *)
Definition stage_validate (name : StageName) (env : Env) (config : JsObject) : Thrown :=
  match name with
  | obsBase => validateBaseCfg env config
  | obsVideo => validateVideoConfig config
  | obsAudio => None
  | flavour => validateFlavour env config
  | overlay => validateOverlayConfig env config
  end.

(** ** The state of the Manager *)

(** One entry of the [stages] array.  The three closures of an entry
    ([get], [validate], [configure]) are fixed by its name, see [stage_get],
    [stage_validate] and [stage_configure]. *)
Record ConfigStage := {
  name : StageName;
  valid : bool;
  current : JsObject
}.

(** What ConfigService holds, as the five snapshots that [getObsBaseConfig],
    [getObsVideoConfig], [getObsAudioConfig], [getFlavourConfig] and
    [getOverlayConfig] (utils/configUtils) read from it. *)
Record ConfigService := {
  cfgObsBase : JsObject;
  cfgObsVideo : JsObject;
  cfgObsAudio : JsObject;
  cfgFlavour : JsObject;
  cfgOverlay : JsObject
}.

Definition getObsBaseConfig (cfg : ConfigService) := cfgObsBase cfg.
Definition getObsVideoConfig (cfg : ConfigService) := cfgObsVideo cfg.
Definition getObsAudioConfig (cfg : ConfigService) := cfgObsAudio cfg.
Definition getFlavourConfig (cfg : ConfigService) := cfgFlavour cfg.
Definition getOverlayConfig (cfg : ConfigService) := cfgOverlay cfg.

(** The [get] closure of each entry of the [stages] array. *)
Definition stage_get (nm : StageName) (cfg : ConfigService) : JsObject :=
  match nm with
  | obsBase => getObsBaseConfig cfg
  | obsVideo => getObsVideoConfig cfg
  | obsAudio => getObsAudioConfig cfg
  | flavour => getFlavourConfig cfg
  | overlay => getOverlayConfig cfg
  end.

(** Modelled from the spec: the Recorder class (main/Recorder) is not in the
    sources at hand.  The Manager reads [obsState] and [obsMicState]; the
    audio sources are what [configureAudioSources] attached last, [None]
    after [removeAudioSources] and in a fresh Recorder. *)
Record Recorder := {
  obsState : ERecordingState.t;
  obsMicState : MicStatus.t;
  audioSources : option JsObject
}.

Definition newRecorder : Recorder :=
  {| obsState := ERecordingState.Offline;
     obsMicState := MicStatus.NONE;
     audioSources := None |}.

(** A log handler, as far as the Manager reads it: [activity] is whether
    the handler's [activity] property is set, [overrunning] its flag. *)
Record LogHandler := {
  activity : bool;
  overrunning : bool
}.

Definition newLogHandler : LogHandler :=
  {| activity := false; overrunning := false |}.

Record Poller := { isWowRunning : bool }.

Record CloudClient := {
  accountName : JsVal;
  accountPassword : JsVal;
  guildName : JsVal
}.

Record Manager := {
  recorder : Recorder;
  cfg : ConfigService;
  poller : Poller;
  active : bool;
  queued : bool;
  retailLogHandler : option LogHandler;
  classicLogHandler : option LogHandler;
  eraLogHandler : option LogHandler;
  cloudClient : option CloudClient;
  configValid : bool;
  configMessage : string;
  reconfiguring : bool;
  retryTimer : option nat;
  stages : list ConfigStage
}.

Definition set_recorder (v : Recorder) (m : Manager) : Manager :=
  {| recorder := v; cfg := cfg m; poller := poller m; active := active m;
     queued := queued m; retailLogHandler := retailLogHandler m;
     classicLogHandler := classicLogHandler m; eraLogHandler := eraLogHandler m;
     cloudClient := cloudClient m; configValid := configValid m;
     configMessage := configMessage m; reconfiguring := reconfiguring m;
     retryTimer := retryTimer m; stages := stages m |}.

Definition set_cfg (v : ConfigService) (m : Manager) : Manager :=
  {| recorder := recorder m; cfg := v; poller := poller m; active := active m;
     queued := queued m; retailLogHandler := retailLogHandler m;
     classicLogHandler := classicLogHandler m; eraLogHandler := eraLogHandler m;
     cloudClient := cloudClient m; configValid := configValid m;
     configMessage := configMessage m; reconfiguring := reconfiguring m;
     retryTimer := retryTimer m; stages := stages m |}.

Definition set_poller (v : Poller) (m : Manager) : Manager :=
  {| recorder := recorder m; cfg := cfg m; poller := v; active := active m;
     queued := queued m; retailLogHandler := retailLogHandler m;
     classicLogHandler := classicLogHandler m; eraLogHandler := eraLogHandler m;
     cloudClient := cloudClient m; configValid := configValid m;
     configMessage := configMessage m; reconfiguring := reconfiguring m;
     retryTimer := retryTimer m; stages := stages m |}.

Definition set_active (v : bool) (m : Manager) : Manager :=
  {| recorder := recorder m; cfg := cfg m; poller := poller m; active := v;
     queued := queued m; retailLogHandler := retailLogHandler m;
     classicLogHandler := classicLogHandler m; eraLogHandler := eraLogHandler m;
     cloudClient := cloudClient m; configValid := configValid m;
     configMessage := configMessage m; reconfiguring := reconfiguring m;
     retryTimer := retryTimer m; stages := stages m |}.

Definition set_queued (v : bool) (m : Manager) : Manager :=
  {| recorder := recorder m; cfg := cfg m; poller := poller m; active := active m;
     queued := v; retailLogHandler := retailLogHandler m;
     classicLogHandler := classicLogHandler m; eraLogHandler := eraLogHandler m;
     cloudClient := cloudClient m; configValid := configValid m;
     configMessage := configMessage m; reconfiguring := reconfiguring m;
     retryTimer := retryTimer m; stages := stages m |}.

Definition set_logHandler (f : Flavour) (v : option LogHandler) (m : Manager) : Manager :=
  {| recorder := recorder m; cfg := cfg m; poller := poller m; active := active m;
     queued := queued m;
     retailLogHandler := match f with Retail => v | _ => retailLogHandler m end;
     classicLogHandler := match f with Classic => v | _ => classicLogHandler m end;
     eraLogHandler := match f with Era => v | _ => eraLogHandler m end;
     cloudClient := cloudClient m; configValid := configValid m;
     configMessage := configMessage m; reconfiguring := reconfiguring m;
     retryTimer := retryTimer m; stages := stages m |}.

Definition set_cloudClient (v : option CloudClient) (m : Manager) : Manager :=
  {| recorder := recorder m; cfg := cfg m; poller := poller m; active := active m;
     queued := queued m; retailLogHandler := retailLogHandler m;
     classicLogHandler := classicLogHandler m; eraLogHandler := eraLogHandler m;
     cloudClient := v; configValid := configValid m;
     configMessage := configMessage m; reconfiguring := reconfiguring m;
     retryTimer := retryTimer m; stages := stages m |}.

Definition set_configValid (v : bool) (m : Manager) : Manager :=
  {| recorder := recorder m; cfg := cfg m; poller := poller m; active := active m;
     queued := queued m; retailLogHandler := retailLogHandler m;
     classicLogHandler := classicLogHandler m; eraLogHandler := eraLogHandler m;
     cloudClient := cloudClient m; configValid := v;
     configMessage := configMessage m; reconfiguring := reconfiguring m;
     retryTimer := retryTimer m; stages := stages m |}.

Definition set_configMessage (v : string) (m : Manager) : Manager :=
  {| recorder := recorder m; cfg := cfg m; poller := poller m; active := active m;
     queued := queued m; retailLogHandler := retailLogHandler m;
     classicLogHandler := classicLogHandler m; eraLogHandler := eraLogHandler m;
     cloudClient := cloudClient m; configValid := configValid m;
     configMessage := v; reconfiguring := reconfiguring m;
     retryTimer := retryTimer m; stages := stages m |}.

Definition set_reconfiguring (v : bool) (m : Manager) : Manager :=
  {| recorder := recorder m; cfg := cfg m; poller := poller m; active := active m;
     queued := queued m; retailLogHandler := retailLogHandler m;
     classicLogHandler := classicLogHandler m; eraLogHandler := eraLogHandler m;
     cloudClient := cloudClient m; configValid := configValid m;
     configMessage := configMessage m; reconfiguring := v;
     retryTimer := retryTimer m; stages := stages m |}.

Definition set_retryTimer (v : option nat) (m : Manager) : Manager :=
  {| recorder := recorder m; cfg := cfg m; poller := poller m; active := active m;
     queued := queued m; retailLogHandler := retailLogHandler m;
     classicLogHandler := classicLogHandler m; eraLogHandler := eraLogHandler m;
     cloudClient := cloudClient m; configValid := configValid m;
     configMessage := configMessage m; reconfiguring := reconfiguring m;
     retryTimer := v; stages := stages m |}.

Definition set_stages (v : list ConfigStage) (m : Manager) : Manager :=
  {| recorder := recorder m; cfg := cfg m; poller := poller m; active := active m;
     queued := queued m; retailLogHandler := retailLogHandler m;
     classicLogHandler := classicLogHandler m; eraLogHandler := eraLogHandler m;
     cloudClient := cloudClient m; configValid := configValid m;
     configMessage := configMessage m; reconfiguring := reconfiguring m;
     retryTimer := retryTimer m; stages := v |}.

Definition logHandler (f : Flavour) (m : Manager) : option LogHandler :=
  match f with
  | Retail => retailLogHandler m
  | Classic => classicLogHandler m
  | Era => eraLogHandler m
  end.

(** [stage.valid = v] and [stage.current = c] on an entry. *)
Definition stage_set_valid (v : bool) (st : ConfigStage) : ConfigStage :=
  {| name := name st; valid := v; current := current st |}.

Definition stage_set_current (c : JsObject) (st : ConfigStage) : ConfigStage :=
  {| name := name st; valid := valid st; current := c |}.

(** ** Suspended calls

    Where a call of [internalManage] is waiting: on [stage.validate] of
    stage [i] (line 299), on [stage.configure] of stage [i] (line 329), or
    it has returned.  [nm] is the name of the stage object bound to the
    local [stage]; [newConfig] is the local of that name. *)
Inductive Pass :=
| AwaitValidate (i : nat) (nm : StageName) (newConfig : JsObject)
| AwaitConfigure (i : nat) (nm : StageName) (newConfig : JsObject)
| Returned.

(** Where a call of [manage] is waiting: on its first call of
    [internalManage] (line 223) or on its second (line 228). *)
Inductive Task :=
| AwaitFirst (p : Pass)
| AwaitSecond (p : Pass).

(** The pass a suspended call of [manage] is in. *)
Definition passOf (t : Task) : Pass :=
  match t with
  | AwaitFirst p => p
  | AwaitSecond p => p
  end.

(** ** Effects on the outside *)

Inductive RecorderCall :=
| R_stop
| R_start
| R_cleanup
| R_shutdownOBS
| R_removeAllListeners
| R_new
| R_configureBase (config : JsObject)
| R_configureVideoSources (config : JsObject)
| R_configureAudioSources (config : JsObject)
| R_removeAudioSources
| R_configureOverlaySource (config : JsObject).

Inductive PollerCall :=
| P_start
| P_reconfigureFlavour (config : JsObject).

Inductive HandlerCall :=
| H_new (logPath : JsVal)
| H_removeAllListeners
| H_destroy
| H_forceEndActivity.

Inductive CloudCall :=
| C_new
| C_removeAllListeners
| C_stopPollForUpdates
| C_pollInit
| C_pollForUpdates (n : Z)
| Q_unsetCloudClient
| Q_setCloudClient.

Inductive Event :=
| Console (msg : string)
| ConsoleStage (nm : StageName) (loggable : JsObject)
| SendRecStatus (status : RecStatus.t) (msg : option string)
| SendMicStatus (status : MicStatus.t)
| SendRefreshState
| RefreshCloudStatus
| RefreshDiskStatus
| AddCrashToUI
| OnRecorder (c : RecorderCall)
| OnPoller (c : PollerCall)
| OnLogHandler (f : Flavour) (c : HandlerCall)
| OnCloud (c : CloudCall)
| StageGet (i : nat) (nm : StageName)
| StageValidate (i : nat) (nm : StageName) (config : JsObject)
| StageConfigure (i : nat) (nm : StageName) (config : JsObject)
| SetTimeout (id : nat) (delay : Z)
| ClearTimeout (id : nat)
| SetInterval (period : Z).

(** The Manager together with the run time around it: the suspended calls
    of [manage], the pending one-shot timers (each one's callback is
    [() => this.manage()]), the number of calls of [onWowStopped] that are
    suspended at their [await], and the trace. *)
Record System := {
  this : Manager;
  tasks : list Task;
  timers : list (nat * Z);
  nextTimerId : nat;
  stopping : nat;
  trace : list Event
}.

Definition modify (f : Manager -> Manager) (s : System) : System :=
  {| this := f (this s); tasks := tasks s; timers := timers s;
     nextTimerId := nextTimerId s; stopping := stopping s; trace := trace s |}.

Definition emit (e : Event) (s : System) : System :=
  {| this := this s; tasks := tasks s; timers := timers s;
     nextTimerId := nextTimerId s; stopping := stopping s; trace := trace s ++ [e] |}.

Definition set_tasks (ts : list Task) (s : System) : System :=
  {| this := this s; tasks := ts; timers := timers s;
     nextTimerId := nextTimerId s; stopping := stopping s; trace := trace s |}.

Definition set_timers (tm : list (nat * Z)) (s : System) : System :=
  {| this := this s; tasks := tasks s; timers := tm;
     nextTimerId := nextTimerId s; stopping := stopping s; trace := trace s |}.

Definition set_stopping (n : nat) (s : System) : System :=
  {| this := this s; tasks := tasks s; timers := timers s;
     nextTimerId := nextTimerId s; stopping := n; trace := trace s |}.

(** [setTimeout(() => this.manage(), delay)], returning the handle. *)
Definition setTimeout (delay : Z) (s : System) : System * nat :=
  let id := nextTimerId s in
  (emit (SetTimeout id delay)
     {| this := this s; tasks := tasks s; timers := timers s ++ [(id, delay)];
        nextTimerId := S id; stopping := stopping s; trace := trace s |},
   id).

Definition timer_pending (id : nat) (s : System) : bool :=
  existsb (fun p => Nat.eqb (fst p) id) (timers s).

Definition drop_timer (id : nat) (s : System) : System :=
  set_timers (filter (fun p => fst p <> id) (timers s)) s.

(** [clearTimeout(id)]. *)
Definition clearTimeout (id : nat) (s : System) : System :=
  emit (ClearTimeout id) (drop_timer id s).

(** ** Status publication *)

(** [refreshRecStatus(status, msg = '')]. *)
Definition refreshRecStatus (status : RecStatus.t) (msg : string) (s : System) : System :=
  emit (SendRecStatus status (Some msg)) s.

Definition refreshMicStatus (status : MicStatus.t) (s : System) : System :=
  emit (SendMicStatus status) s.

(** [handler?.prop], read as a condition. *)
Definition optflag (prop : LogHandler -> bool) (h : option LogHandler) : bool :=
  match h with
  | Some x => prop x
  | None => false
  end.

Definition inOverrun (m : Manager) : bool :=
  optflag overrunning (retailLogHandler m)
  || optflag overrunning (classicLogHandler m)
  || optflag overrunning (eraLogHandler m).

Definition inActivity (m : Manager) : bool :=
  optflag activity (retailLogHandler m)
  || optflag activity (classicLogHandler m)
  || optflag activity (eraLogHandler m).

Definition refreshStatus (s : System) : System :=
  let m := this s in
  if reconfiguring m then
    emit (SendRecStatus RecStatus.Reconfiguring None) s
  else if negb (configValid m) then
    refreshRecStatus RecStatus.InvalidConfig (configMessage m) s
  else
    let s1 :=
      if inOverrun m then refreshRecStatus RecStatus.Overrunning "" s
      else if inActivity m then refreshRecStatus RecStatus.Recording "" s
      else if bool_decide (obsState (recorder m) = ERecordingState.Recording)
      then refreshRecStatus RecStatus.ReadyToRecord "" s
      else if bool_decide (obsState (recorder m) = ERecordingState.Offline)
              || bool_decide (obsState (recorder m) = ERecordingState.Starting)
              || bool_decide (obsState (recorder m) = ERecordingState.Stopping)
      then refreshRecStatus RecStatus.WaitingForWoW "" s
      else s in
    refreshMicStatus (obsMicState (recorder (this s1))) s1.

Definition setConfigValid (s : System) : System :=
  refreshStatus (modify (set_configMessage "") (modify (set_configValid true) s)).

Definition setConfigInvalid (reason : string) (s : System) : System :=
  refreshStatus (modify (set_configMessage reason) (modify (set_configValid false) s)).

(** ** Applying a stage *)

(** Modelled from the spec: [Recorder.configureAudioSources] and
    [Recorder.removeAudioSources] (main/Recorder is not in the sources at
    hand) replace, respectively detach, the recorder's audio sources. *)
Definition recorder_configureAudioSources (config : JsObject) (s : System) : System :=
  emit (OnRecorder (R_configureAudioSources config))
    (modify (fun m => set_recorder
               {| obsState := obsState (recorder m);
                  obsMicState := obsMicState (recorder m);
                  audioSources := Some config |} m) s).

Definition recorder_removeAudioSources (s : System) : System :=
  emit (OnRecorder R_removeAudioSources)
    (modify (fun m => set_recorder
               {| obsState := obsState (recorder m);
                  obsMicState := obsMicState (recorder m);
                  audioSources := None |} m) s).

Definition emits (es : list Event) (s : System) : System :=
  foldl (fun acc e => emit e acc) s es.

Definition configureObsBase (config : JsObject) (s : System) : System :=
  let s := emit (OnRecorder R_stop) s in
  let s :=
    match cloudClient (this s) with
    | Some _ =>
        emit (OnCloud Q_unsetCloudClient)
          (modify (set_cloudClient None)
             (emits [OnCloud C_removeAllListeners; OnCloud C_stopPollForUpdates] s))
    | None => s
    end in
  let s :=
    if truthy (field config "cloudStorage") then
      emits [OnCloud C_pollInit; OnCloud (C_pollForUpdates 10); OnCloud Q_setCloudClient]
        (modify (set_cloudClient
                   (Some {| accountName := field config "cloudAccountName";
                            accountPassword := field config "cloudAccountPassword";
                            guildName := field config "cloudGuildName" |}))
           (emit (OnCloud C_new) s))
    else s in
  emits [RefreshCloudStatus; RefreshDiskStatus; OnRecorder (R_configureBase config);
         OnPoller P_start; SendRefreshState] s.

Definition configureObsVideo (config : JsObject) (s : System) : System :=
  emit (OnRecorder (R_configureVideoSources config)) s.

Definition configureObsAudio (config : JsObject) (s : System) : System :=
  if isWowRunning (poller (this s)) then recorder_configureAudioSources config s
  else s.

Definition destroyHandler (f : Flavour) (s : System) : System :=
  match logHandler f (this s) with
  | Some _ => emits [OnLogHandler f H_removeAllListeners; OnLogHandler f H_destroy] s
  | None => s
  end.

Definition createHandler (f : Flavour) (record logPath : string) (config : JsObject)
    (s : System) : System :=
  if truthy (field config record) then
    modify (set_logHandler f (Some newLogHandler))
      (emit (OnLogHandler f (H_new (field config logPath))) s)
  else s.

Definition configureFlavour (config : JsObject) (s : System) : System :=
  let s :=
    if bool_decide (obsState (recorder (this s)) = ERecordingState.Recording)
    then emit (OnRecorder R_stop) s else s in
  let s := destroyHandler Retail s in
  let s := destroyHandler Classic s in
  let s := destroyHandler Era s in
  let s := createHandler Retail "recordRetail" "retailLogPath" config s in
  let s := createHandler Classic "recordClassic" "classicLogPath" config s in
  let s := createHandler Era "recordEra" "eraLogPath" config s in
  emits [OnPoller (P_reconfigureFlavour config); OnPoller P_start] s.

Definition configureObsOverlay (config : JsObject) (s : System) : System :=
  emit (OnRecorder (R_configureOverlaySource config)) s.

(** The [configure] closure of each entry of the [stages] array.  The
    promises of the Recorder awaited inside [configureObsBase] and
    [configureFlavour] are not separated: the body runs as one step and the
    pass then waits on [AwaitConfigure]. *)
Definition stage_configure (nm : StageName) (config : JsObject) (s : System) : System :=
  match nm with
  | obsBase => configureObsBase config s
  | obsVideo => configureObsVideo config s
  | obsAudio => configureObsAudio config s
  | flavour => configureFlavour config s
  | overlay => configureObsOverlay config s
  end.

(** ** The reconciliation pass *)

(** [const loggable = { ...newConfig }] with the password masked. *)
Definition loggable (newConfig : JsObject) : JsObject :=
  if truthy (field newConfig "cloudAccountPassword")
  then <["cloudAccountPassword" := JStr "**********"]> newConfig
  else newConfig.

(** Lines 338-340, after the loop. *)
Definition passSucceeded (s : System) : System :=
  setConfigValid (modify (set_reconfiguring false) s).

(** The [for] loop of [internalManage] from index [i] on, up to its next
    [await] or its end; [n] is the number of iterations left,
    [stages.length - i]. *)
Fixpoint stage_loop (n i : nat) (s : System) : System * Pass :=
  match n with
  | 0 => (passSucceeded s, Returned)
  | S n' =>
      match stages (this s) !! i with
      | None => (passSucceeded s, Returned)
      | Some stage =>
          let s := emit (StageGet i (name stage)) s in
          let newConfig := stage_get (name stage) (cfg (this s)) in
          let stageConfigChanged := negb (isEqual newConfig (current stage)) in
          let s :=
            if stageConfigChanged
            then modify (fun m => set_stages (alter (stage_set_valid false) i (stages m)) m) s
            else s in
          let stage_valid := if stageConfigChanged then false else valid stage in
          if negb stage_valid then
            (emit (StageValidate i (name stage) newConfig) s,
             AwaitValidate i (name stage) newConfig)
          else stage_loop n' (S i) s
      end
  end.

(** Lines 277-285: the pass is announced and a pending retry is cancelled. *)
Definition beginPass (s : System) : System :=
  let s := emit (Console "[Manager] Internal manage") s in
  let s := modify (set_reconfiguring true) s in
  let s := refreshStatus s in
  match retryTimer (this s) with
  | Some t => clearTimeout t s
  | None => s
  end.

(** [internalManage] from its entry to its first [await] or its end. *)
Definition internalManage (s : System) : System * Pass :=
  let s := beginPass s in
  stage_loop (length (stages (this s))) 0 s.

(** The [catch] block, lines 300-314. *)
Definition validateFailed (error : JsError) (s : System) : System :=
  let s := modify (set_reconfiguring false) s in
  let s := setConfigInvalid (String_ error) s in
  match instanceofRetryable error with
  | Some time =>
      let '(s, id) := setTimeout time s in
      modify (set_retryTimer (Some id)) s
  | None => s
  end.

(** [internalManage] resumed at the [await] it is waiting on; [env] holds
    what the validator met outside.  A pass that waits on a [configure] is
    resumed when that promise has resolved; for one that rejects see
    [rejectConfigure]. *)
Definition resumePass (p : Pass) (env : Env) (s : System) : System * Pass :=
  match p with
  | AwaitValidate i nm newConfig =>
      match stage_validate nm env newConfig with
      | Some error => (validateFailed error s, Returned)
      | None =>
          let s := emit (ConsoleStage nm (loggable newConfig)) s in
          let s := emit (StageConfigure i nm newConfig) s in
          (stage_configure nm newConfig s, AwaitConfigure i nm newConfig)
      end
  | AwaitConfigure i nm newConfig =>
      let s :=
        modify (fun m =>
          set_stages
            (alter (fun st => stage_set_current newConfig (stage_set_valid true st))
               i (stages m)) m) s in
      stage_loop (length (stages (this s)) - S i) (S i) s
  | Returned => (s, Returned)
  end.

(** ** The gate: [manage] *)

(** [manage] from its entry to its first [await] or its [return]. *)
Definition manage (s : System) : System :=
  if active (this s) then
    if negb (queued (this s)) then
      modify (set_queued true) (emit (Console "[Manager] Queued a manage call") s)
    else s
  else
    let s := modify (set_active true) s in
    let '(s, p) := internalManage s in
    set_tasks (tasks s ++ [AwaitFirst p]) s.

(** Line 231: [this.active = false], and the call is over. *)
Definition manageDone (tid : nat) (s : System) : System :=
  set_tasks (delete tid (tasks s)) (modify (set_active false) s).

(** Lines 225-231, once the first [internalManage] has returned. *)
Definition manageAfterFirst (tid : nat) (s : System) : System :=
  if queued (this s) then
    let s := emit (Console "[Manager] Execute a queued manage call") s in
    let s := modify (set_queued false) s in
    let '(s, p) := internalManage s in
    set_tasks (<[tid := AwaitSecond p]> (tasks s)) s
  else manageDone tid s.

(** The promise that task [tid] awaits settles. *)
Definition settle (tid : nat) (env : Env) (s : System) : option System :=
  match tasks s !! tid with
  | None => None
  | Some (AwaitFirst Returned) => Some (manageAfterFirst tid s)
  | Some (AwaitSecond Returned) => Some (manageDone tid s)
  | Some (AwaitFirst p) =>
      let '(s', p') := resumePass p env s in
      Some (set_tasks (<[tid := AwaitFirst p']> (tasks s')) s')
  | Some (AwaitSecond p) =>
      let '(s', p') := resumePass p env s in
      Some (set_tasks (<[tid := AwaitSecond p']> (tasks s')) s')
  end.

(** ** Process start and stop, crash recovery, periodic restart *)

Definition onWowStarted (s : System) : System :=
  let s := emit (Console "[Manager] Detected WoW is running") s in
  let config := getObsAudioConfig (cfg (this s)) in
  let s := recorder_configureAudioSources config s in
  emit (OnRecorder R_start) s.

(** [onWowStopped] from its entry to the [await] of the branch it takes,
    lines 485-499. *)
Definition onWowStoppedBegin (s : System) : System :=
  let s :=
    emit (Console "[Manager] Detected WoW not running, or Windows going inactive") s in
  let m := this s in
  if optflag activity (retailLogHandler m) then
    emit (OnLogHandler Retail H_forceEndActivity) s
  else if optflag activity (classicLogHandler m) then
    emit (OnLogHandler Classic H_forceEndActivity) s
  else if optflag activity (eraLogHandler m) then
    emit (OnLogHandler Era H_forceEndActivity) s
  else
    emit (OnRecorder R_stop) s.

(** [onWowStopped] once the promise it awaits has resolved: the statement
    after the [await], the same in the four branches.  A promise that
    rejects leaves the call suspended for good in this model: the statement
    is not run. *)
Definition onWowStoppedEnd (s : System) : System :=
  recorder_removeAudioSources s.

(** [onWowStopped] run through, nothing happening at its [await]. *)
Definition onWowStopped (s : System) : System :=
  onWowStoppedEnd (onWowStoppedBegin s).

(** Lines 1063-1093 of [recoverRecorderFromCrash]: everything before its
    last statement. *)
Definition resetAfterCrash (s : System) : System :=
  let s := emit (Console "[Manager] OBS got into a bad state, restarting it") s in
  let s := emit AddCrashToUI s in
  let s := emits [OnRecorder R_removeAllListeners; OnRecorder R_shutdownOBS] s in
  let s := destroyHandler Retail s in
  let s := destroyHandler Classic s in
  let s := destroyHandler Era s in
  let s := emit (OnRecorder R_new) (modify (set_recorder newRecorder) s) in
  let s := modify (fun m => set_stages (stage_set_valid false <$> stages m) m) s in
  let s := modify (set_active false) s in
  modify (set_queued false) s.

(** [recoverRecorderFromCrash] ends with [this.manage()], line 1094. *)
Definition recoverRecorderFromCrash (s : System) : System :=
  manage (resetAfterCrash s).

Definition restartRecorder (s : System) : System :=
  let m := this s in
  if negb (bool_decide (obsState (recorder m) = ERecordingState.Recording)) then
    emit (Console "[Manager] Not restarting recorder as not recording") s
  else
    let retailNotSafe := optflag activity (retailLogHandler m) in
    let classicNotSafe := optflag activity (classicLogHandler m) in
    let eraNotSafe := optflag activity (eraLogHandler m) in
    if retailNotSafe || classicNotSafe || eraNotSafe then
      emit (Console "[Manager] Not restarting recorder as in an activity") s
    else
      let retailOverrunning := optflag overrunning (retailLogHandler m) in
      let classicOverrunning := optflag overrunning (classicLogHandler m) in
      let eraOverrunning := optflag overrunning (eraLogHandler m) in
      if retailOverrunning || classicOverrunning || eraOverrunning then
        emit (Console "[Manager] Not restarting recorder as an activity is overrunning") s
      else
        emits [Console "[Manager] Restart recorder";
               OnRecorder R_stop; OnRecorder R_cleanup; OnRecorder R_start] s.

(** The period of [setInterval(() => this.restartRecorder(), ...)], in
    milliseconds. *)
Definition restartPeriod : Z := (5 * (1000 * 60))%Z.

(** The five entries of the [stages] array as the field initialisers build
    them. *)
Definition initialStages (c : ConfigService) : list ConfigStage :=
  [ {| name := obsBase; valid := false; current := getObsBaseConfig c |};
    {| name := obsVideo; valid := false; current := getObsVideoConfig c |};
    {| name := obsAudio; valid := false; current := getObsAudioConfig c |};
    {| name := flavour; valid := false; current := getFlavourConfig c |};
    {| name := overlay; valid := false; current := getOverlayConfig c |} ].

(** The Manager after its constructor. *)
Definition constructor (c : ConfigService) : System :=
  {| this :=
       {| recorder := newRecorder; cfg := c; poller := {| isWowRunning := false |};
          active := false; queued := false;
          retailLogHandler := None; classicLogHandler := None; eraLogHandler := None;
          cloudClient := None; configValid := false; configMessage := "";
          reconfiguring := false; retryTimer := None; stages := initialStages c |};
     tasks := []; timers := []; nextTimerId := 0; stopping := 0;
     trace := [Console "[Manager] Creating manager"; OnRecorder R_new;
               SetInterval restartPeriod] |}.

(** ** The event loop *)

Inductive Label :=
| CallManage                                   (* some listener calls manage() *)
| Settle (tid : nat) (env : Env)               (* an awaited promise settles: a validate
                                                  returns or throws, a configure resolves *)
| TimerFires (id : nat)                        (* a retry timer fires *)
| ConfigChanged (c : ConfigService)            (* the user edits settings *)
| RecorderCrash                                (* recorder emits 'crash' *)
| RecorderStateChange (st : ERecordingState.t) (mic : MicStatus.t)
| LogHandlerStateChange (f : Flavour) (h : LogHandler)
| WowProcessStart
| WowProcessStop
| RestartTick
| WowStopSettles      (* the promise that a call of onWowStopped awaits resolves *)
| ConfigureRejects (tid : nat).   (* the promise of a stage's configure rejects *)

(** The promise of [stage.configure] that task [tid] awaits rejects.  The
    [await] of line 329 is outside the [try] of the loop and [manage] has
    no handler of its own: [internalManage] rejects, the [await] in
    [manage] throws, and the call of [manage] ends there, with no further
    statement run.  Where in its body [configure] rejects is not modelled:
    the calls of its body are all taken to have been made. *)
Definition rejectConfigure (tid : nat) (s : System) : option System :=
  match passOf <$> tasks s !! tid with
  | Some (AwaitConfigure _ _ _) => Some (set_tasks (delete tid (tasks s)) s)
  | _ => None
  end.

Definition step (l : Label) (s : System) : option System :=
  match l with
  | CallManage => Some (manage s)
  | Settle tid env => settle tid env s
  | TimerFires id =>
      if timer_pending id s then Some (manage (drop_timer id s)) else None
  | ConfigChanged c => Some (modify (set_cfg c) s)
  | RecorderCrash => Some (recoverRecorderFromCrash s)
  | RecorderStateChange st mic =>
      Some (refreshStatus
              (modify (fun m => set_recorder
                         {| obsState := st; obsMicState := mic;
                            audioSources := audioSources (recorder m) |} m) s))
  | LogHandlerStateChange f h =>
      match logHandler f (this s) with
      | Some _ => Some (refreshStatus (modify (set_logHandler f (Some h)) s))
      | None => None
      end
  | WowProcessStart =>
      Some (onWowStarted (modify (set_poller {| isWowRunning := true |}) s))
  | WowProcessStop =>
      let s := onWowStoppedBegin (modify (set_poller {| isWowRunning := false |}) s) in
      Some (set_stopping (S (stopping s)) s)
  | RestartTick => Some (restartRecorder s)
  | WowStopSettles =>
      match stopping s with
      | S n => Some (onWowStoppedEnd (set_stopping n s))
      | 0 => None
      end
  | ConfigureRejects tid => rejectConfigure tid s
  end.

(** A schedule is a list of labels, run in order; [None] when a label is
    not enabled where it comes. *)
Fixpoint run (sched : list Label) (s : System) : option System :=
  match sched with
  | [] => Some s
  | l :: rest =>
      match step l s with
      | Some s' => run rest s'
      | None => None
      end
  end.

(** ** Observations on a run *)

(** A pass starts with the console line of line 277. *)
Definition isPassStart (e : Event) : bool :=
  match e with
  | Console msg => String.eqb msg "[Manager] Internal manage"
  | _ => false
  end.

(** The number of passes started so far. *)
Definition passes (s : System) : nat :=
  length (List.filter isPassStart (trace s)).

(** What was appended to the trace between [s] and a later [s']. *)
Definition emitted (s s' : System) : list Event :=
  drop (length (trace s)) (trace s').

(** The index of the stage whose [get], [validate] or [configure] an event
    records. *)
Definition stageOf (e : Event) : option nat :=
  match e with
  | StageGet i _ => Some i
  | StageValidate i _ _ => Some i
  | StageConfigure i _ _ => Some i
  | _ => None
  end.

Definition isStageEvent (e : Event) : bool :=
  match stageOf e with
  | Some _ => true
  | None => false
  end.

(** A call of [validate] or of [configure]. *)
Definition isValidateOrConfigure (e : Event) : bool :=
  match e with
  | StageValidate _ _ _ => true
  | StageConfigure _ _ _ => true
  | _ => false
  end.

(** The stages on which [configure] was called, in the order of the calls. *)
Definition configureCalls (evs : list Event) : list nat :=
  omap (fun e => match e with StageConfigure i _ _ => Some i | _ => None end) evs.

Definition isSetTimeout (e : Event) : bool :=
  match e with
  | SetTimeout _ _ => true
  | _ => false
  end.

Definition isMicStatus (e : Event) : bool :=
  match e with
  | SendMicStatus _ => true
  | _ => false
  end.

Definition isRecStatus (e : Event) : bool :=
  match e with
  | SendRecStatus _ _ => true
  | _ => false
  end.

Definition isRecorderCall (e : Event) : bool :=
  match e with
  | OnRecorder _ => true
  | _ => false
  end.

(** The gate is consistent: a call of [manage] is in flight exactly when
    [active] is set, and then there is one. *)
Definition gate_ok (s : System) : bool :=
  if active (this s) then Nat.eqb (length (tasks s)) 1
  else Nat.eqb (length (tasks s)) 0.

Definition isCrash (l : Label) : bool :=
  match l with
  | RecorderCrash => true
  | _ => false
  end.

Definition no_crash (sched : list Label) : bool :=
  forallb (fun l => negb (isCrash l)) sched.

Definition isRejection (l : Label) : bool :=
  match l with
  | ConfigureRejects _ => true
  | _ => false
  end.

(** No promise of a [configure] rejects in [sched]. *)
Definition no_reject (sched : list Label) : bool :=
  forallb (fun l => negb (isRejection l)) sched.

(** Labels with which a pass can start or go on: a call of [manage], a
    retry timer, a crash, a promise that a call of [manage] awaits and that
    lets it go on.  A [configure] that rejects ends the call that awaits
    it; no pass starts or goes on with it. *)
Definition drivesPass (l : Label) : bool :=
  match l with
  | CallManage | Settle _ _ | TimerFires _ | RecorderCrash => true
  | _ => false
  end.

(** A schedule run while the gate is held: every label is taken from a
    state in which [active] is set. *)
Fixpoint run_busy (sched : list Label) (s : System) : option System :=
  match sched with
  | [] => Some s
  | l :: rest =>
      if active (this s) then
        match step l s with
        | Some s' => run_busy rest s'
        | None => None
        end
      else None
  end.

(** [n] calls of [manage] in a row. *)
Definition manageTimes (n : nat) (s : System) : System := Nat.iter n manage s.

(** One pass on its own: each [await] of the pass is settled in turn with
    the next of [envs], until the pass returns or [envs] runs out. *)
Fixpoint runPass (envs : list Env) (sp : System * Pass) : System * Pass :=
  match envs with
  | [] => sp
  | env :: rest =>
      match snd sp with
      | Returned => sp
      | p => runPass rest (resumePass p env (fst sp))
      end
  end.

(** The calls a pass makes when it validates and applies every stage of
    [sts] from index [i] on, taking each snapshot from [c]. *)
Fixpoint fullPassCalls (i : nat) (sts : list ConfigStage) (c : ConfigService) : list Event :=
  match sts with
  | [] => []
  | st :: rest =>
      StageGet i (name st)
      :: StageValidate i (name st) (stage_get (name st) c)
      :: StageConfigure i (name st) (stage_get (name st) c)
      :: fullPassCalls (S i) rest c
  end.

(** Every validator accepts the snapshot that [c] holds for its stage. *)
Definition allAccept (env : Env) (sts : list ConfigStage) (c : ConfigService) : bool :=
  forallb (fun st => bool_decide (stage_validate (name st) env (stage_get (name st) c) = None)) sts.

(** No stage needs work: each is valid and its snapshot in [c] equals its
    current one. *)
Definition allSettled (sts : list ConfigStage) (c : ConfigService) : bool :=
  forallb (fun st => valid st && isEqual (stage_get (name st) c) (current st)) sts.

(** ** The status priority of the specification (section 4.5)

    Written from the specification's words, to be compared with
    [refreshStatus]. *)

Definition liveHandlers (m : Manager) : list LogHandler :=
  omap id [retailLogHandler m; classicLogHandler m; eraLogHandler m].

Definition anyOverrunning (m : Manager) : bool := existsb overrunning (liveHandlers m).
Definition anyActive (m : Manager) : bool := existsb activity (liveHandlers m).

Definition statusByPriority (m : Manager) : RecStatus.t * option string :=
  if reconfiguring m then (RecStatus.Reconfiguring, None)
  else if negb (configValid m) then (RecStatus.InvalidConfig, Some (configMessage m))
  else if anyOverrunning m then (RecStatus.Overrunning, Some "")
  else if anyActive m then (RecStatus.Recording, Some "")
  else
    match obsState (recorder m) with
    | ERecordingState.Recording => (RecStatus.ReadyToRecord, Some "")
    | ERecordingState.Offline
    | ERecordingState.Starting
    | ERecordingState.Stopping => (RecStatus.WaitingForWoW, Some "")
    end.


(** ** Sample inputs *)

Module Sample.

Definition env_ok : Env :=
  {| dirname := fun p => JStr "D:/";
     existsSync := fun _ => true;
     exists_ := fun _ => true;
     checkDisk := fun _ _ => None;
     isFolderOwned := fun _ => true;
     takeOwnershipStorageDir := fun _ => None;
     takeOwnershipBufferDir := fun _ => None;
     validateFlavour := fun _ => None;
     checkAuthRace := CheckResolved true true |}.

(** The cloud check does not answer within the deadline. *)
Definition env_timeout : Env :=
  {| dirname := dirname env_ok; existsSync := existsSync env_ok;
     exists_ := exists_ env_ok; checkDisk := checkDisk env_ok;
     isFolderOwned := isFolderOwned env_ok;
     takeOwnershipStorageDir := takeOwnershipStorageDir env_ok;
     takeOwnershipBufferDir := takeOwnershipBufferDir env_ok;
     validateFlavour := validateFlavour env_ok;
     checkAuthRace := BombWon |}.

(** The cloud service denies the credentials. *)
Definition env_denied : Env :=
  {| dirname := dirname env_ok; existsSync := existsSync env_ok;
     exists_ := exists_ env_ok; checkDisk := checkDisk env_ok;
     isFolderOwned := isFolderOwned env_ok;
     takeOwnershipStorageDir := takeOwnershipStorageDir env_ok;
     takeOwnershipBufferDir := takeOwnershipBufferDir env_ok;
     validateFlavour := validateFlavour env_ok;
     checkAuthRace := CheckRejected (AuthError "Forbidden") |}.

Definition base : JsObject :=
  <["storagePath" := JStr "D:/wr"]>
    (<["obsPath" := JStr "D:/buffer"]> (<["maxStorage" := JNum 50]> ∅)).

Definition cloudBase : JsObject :=
  <["cloudStorage" := JBool true]>
    (<["cloudAccountName" := JStr "me"]>
       (<["cloudAccountPassword" := JStr "pw"]>
          (<["cloudGuildName" := JStr "guild"]> base))).

Definition video : JsObject := <["obsCaptureMode" := JStr "game_capture"]> ∅.

(** Window capture without a window: the video validator rejects it. *)
Definition badVideo : JsObject := <["obsCaptureMode" := JStr "window_capture"]> ∅.

Definition audio : JsObject := <["audioOutputDevices" := JStr "default"]> ∅.
Definition audio2 : JsObject := <["audioOutputDevices" := JStr "headset"]> ∅.

Definition flavourCfg : JsObject :=
  <["recordRetail" := JBool true]> (<["retailLogPath" := JStr "D:/wow/Logs"]> ∅).

Definition overlayCfg : JsObject := <["chatOverlayEnabled" := JBool false]> ∅.

Definition config : ConfigService :=
  {| cfgObsBase := base; cfgObsVideo := video; cfgObsAudio := audio;
     cfgFlavour := flavourCfg; cfgOverlay := overlayCfg |}.

Definition configCloud : ConfigService :=
  {| cfgObsBase := cloudBase; cfgObsVideo := video; cfgObsAudio := audio;
     cfgFlavour := flavourCfg; cfgOverlay := overlayCfg |}.

Definition configBadVideo : ConfigService :=
  {| cfgObsBase := base; cfgObsVideo := badVideo; cfgObsAudio := audio2;
     cfgFlavour := flavourCfg; cfgOverlay := overlayCfg |}.

Definition configAudio2 : ConfigService :=
  {| cfgObsBase := base; cfgObsVideo := video; cfgObsAudio := audio2;
     cfgFlavour := flavourCfg; cfgOverlay := overlayCfg |}.

(** The base stage has been applied and the pass waits on the validation
    of the video stage, whose snapshot asks for window capture and names
    no window. *)
Definition beforeBadVideo : System :=
  fst (runPass [env_ok; env_ok] (internalManage (constructor configBadVideo))).

Definition noWindow : JsError :=
  Error_ "Must select a window in the scene settings, if none appear, make sure WoW is running.".

(** The only task settles, everything outside being in order. *)
Definition ok : Label := Settle 0 env_ok.

(** A fresh Manager. *)
Definition fresh : System := constructor config.

(** A fresh Manager set up for cloud storage, its first call of [manage]
    waiting on the validation of the base stage. *)
Definition startedCloud : System := manage (constructor configCloud).

Definition authFailed : JsError :=
  RetryableConfigError "Failed to authenticate with the cloud store." 10000.

(** A first call of [manage], waiting on the validation of the base stage. *)
Definition started : System := manage fresh.

(** A Manager whose first call of [manage] has run to its end: every stage
    validated and applied, nothing in flight. *)
Definition configured : System :=
  default fresh (run (CallManage :: replicate 11 ok) fresh).

(** The user changes the audio device while the first pass is at the
    flavour stage, and changes it back while the queued pass is validating
    the audio stage; each change is followed by a call of [manage]. *)
Definition lateCall : list Label :=
  [CallManage] ++ replicate 6 ok
  ++ [ConfigChanged configAudio2; CallManage] ++ replicate 4 ok
  ++ [ok]
  ++ [ConfigChanged config; CallManage]
  ++ replicate 2 ok
  ++ [ok].

(** The recorder crashes while the first call of [manage] is waiting on the
    validation of the video stage. *)
Definition crashDuringPass : list Label :=
  [CallManage; ok; ok; RecorderCrash].

(** The queued (second) pass of a call of [manage] is under way: the audio
    setting was changed and [manage] called during the first pass; the first
    pass has ended, and the queued pass, having cleared [queued], waits on
    the validation of the audio stage. *)
Definition inQueuedPass : System :=
  default fresh
    (run ([CallManage] ++ replicate 6 ok
          ++ [ConfigChanged configAudio2; CallManage] ++ replicate 5 ok)
       fresh).

(** The first pass waits on the [configure] of the base stage. *)
Definition applyingBase : System :=
  default fresh (run [CallManage; ok] fresh).

(** The [configure] of the base stage has rejected in the first pass. *)
Definition rejected : System :=
  default fresh (step (ConfigureRejects 0) applyingBase).

(** After the rejection: a call of [manage], a change of the audio
    settings, another call of [manage]. *)
Definition afterRejection : System :=
  default fresh (run [CallManage; ConfigChanged configAudio2; CallManage] rejected).

(** The recorder crashes while the first call of [manage] is waiting on the
    [configure] of the video stage. *)
Definition crashDuringConfigure : list Label :=
  [CallManage; ok; ok; ok; RecorderCrash].

(** The first pass of a Manager whose video settings ask for window capture
    without a window: the base stage is applied, the video validator throws
    and the call of [manage] waits for its pass to be taken as returned. *)
Definition abortedAtVideo : list Label := [CallManage; ok; ok; ok].

End Sample.

(** ** Notions used in the statements and proofs *)

(** [s'] has the trace of [s] followed by [evs]. *)
Definition appended (s s' : System) (evs : list Event) : Prop :=
  trace s' = trace s ++ evs.

(** [s'] has the flags of the gate, the suspended calls and the number of
    passes of [s]. *)
Record quiet (s s' : System) : Prop := {
  quiet_active : active (this s') = active (this s);
  quiet_queued : queued (this s') = queued (this s);
  quiet_tasks : tasks s' = tasks s;
  quiet_passes : passes s' = passes s
}.

(** Where the gate stands: no call of [manage] in flight, one in flight
    before its [if (this.queued)], or one in flight after it. *)
Inductive Phase := Idle | First | Second.

Definition phase (s : System) : Phase :=
  match tasks s with
  | [] => Idle
  | AwaitFirst _ :: _ => First
  | AwaitSecond _ :: _ => Second
  end.

(** How one step without a crash moves the gate. *)
Inductive gate_move (s s' : System) : Prop :=
| gm_idle :
    phase s = Idle -> phase s' = Idle -> passes s' = passes s ->
    queued (this s') = queued (this s) -> gate_move s s'
| gm_start :
    phase s = Idle -> phase s' = First -> passes s' = S (passes s) ->
    queued (this s') = queued (this s) -> gate_move s s'
| gm_stay :
    phase s <> Idle -> phase s' = phase s -> passes s' = passes s ->
    (queued (this s) = true -> queued (this s') = true) -> gate_move s s'
| gm_second :
    phase s = First -> queued (this s) = true ->
    phase s' = Second -> queued (this s') = false ->
    passes s' = S (passes s) -> gate_move s s'
| gm_done_first :
    phase s = First -> queued (this s) = false ->
    phase s' = Idle -> passes s' = passes s ->
    queued (this s') = false -> gate_move s s'
| gm_done_second :
    phase s = Second -> phase s' = Idle -> passes s' = passes s ->
    queued (this s') = queued (this s) -> gate_move s s'.

(** The Manager with another mic state in its recorder. *)
Definition withMic (mic : MicStatus.t) (s : System) : System :=
  modify (fun m => set_recorder
            {| obsState := obsState (recorder m); obsMicState := mic;
               audioSources := audioSources (recorder m) |} m) s.

(** [stage.valid = false] on stage [i]. *)
Definition invalidate (i : nat) (s : System) : System :=
  modify (fun m => set_stages (alter (stage_set_valid false) i (stages m)) m) s.

(** The loop body up to its test of [stage.valid]. *)
Definition fetchStage (i : nat) (stage : ConfigStage) (s : System) : System :=
  if isEqual (stage_get (name stage) (cfg (this s))) (current stage)
  then emit (StageGet i (name stage)) s
  else invalidate i (emit (StageGet i (name stage)) s).

(** What the loop and the status messages do not touch. *)
Definition outside (s : System) :=
  (recorder (this s), cfg (this s), poller (this s), retryTimer (this s),
   (retailLogHandler (this s), classicLogHandler (this s), eraLogHandler (this s)),
   cloudClient (this s), (active (this s), queued (this s)),
   (tasks s, timers s, nextTimerId s)).

(** Stage [k] of [l'] is stage [k] of [l], or that stage with [valid]
    cleared because its snapshot in [c] differs from its current one. *)
Definition lowered_at (c : ConfigService) (l l' : list ConfigStage) (k : nat) : Prop :=
  l' !! k = l !! k
  \/ exists st, l !! k = Some st /\ l' !! k = Some (stage_set_valid false st)
                /\ isEqual (stage_get (name st) c) (current st) = false.

(** How the loop ends: stopped at the validation of a stage [j] whose
    [valid] is false, with every later stage untouched; or through, with the
    configuration declared valid. *)
Definition loop_result (i : nat) (s : System) (r : System * Pass) : Prop :=
  match snd r with
  | AwaitValidate j nm c =>
      i <= j
      /\ (forall k, j < k -> stages (this (fst r)) !! k = stages (this s) !! k)
      /\ exists st, stages (this s) !! j = Some st
                    /\ stages (this (fst r)) !! j = Some (stage_set_valid false st)
                    /\ nm = name st /\ c = stage_get nm (cfg (this s))
  | AwaitConfigure _ _ _ => False
  | Returned =>
      configValid (this (fst r)) = true
      /\ configMessage (this (fst r)) = String.EmptyString
      /\ reconfiguring (this (fst r)) = false
  end.

(** The events of a loop that started at index [i] and ended in [p]. *)
Definition loop_event_ok (i : nat) (p : Pass) (ev : Event) : Prop :=
  match ev with
  | StageGet k _ =>
      i <= k /\ match p with AwaitValidate j _ _ => k <= j | _ => True end
  | StageValidate k nm c => p = AwaitValidate k nm c
  | SendRecStatus _ _ | SendMicStatus _ => p = Returned
  | _ => False
  end.

(** Every [get], [validate] and [configure] recorded in [evs] is for a
    stage of index at most [i]. *)
Definition stagesUpTo (i : nat) (evs : list Event) : Prop :=
  Forall (fun ev => forall k, stageOf ev = Some k -> k <= i) evs.

(** Where a pass that started in [s0] stands: it has only dealt with stages
    up to the one it waits on, the later ones are as they were in [s0], and
    a stage whose validation it awaits has [valid] false and the snapshot it
    had in [s0]. *)
Definition pass_inv (s0 : System) (sp : System * Pass) : Prop :=
  match snd sp with
  | Returned => True
  | AwaitValidate i nm c =>
      (exists evs, appended s0 (fst sp) evs /\ stagesUpTo i evs)
      /\ (forall k, i < k -> stages (this (fst sp)) !! k = stages (this s0) !! k)
      /\ exists st0, stages (this s0) !! i = Some st0
                     /\ stages (this (fst sp)) !! i = Some (stage_set_valid false st0)
  | AwaitConfigure i nm c =>
      (exists evs, appended s0 (fst sp) evs /\ stagesUpTo i evs)
      /\ (forall k, i < k -> stages (this (fst sp)) !! k = stages (this s0) !! k)
  end.

(** A stage once validated and applied with the snapshot that [c] holds. *)
Definition applied (c : ConfigService) (st : ConfigStage) : ConfigStage :=
  {| name := name st; valid := true; current := stage_get (name st) c |}.

(** A stage that is valid and whose snapshot is unchanged stays valid. *)
Definition keepsValid (t t' : System) : Prop :=
  forall k st,
    stages (this t) !! k = Some st -> valid st = true ->
    isEqual (stage_get (name st) (cfg (this t))) (current st) = true ->
    exists st', stages (this t') !! k = Some st' /\ valid st' = true.

(** Every stage below index [i] is valid and holds the snapshot that the
    settings give for it. *)
Definition settledBelow (i : nat) (s : System) : Prop :=
  forall k st,
    k < i -> stages (this s) !! k = Some st ->
    valid st = true
    /\ isEqual (stage_get (name st) (cfg (this s))) (current st) = true.

(** Where a pass stands with respect to the settings: the stages it has
    passed are settled, the snapshot it is validating or applying is the one
    the settings give, and, once it has returned with a valid configuration,
    every stage is settled. *)
Definition settle_inv (sp : System * Pass) : Prop :=
  match snd sp with
  | AwaitValidate i nm c | AwaitConfigure i nm c =>
      settledBelow i (fst sp)
      /\ c = stage_get nm (cfg (this (fst sp)))
      /\ (forall st, stages (this (fst sp)) !! i = Some st -> name st = nm)
  | Returned =>
      configValid (this (fst sp)) = true ->
      allSettled (stages (this (fst sp))) (cfg (this (fst sp))) = true
  end.

(** In [evs] the validator of stage [k] was called on [c] and, having
    accepted it, [configure] was called on [c]. *)
Definition recorded (evs : list Event) (k : nat) (nm : StageName) (c : JsObject) : Prop :=
  List.In (StageValidate k nm c) evs /\ List.In (StageConfigure k nm c) evs.

(** The current snapshot of every stage is the one it had when the pass
    began in [s0], or one that this pass has validated and applied. *)
Definition currents_ok (s0 s : System) (evs : list Event) : Prop :=
  forall k st,
    stages (this s) !! k = Some st ->
    (exists st0, stages (this s0) !! k = Some st0 /\ current st = current st0)
    \/ recorded evs k (name st) (current st).

Definition cur_inv (s0 : System) (sp : System * Pass) : Prop :=
  exists evs,
    appended s0 (fst sp) evs
    /\ currents_ok s0 (fst sp) evs
    /\ match snd sp with
       | AwaitValidate i nm c =>
           List.In (StageValidate i nm c) evs
           /\ (forall st, stages (this (fst sp)) !! i = Some st -> name st = nm)
       | AwaitConfigure i nm c =>
           recorded evs i nm c
           /\ (forall st, stages (this (fst sp)) !! i = Some st -> name st = nm)
       | Returned => True
       end.

(** ** [forceStop] *)

(** [forceStop] from its start, or resumed after an [await], with the
    handlers it has still to look at: it runs to its next [await] (the
    handlers left to look at are returned) or to its end ([None]). *)
Fixpoint forceStopFrom (fs : list Flavour) (s : System) : System * option (list Flavour) :=
  match fs with
  | [] => (s, None)
  | f :: rest =>
      if optflag activity (logHandler f (this s))
      then (emit (OnLogHandler f H_forceEndActivity) s, Some rest)
      else forceStopFrom rest s
  end.

Definition forceStop (s : System) : System * option (list Flavour) :=
  forceStopFrom [Retail; Classic; Era] s.

(** A call of [forceStop] whose awaited promises settle one after the other
    with nothing in between; [n] bounds the number of [await]s. *)
Fixpoint forceStopRun (n : nat) (r : System * option (list Flavour)) : System :=
  match n, snd r with
  | S n', Some rest => forceStopRun n' (forceStopFrom rest (fst r))
  | _, _ => fst r
  end.

(** ** Classes of events *)

Definition isReturned (p : Pass) : bool :=
  match p with
  | Returned => true
  | _ => false
  end.

(** Some call of [manage] is inside a pass that has not returned. *)
Definition inFlight (s : System) : bool :=
  existsb (fun t => negb (isReturned (passOf t))) (tasks s).

(** The composite statuses as [refreshStatus] sends them: Reconfiguring
    without a message, InvalidConfig with one, the four others with the
    empty message; FatalError is not among them. *)
Definition status_wf (st : RecStatus.t) (msg : option string) : bool :=
  match st, msg with
  | RecStatus.Reconfiguring, None => true
  | RecStatus.InvalidConfig, Some _ => true
  | RecStatus.Overrunning, Some m
  | RecStatus.Recording, Some m
  | RecStatus.ReadyToRecord, Some m
  | RecStatus.WaitingForWoW, Some m => String.eqb m ""
  | _, _ => false
  end.

(** The password of a logged snapshot is hidden: the property is falsy or
    it is the mask. *)
Definition passwordMasked (o : JsObject) : bool :=
  negb (truthy (field o "cloudAccountPassword"))
  || bool_decide (field o "cloudAccountPassword" = JStr "**********").

(** Events other than the calls of a stage's closures and the console line
    that announces them. *)
Definition sideEvent (e : Event) : bool :=
  match e with
  | StageGet _ _ | StageValidate _ _ _ | StageConfigure _ _ _
  | ConsoleStage _ _ | SetInterval _ => false
  | SendRecStatus st msg => status_wf st msg
  | _ => true
  end.

(** What the loop over the stages emits: side events (once it is through),
    and the calls of [get] and [validate]. *)
Definition loopEvent (e : Event) : bool :=
  match e with
  | StageGet _ _ | StageValidate _ _ _ => true
  | _ => sideEvent e
  end.

(** Every event the Manager can emit after its construction, with what is
    known of its payload. *)
Definition event_wf (e : Event) : bool :=
  match e with
  | ConsoleStage _ o => passwordMasked o
  | StageGet _ _ | StageValidate _ _ _ | StageConfigure _ _ _ => true
  | SetInterval _ => false
  | _ => sideEvent e
  end.

Definition isConfigureCall (e : Event) : bool :=
  match e with
  | StageConfigure _ _ _ => true
  | _ => false
  end.

(** Each call of [configure] in [evs] comes after a call of [validate] of
    the same stage on the same snapshot. *)
Definition validatedFirst (evs : list Event) : Prop :=
  forall pre i nm c post,
    evs = pre ++ StageConfigure i nm c :: post ->
    List.In (StageValidate i nm c) pre.

(** A call of [manage] that waits on a validation has called it. *)
Definition awaiting_ok (tr : list Event) (t : Task) : Prop :=
  match passOf t with
  | AwaitValidate i nm c => List.In (StageValidate i nm c) tr
  | _ => True
  end.

(** What holds of the trace and of the suspended calls in every run. *)
Definition trace_inv (s : System) : Prop :=
  validatedFirst (trace s) /\ Forall (awaiting_ok (trace s)) (tasks s).

(** ** What the current snapshots have been through *)

(** The name and the current snapshot of every stage. *)
Definition snapshots (s : System) : list (StageName * JsObject) :=
  (fun st => (name st, current st)) <$> stages (this s).

(** In [tr] the validator of stage [k] was called on [c], [configure] was
    called on [c], and the validator accepts [c] in some state of the
    world. *)
Definition validatedApplied (tr : list Event) (k : nat) (nm : StageName) (c : JsObject)
    : Prop :=
  recorded tr k nm c /\ exists env, stage_validate nm env c = None.

(** What a suspended call has on record for the stage it waits on: the
    stage has the name the call holds, and a call that waits on a
    [configure] has had the snapshot validated and has called [configure]
    on it. *)
Definition task_recorded (s : System) (t : Task) : Prop :=
  match passOf t with
  | AwaitValidate i nm c => exists c', snapshots s !! i = Some (nm, c')
  | AwaitConfigure i nm c =>
      validatedApplied (trace s) i nm c /\ exists c', snapshots s !! i = Some (nm, c')
  | Returned => True
  end.

(** The current snapshot of every stage is the one the stage was
    constructed with, from the settings [c0], or one that has been
    validated and then applied. *)
Definition currents_recorded (c0 : ConfigService) (s : System) : Prop :=
  forall k st,
    stages (this s) !! k = Some st ->
    current st = stage_get (name st) c0
    \/ validatedApplied (trace s) k (name st) (current st).

(** The invariant on the suspended calls and the current snapshots. *)
Definition rec_inv (c0 : ConfigService) (s : System) : Prop :=
  Forall (task_recorded s) (tasks s) /\ currents_recorded c0 s.

(** ** Invariants of runs without a crash *)

(** Every stage below index [i] is valid. *)
Definition validBelow (i : nat) (s : System) : Prop :=
  forall k st, k < i -> stages (this s) !! k = Some st -> valid st = true.

Definition allValid (s : System) : Prop :=
  Forall (fun st => valid st = true) (stages (this s)).

(** How far a pass has got with the stage table: while it waits on stage
    [i] the stages before [i] are valid; once it has returned with a valid
    configuration all of them are. *)
Definition passProgress (s : System) (p : Pass) : Prop :=
  match p with
  | AwaitValidate i _ _ | AwaitConfigure i _ _ => validBelow i s
  | Returned => configValid (this s) = true -> allValid s
  end.

(** The state of a Manager that has seen neither a crash nor a [configure]
    that rejects: the gate is
    consistent; [reconfiguring] is set exactly while a pass is under way; a
    pending retry timer is the one the Manager holds, there is at most one,
    and none while a pass is under way; and the pass under way, or the last
    one, has got as far as [passProgress] says. *)
Record calm (s : System) : Prop := {
  calm_gate : gate_ok s = true;
  calm_flag : reconfiguring (this s) = inFlight s;
  calm_timers : forall id d, List.In (id, d) (timers s) -> retryTimer (this s) = Some id;
  calm_one : length (timers s) <= 1;
  calm_quiet : inFlight s = true -> timers s = [];
  calm_valid :
    match tasks s with
    | [] => configValid (this s) = true -> allValid s
    | t :: _ => passProgress s (passOf t)
    end
}.

(** The state a rejected [configure] leaves behind: the call of [manage]
    that awaited it is gone, and the flags it had set are still set. *)
Definition wedged (s : System) : Prop :=
  active (this s) = true /\ tasks s = []
  /\ reconfiguring (this s) = true /\ timers s = [].

(** ** One pass on its own *)

(** The promises a pass may still await: two for the stage it waits to
    validate and for each later stage, one less once the validator has
    answered. *)
Definition awaitsLeft (len : nat) (p : Pass) : nat :=
  match p with
  | AwaitValidate i _ _ => 2 * (len - i)
  | AwaitConfigure i _ _ => 2 * (len - i) - 1
  | Returned => 0
  end.

(** The stage a pass waits on is in the table. *)
Definition inBounds (s : System) (p : Pass) : Prop :=
  match p with
  | AwaitValidate i _ _ | AwaitConfigure i _ _ => i < length (stages (this s))
  | Returned => True
  end.

(** The stages on which [get] was called, in the order of the calls. *)
Definition getCalls (evs : list Event) : list nat :=
  omap (fun e => match e with StageGet i _ => Some i | _ => None end) evs.

(** Where a pass that began in [s0] stands with its calls: it has fetched
    the stages [0 .. m-1] in this order, each once, and has applied some of
    them, in this order and each at most once. *)
Definition order_inv (s0 : System) (sp : System * Pass) : Prop :=
  exists evs m,
    appended s0 (fst sp) evs
    /\ length (stages (this (fst sp))) = length (stages (this s0))
    /\ getCalls evs = seq 0 m
    /\ m <= length (stages (this s0))
    /\ match snd sp with
       | AwaitValidate i _ _ => m = S i /\ configureCalls evs `sublist_of` seq 0 i
       | AwaitConfigure i _ _ => m = S i /\ configureCalls evs `sublist_of` seq 0 (S i)
       | Returned =>
           configureCalls evs `sublist_of` seq 0 m
           /\ (configValid (this (fst sp)) = true -> m = length (stages (this s0)))
       end.

(** ** A pass over a table that is partly settled *)

(** The test of the loop body: the stage is not valid, or its snapshot in
    [c] differs from its current one. *)
Definition needsWork (c : ConfigService) (st : ConfigStage) : bool :=
  negb (valid st) || negb (isEqual (stage_get (name st) c) (current st)).

(** The calls a pass makes on the stages [sts] from index [i] on when every
    validator accepts: each stage is fetched, and validated and applied if
    it needs work. *)
Fixpoint passCalls (i : nat) (sts : list ConfigStage) (c : ConfigService) : list Event :=
  match sts with
  | [] => []
  | st :: rest =>
      StageGet i (name st)
      :: (if needsWork c st
          then [StageValidate i (name st) (stage_get (name st) c);
                StageConfigure i (name st) (stage_get (name st) c)]
          else [])
      ++ passCalls (S i) rest c
  end.

(** ** Observations on single operations *)

(** The log handlers whose activity was ended by force, in the order of the
    calls. *)
Definition forceEnded (evs : list Event) : list Flavour :=
  omap (fun e => match e with
                 | OnLogHandler f H_forceEndActivity => Some f
                 | _ => None
                 end) evs.


(** The property of the flavour settings that switches a flavour on. *)
Definition recordKey (f : Flavour) : string :=
  match f with
  | Retail => "recordRetail"
  | Classic => "recordClassic"
  | Era => "recordEra"
  end.

(** The property of the flavour settings that holds the path of a
    flavour's combat log. *)
Definition logPathKey (f : Flavour) : string :=
  match f with
  | Retail => "retailLogPath"
  | Classic => "classicLogPath"
  | Era => "eraLogPath"
  end.

(** [env] with another outcome of the cloud check. *)
Definition withAuthRace (r : RaceOutcome) (env : Env) : Env :=
  {| dirname := dirname env; existsSync := existsSync env; exists_ := exists_ env;
     checkDisk := checkDisk env; isFolderOwned := isFolderOwned env;
     takeOwnershipStorageDir := takeOwnershipStorageDir env;
     takeOwnershipBufferDir := takeOwnershipBufferDir env;
     validateFlavour := validateFlavour env; checkAuthRace := r |}.

(** ** Where the audio sources are attached *)

(** A call of [Recorder.configureAudioSources]. *)
Definition isAttachAudio (e : Event) : bool :=
  match e with
  | OnRecorder (R_configureAudioSources _) => true
  | _ => false
  end.

(** From [s] to [s'] the poller is the same and
    [Recorder.configureAudioSources] is not called. *)
Definition noAttach (s s' : System) : Prop :=
  poller (this s') = poller (this s)
  /\ exists evs, appended s s' evs /\ Forall (fun e => isAttachAudio e = false) evs.


(** ** Tactics *)

Ltac unfold_ops :=
  unfold resetAfterCrash, onWowStarted, onWowStopped, onWowStoppedEnd,
    onWowStoppedBegin, restartRecorder,
    validateFailed, passSucceeded, setConfigInvalid, setConfigValid,
    stage_configure, configureObsBase, configureObsVideo, configureObsAudio,
    configureFlavour, configureObsOverlay, destroyHandler, createHandler,
    recorder_configureAudioSources, recorder_removeAudioSources,
    refreshStatus, refreshRecStatus, refreshMicStatus,
    clearTimeout, drop_timer, setTimeout, emits in *.

(** Case analysis on every test of an operation that has no loop. *)
Ltac op_cases := unfold_ops; cbn; repeat case_match; simplify_eq.

Ltac count_passes :=
  unfold passes; cbn; rewrite ?List.filter_app, ?length_app; simpl; lia.

Ltac quiet_crush := op_cases; split; cbn; try reflexivity; count_passes.

(** An operation without a loop that leaves the poller alone and attaches
    no audio sources. *)
Ltac no_attach :=
  split; [op_cases; reflexivity|];
  match goal with
  | |- exists evs, appended ?s ?t evs /\ _ =>
      exists (emitted s t); unfold appended, emitted;
      op_cases; cbn; rewrite <- ?app_assoc, ?drop_app_length, ?drop_all, ?app_nil_r;
      (split; [reflexivity|repeat constructor])
  end.

(** * Proofs *)

(** ** The trace only grows *)

Lemma appended_refl s : appended s s [].
Proof. unfold appended. by rewrite app_nil_r. Qed.

Lemma appended_trans s1 s2 s3 a b :
  appended s1 s2 a -> appended s2 s3 b -> appended s1 s3 (a ++ b).
Proof. unfold appended. intros H1 H2. by rewrite H2, H1, app_assoc. Qed.

Lemma appended_emit e s : appended s (emit e s) [e].
Proof. reflexivity. Qed.

Lemma appended_emitted s s' evs : appended s s' evs -> emitted s s' = evs.
Proof. unfold appended, emitted. intros ->. by rewrite drop_app_length. Qed.

Lemma passes_appended s s' evs :
  appended s s' evs -> passes s' = passes s + length (List.filter isPassStart evs).
Proof.
  unfold appended, passes. intros ->.
  by rewrite List.filter_app, length_app.
Qed.

(** ** Steps that leave the gate alone *)

Lemma quiet_refl s : quiet s s.
Proof. by split. Qed.

Lemma quiet_trans s1 s2 s3 : quiet s1 s2 -> quiet s2 s3 -> quiet s1 s3.
Proof. intros [] []. split; congruence. Qed.

Lemma quiet_emit e s : isPassStart e = false -> quiet s (emit e s).
Proof.
  intros He. split; try reflexivity.
  unfold passes, emit. cbn. rewrite List.filter_app, length_app. cbn.
  rewrite He. cbn. lia.
Qed.

Lemma quiet_refreshStatus s : quiet s (refreshStatus s).
Proof. quiet_crush. Qed.

Lemma quiet_passSucceeded s : quiet s (passSucceeded s).
Proof. quiet_crush. Qed.

Lemma quiet_validateFailed e s : quiet s (validateFailed e s).
Proof. quiet_crush. Qed.

Lemma quiet_stage_configure nm c s : quiet s (stage_configure nm c s).
Proof. quiet_crush. Qed.

Lemma quiet_clearTimeout t s : quiet s (clearTimeout t s).
Proof. quiet_crush. Qed.

Lemma quiet_onWowStarted s : quiet s (onWowStarted s).
Proof. quiet_crush. Qed.

Lemma quiet_onWowStopped s : quiet s (onWowStopped s).
Proof. quiet_crush. Qed.

Lemma quiet_onWowStoppedBegin s : quiet s (onWowStoppedBegin s).
Proof. quiet_crush. Qed.

Lemma quiet_onWowStoppedEnd s : quiet s (onWowStoppedEnd s).
Proof. quiet_crush. Qed.

Lemma quiet_set_stopping n s : quiet s (set_stopping n s).
Proof. by split. Qed.

Lemma quiet_restartRecorder s : quiet s (restartRecorder s).
Proof. quiet_crush. Qed.

Lemma quiet_stage_loop n : forall i s, quiet s (fst (stage_loop n i s)).
Proof.
  induction n as [|n IH]; intros i s; simpl.
  - apply quiet_passSucceeded.
  - destruct (stages (this s) !! i) as [stage|]; [|apply quiet_passSucceeded].
    destruct (isEqual _ _); simpl.
    + destruct (valid stage); simpl.
      * eapply quiet_trans; [|apply IH]. by apply quiet_emit.
      * eapply quiet_trans; [by apply (quiet_emit (StageGet i (name stage)))|].
        by apply quiet_emit.
    + split; try reflexivity. count_passes.
Qed.

Lemma quiet_resumePass p env s : quiet s (fst (resumePass p env s)).
Proof.
  destruct p as [i nm c|i nm c|]; simpl.
  - destruct (stage_validate nm env c); simpl.
    + apply quiet_validateFailed.
    + eapply quiet_trans; [|apply quiet_stage_configure].
      eapply quiet_trans; by apply quiet_emit.
  - eapply quiet_trans; [|apply quiet_stage_loop]. by split.
  - apply quiet_refl.
Qed.

(** [internalManage] starts one pass and leaves the gate alone. *)
Lemma internalManage_gate s :
  let s' := fst (internalManage s) in
  active (this s') = active (this s) /\ queued (this s') = queued (this s)
  /\ tasks s' = tasks s /\ passes s' = S (passes s).
Proof.
  unfold internalManage, beginPass.
  set (s1 := refreshStatus _).
  assert (H1 : quiet (emit (Console "[Manager] Internal manage") s) s1).
  { unfold s1. eapply quiet_trans; [|apply quiet_refreshStatus]. by split. }
  set (s2 := match retryTimer (this s1) with Some t => clearTimeout t s1 | None => s1 end).
  assert (H2 : quiet s1 s2).
  { unfold s2. destruct (retryTimer (this s1)); [apply quiet_clearTimeout|apply quiet_refl]. }
  destruct (quiet_trans _ _ _ (quiet_trans _ _ _ H1 H2) (quiet_stage_loop (length (stages (this s2))) 0 s2))
    as [Ha Hq Ht Hp].
  cbn zeta. rewrite Ha, Hq, Ht, Hp. repeat split.
  unfold passes, emit. cbn. rewrite List.filter_app, length_app. cbn. lia.
Qed.

(** ** The gate as a state machine *)

Lemma gate_ok_cases s :
  gate_ok s = true ->
  (active (this s) = false /\ tasks s = [])
  \/ (active (this s) = true /\ exists t, tasks s = [t]).
Proof.
  unfold gate_ok. destruct (active (this s)); intros H.
  - right. split; [done|].
    destruct (tasks s) as [|t [|]]; try discriminate. by exists t.
  - left. split; [done|]. by destruct (tasks s).
Qed.

Lemma manage_when_active s :
  active (this s) = true ->
  manage s =
  if queued (this s) then s
  else modify (set_queued true) (emit (Console "[Manager] Queued a manage call") s).
Proof. unfold manage. intros ->. by destruct (queued (this s)). Qed.

Lemma manage_when_idle s :
  active (this s) = false ->
  exists p,
    tasks (manage s) = tasks s ++ [AwaitFirst p]
    /\ active (this (manage s)) = true
    /\ queued (this (manage s)) = queued (this s)
    /\ passes (manage s) = S (passes s).
Proof.
  unfold manage. intros ->.
  pose proof (internalManage_gate (modify (set_active true) s)) as H.
  destruct (internalManage (modify (set_active true) s)) as [s1 p].
  cbn in H. destruct H as (Ha & Hq & Ht & Hp).
  exists p. cbn. by rewrite Ht.
Qed.

Lemma manage_gate s :
  gate_ok s = true -> gate_ok (manage s) = true /\ gate_move s (manage s).
Proof.
  intros Hok. destruct (gate_ok_cases s Hok) as [[Ha Ht]|[Ha [t Ht]]].
  - destruct (manage_when_idle s Ha) as (p & Ht' & Ha' & Hq' & Hp').
    rewrite Ht in Ht'. split.
    + unfold gate_ok. by rewrite Ha', Ht'.
    + apply gm_start; unfold phase; by rewrite ?Ht, ?Ht'.
  - rewrite (manage_when_active s Ha). destruct (queued (this s)) eqn:Hq.
    + split; [done|]. apply gm_stay; try done.
      unfold phase. rewrite Ht. by destruct t.
    + split.
      * unfold gate_ok. cbn. by rewrite Ha, Ht.
      * apply gm_stay; try done; try count_passes.
        unfold phase. cbn. rewrite Ht. by destruct t.
Qed.

Lemma manageAfterFirst_queued tid s :
  queued (this s) = true ->
  exists p,
    tasks (manageAfterFirst tid s) = <[tid := AwaitSecond p]> (tasks s)
    /\ active (this (manageAfterFirst tid s)) = active (this s)
    /\ queued (this (manageAfterFirst tid s)) = false
    /\ passes (manageAfterFirst tid s) = S (passes s).
Proof.
  unfold manageAfterFirst. intros ->.
  set (s0 := modify _ _).
  pose proof (internalManage_gate s0) as H.
  destruct (internalManage s0) as [s1 p].
  cbn in H. destruct H as (Ha & Hq & Ht & Hp).
  exists p. split; [cbn; by rewrite Ht|].
  split; [cbn; by rewrite Ha|]. split; [cbn; by rewrite Hq|].
  change (passes s1 = S (passes s)). rewrite Hp.
  unfold s0, passes. cbn. rewrite List.filter_app, length_app. cbn. lia.
Qed.

Lemma settle_gate tid env s s' :
  gate_ok s = true -> settle tid env s = Some s' ->
  gate_ok s' = true /\ gate_move s s'.
Proof.
  intros Hok Hs. destruct (gate_ok_cases s Hok) as [[Ha Ht]|[Ha [t Ht]]].
  { unfold settle in Hs. by rewrite Ht in Hs. }
  unfold settle in Hs. rewrite Ht in Hs.
  destruct tid as [|tid]; [|done]. cbn in Hs.
  assert (Hresume : forall (mk : Pass -> Task) p,
            (forall q, phase (set_tasks [mk q] s) = phase s) ->
            let '(s1, p') := resumePass p env s in
            gate_ok (set_tasks (<[0 := mk p']> (tasks s1)) s1) = true
            /\ gate_move s (set_tasks (<[0 := mk p']> (tasks s1)) s1)).
  { intros mk p Hph.
    pose proof (quiet_resumePass p env s) as [Ha1 Hq1 Ht1 Hp1].
    destruct (resumePass p env s) as [s1 p'].
    cbn [fst] in Ha1, Hq1, Ht1, Hp1. rewrite Ht1, Ht.
    change (<[0:=mk p']> [t]) with [mk p'].
    split.
    - unfold gate_ok. cbn. by rewrite Ha1, Ha.
    - apply gm_stay.
      + unfold phase. rewrite Ht. by destruct t.
      + exact (Hph p').
      + exact Hp1.
      + cbn. congruence. }
  assert (Hdone : gate_ok (manageDone 0 s) = true
                  /\ phase (manageDone 0 s) = Idle
                  /\ passes (manageDone 0 s) = passes s
                  /\ queued (this (manageDone 0 s)) = queued (this s)).
  { unfold manageDone, gate_ok, phase. cbn. by rewrite Ht. }
  destruct t as [p|p].
  - assert (Hph : forall q, phase (set_tasks [AwaitFirst q] s) = phase s).
    { intros q. unfold phase. cbn. by rewrite Ht. }
    destruct p as [i nm c|i nm c|].
    + specialize (Hresume AwaitFirst (AwaitValidate i nm c) Hph).
      destruct (resumePass _ env s). by simplify_eq.
    + specialize (Hresume AwaitFirst (AwaitConfigure i nm c) Hph).
      destruct (resumePass _ env s). by simplify_eq.
    + simplify_eq. destruct (queued (this s)) eqn:Hq.
      * destruct (manageAfterFirst_queued 0 s Hq) as (p & Ht' & Ha' & Hq' & Hp').
        rewrite Ht in Ht'. cbn in Ht'. split.
        -- unfold gate_ok. by rewrite Ha', Ha, Ht'.
        -- apply gm_second; try done; unfold phase; by rewrite ?Ht, ?Ht'.
      * unfold manageAfterFirst. rewrite Hq.
        destruct Hdone as (H1 & H2 & H3 & H4). split; [done|].
        apply gm_done_first; try done; try congruence.
        unfold phase. by rewrite Ht.
  - assert (Hph : forall q, phase (set_tasks [AwaitSecond q] s) = phase s).
    { intros q. unfold phase. cbn. by rewrite Ht. }
    destruct p as [i nm c|i nm c|].
    + specialize (Hresume AwaitSecond (AwaitValidate i nm c) Hph).
      destruct (resumePass _ env s). by simplify_eq.
    + specialize (Hresume AwaitSecond (AwaitConfigure i nm c) Hph).
      destruct (resumePass _ env s). by simplify_eq.
    + simplify_eq. destruct Hdone as (H1 & H2 & H3 & H4). split; [done|].
      apply gm_done_second; try done. unfold phase. by rewrite Ht.
Qed.

(** A step that is [quiet] keeps the gate where it is. *)
Lemma quiet_gate s s' :
  gate_ok s = true -> quiet s s' -> gate_ok s' = true /\ gate_move s s'.
Proof.
  intros Hok [Ha Hq Ht Hp]. split.
  - unfold gate_ok in *. by rewrite Ha, Ht.
  - destruct (phase s) eqn:Hph.
    + apply gm_idle; try done. unfold phase in *. by rewrite Ht.
    + apply gm_stay; try congruence. unfold phase in *. by rewrite Ht.
    + apply gm_stay; try congruence. unfold phase in *. by rewrite Ht.
Qed.

Lemma step_gate l s s' :
  isCrash l = false -> isRejection l = false -> gate_ok s = true -> step l s = Some s' ->
  gate_ok s' = true /\ gate_move s s'.
Proof.
  intros Hl Hr Hok Hstep. destruct l; cbn in Hstep; try discriminate.
  - simplify_eq. by apply manage_gate.
  - by eapply settle_gate.
  - destruct (timer_pending id s); [|done]. simplify_eq.
    assert (Hq : quiet s (drop_timer id s)) by by split.
    destruct (quiet_gate _ _ Hok Hq) as [Hok1 _].
    destruct (manage_gate _ Hok1) as [Hok2 Hmove]. split; [done|].
    destruct Hq as [Ha Hq Ht Hp].
    assert (Hph : phase (drop_timer id s) = phase s) by (unfold phase; by rewrite Ht).
    destruct Hmove as [| | ? ? ? Himp | | |].
    + apply gm_idle; congruence.
    + apply gm_start; congruence.
    + apply gm_stay; try congruence. intros Hx. apply Himp. congruence.
    + apply gm_second; congruence.
    + apply gm_done_first; congruence.
    + apply gm_done_second; congruence.
  - simplify_eq. apply quiet_gate; [done|]. by split.
  - simplify_eq. apply quiet_gate; [done|].
    eapply quiet_trans; [|apply quiet_refreshStatus]. by split.
  - destruct (logHandler f (this s)); [|done]. simplify_eq.
    apply quiet_gate; [done|].
    eapply quiet_trans; [|apply quiet_refreshStatus]. by split.
  - simplify_eq. apply quiet_gate; [done|].
    eapply quiet_trans; [|apply quiet_onWowStarted]. by split.
  - simplify_eq. apply quiet_gate; [done|].
    eapply quiet_trans; [|apply quiet_set_stopping].
    eapply quiet_trans; [|apply quiet_onWowStoppedBegin]. by split.
  - simplify_eq. apply quiet_gate; [done|]. apply quiet_restartRecorder.
  - destruct (stopping s) as [|n]; [done|]. simplify_eq. apply quiet_gate; [done|].
    eapply quiet_trans; [apply (quiet_set_stopping n)|apply quiet_onWowStoppedEnd].
Qed.

(** The events that do not drive a pass leave the gate, the calls in flight
    and the number of passes alone. *)
Lemma step_quiet l s s' :
  drivesPass l = false -> isRejection l = false -> step l s = Some s' -> quiet s s'.
Proof.
  intros Hl Hr Hstep. destruct l; cbn in Hstep; try discriminate.
  - simplify_eq. by split.
  - simplify_eq. eapply quiet_trans; [|apply quiet_refreshStatus]. by split.
  - destruct (logHandler f (this s)); [|done]. simplify_eq.
    eapply quiet_trans; [|apply quiet_refreshStatus]. by split.
  - simplify_eq. eapply quiet_trans; [|apply quiet_onWowStarted]. by split.
  - simplify_eq. eapply quiet_trans; [|apply quiet_set_stopping].
    eapply quiet_trans; [|apply quiet_onWowStoppedBegin]. by split.
  - simplify_eq. apply quiet_restartRecorder.
  - destruct (stopping s) as [|n]; [done|]. simplify_eq.
    eapply quiet_trans; [apply (quiet_set_stopping n)|apply quiet_onWowStoppedEnd].
Qed.

Lemma gate_ok_length s : gate_ok s = true -> length (tasks s) <= 1.
Proof.
  intros H. destruct (gate_ok_cases s H) as [[_ ->]|[_ [t ->]]]; simpl; lia.
Qed.

Lemma gate_ok_idle s :
  gate_ok s = true -> active (this s) = false -> tasks s = [] /\ phase s = Idle.
Proof.
  intros H Ha. destruct (gate_ok_cases s H) as [[_ Ht]|[Ha' _]]; [|congruence].
  unfold phase. by rewrite Ht.
Qed.

Lemma gate_ok_busy s :
  gate_ok s = true -> active (this s) = true -> phase s <> Idle.
Proof.
  intros H Ha. destruct (gate_ok_cases s H) as [[Ha' _]|[_ [t Ht]]]; [congruence|].
  unfold phase. rewrite Ht. by destruct t.
Qed.

Lemma set_queued_same m : queued m = true -> set_queued true m = m.
Proof. destruct m. cbn. by intros ->. Qed.

Lemma manage_idempotent s :
  active (this s) = true -> manage (manage s) = manage s.
Proof.
  intros Ha. rewrite (manage_when_active s Ha).
  destruct (queued (this s)) eqn:Hq.
  - by rewrite (manage_when_active s Ha), Hq.
  - by rewrite manage_when_active.
Qed.

Lemma manageTimes_active n s :
  active (this s) = true -> 1 <= n -> manageTimes n s = manage s.
Proof.
  intros Ha Hn. destruct n as [|n]; [lia|]. clear Hn.
  induction n as [|n IH]; [done|].
  change (manage (manageTimes (S n) s) = manage s).
  rewrite IH. by apply manage_idempotent.
Qed.

(** A call of [manage] that meets the gate held sets [queued] and does
    nothing else to the Manager. *)
Lemma manage_active_effect s :
  active (this s) = true ->
  this (manage s) = set_queued true (this s)
  /\ tasks (manage s) = tasks s
  /\ timers (manage s) = timers s
  /\ passes (manage s) = passes s.
Proof.
  intros Ha. rewrite (manage_when_active s Ha).
  destruct (queued (this s)) eqn:Hq.
  - by rewrite set_queued_same.
  - repeat split. count_passes.
Qed.

(** What a run under the gate can do to the number of passes. *)
Lemma run_busy_gate sched :
  forall s s',
    no_crash sched = true -> no_reject sched = true ->
    gate_ok s = true -> run_busy sched s = Some s' ->
    gate_ok s' = true
    /\ match phase s with
       | Idle => s' = s
       | First =>
           (phase s' = First /\ passes s' = passes s
            /\ (queued (this s) = true -> queued (this s') = true))
           \/ (phase s' <> First /\ passes s' <= passes s + 1
               /\ (queued (this s) = true -> passes s' = passes s + 1))
       | Second => phase s' <> First /\ passes s' = passes s
       end.
Proof.
  induction sched as [|l rest IH]; intros s s' Hnc Hnr Hok Hrun.
  - cbn in Hrun. simplify_eq. split; [done|].
    destruct (phase s') eqn:Hph; [done| |done].
    by left.
  - cbn in Hrun, Hnc, Hnr. apply andb_true_iff in Hnc as [Hl Hnc].
    apply negb_true_iff in Hl.
    apply andb_true_iff in Hnr as [Hr Hnr]. apply negb_true_iff in Hr.
    destruct (active (this s)) eqn:Ha; [|done].
    destruct (step l s) as [s1|] eqn:Hstep; [|done].
    destruct (step_gate l s s1 Hl Hr Hok Hstep) as [Hok1 Hmove].
    destruct (IH s1 s' Hnc Hnr Hok1 Hrun) as [Hok' Hrest]. split; [done|].
    pose proof (gate_ok_busy s Hok Ha) as Hbusy.
    destruct Hmove as [Hp|Hp|Hp Hp1 Hn Hq|Hp Hq Hp1 Hq1 Hn|Hp Hq Hp1 Hn Hq1|Hp Hp1 Hn Hq];
      try congruence.
    + rewrite Hp1 in Hrest. destruct (phase s) eqn:Hph; [done| |].
      * destruct Hrest as [(H1 & H2 & H3)|(H1 & H2 & H3)].
        -- left. repeat split; [done|lia|auto].
        -- right. repeat split; [done|lia|]. intros Hx. rewrite H3 by auto. lia.
      * split; [tauto|]. lia.
    + rewrite Hp, Hp1 in *. destruct Hrest as [H1 H2].
      right. repeat split; [done|lia|lia].
    + rewrite Hp, Hp1 in *. subst s'.
      right. split; [congruence|]. split; [lia|]. congruence.
    + rewrite Hp, Hp1 in *. subst s'. split; [congruence|lia].
Qed.

Lemma run_busy_app pre post s :
  run_busy (pre ++ post) s =
  match run_busy pre s with
  | Some s1 => run_busy post s1
  | None => None
  end.
Proof.
  revert s. induction pre as [|l pre IH]; intros s; cbn; [done|].
  destruct (active (this s)); [|done].
  destruct (step l s); [apply IH|done].
Qed.

Lemma no_crash_app pre post :
  no_crash (pre ++ post) = true -> no_crash pre = true /\ no_crash post = true.
Proof. unfold no_crash. rewrite forallb_app. apply andb_true_iff. Qed.

Lemma no_reject_app pre post :
  no_reject (pre ++ post) = true -> no_reject pre = true /\ no_reject post = true.
Proof. unfold no_reject. rewrite forallb_app. apply andb_true_iff. Qed.

(** ** Claim C1: overlapping calls of [manage] coalesce *)

(** Where the calls coalesce.  The gate is held ([active] is true, one call
    of [manage] in flight) and [N >= 1] further calls arrive.  Together they
    only set [queued]: nothing else of the Manager changes, no call is added
    to the pool, no timer is touched, no pass is started.  Whatever happens
    next without a crash or a rejected [configure] while the gate is held
    ([sched]: more calls, settled promises, timers, changed settings, other
    events), at every
    moment at most one call of [manage] is in flight and at most one further
    pass has been started; and if the calls arrived during the first pass of
    the call in flight, then exactly one further pass has been started when
    [active] is set false. *)
Lemma calls_during_first_pass_coalesce :
  forall (s : System) (N : nat) (sched : list Label) (s' : System),
    gate_ok s = true ->
    active (this s) = true ->
    1 <= N ->
    no_crash sched = true ->
    no_reject sched = true ->
    run_busy sched (manageTimes N s) = Some s' ->
    active (this s') = false ->
    (this (manageTimes N s) = set_queued true (this s)
     /\ tasks (manageTimes N s) = tasks s
     /\ timers (manageTimes N s) = timers s
     /\ passes (manageTimes N s) = passes s)
    /\ (phase s = First -> passes s' = passes s + 1)
    /\ tasks s' = []
    /\ (forall pre post s1,
          sched = pre ++ post ->
          run_busy pre (manageTimes N s) = Some s1 ->
          length (tasks s1) <= 1 /\ passes s1 <= passes s + 1).
Proof.
  intros s N sched s' Hok Ha HN Hnc Hnr Hrun Hfin.
  rewrite (manageTimes_active N s Ha HN) in *.
  destruct (manage_active_effect s Ha) as (Hthis & Htasks & Htimers & Hpasses).
  destruct (manage_gate s Hok) as [Hok0 _].
  assert (Hph0 : phase (manage s) = phase s).
  { unfold phase in *. by rewrite Htasks. }
  assert (Hq0 : queued (this (manage s)) = true) by by rewrite Hthis.
  split; [done|].
  destruct (run_busy_gate sched _ _ Hnc Hnr Hok0 Hrun) as [Hok' Hinv].
  rewrite Hph0 in Hinv.
  destruct (gate_ok_idle s' Hok' Hfin) as [Ht' Hph'].
  split; [|split; [done|]].
  - intros Hfirst. rewrite Hfirst in Hinv.
    destruct Hinv as [(H1 & _)|(_ & _ & H3)]; [congruence|].
    rewrite H3 by done. lia.
  - intros pre post s1 -> Hpre.
    apply no_crash_app in Hnc as [Hnc1 _].
    apply no_reject_app in Hnr as [Hnr1 _].
    destruct (run_busy_gate pre _ _ Hnc1 Hnr1 Hok0 Hpre) as [Hok1 Hinv1].
    split; [by apply gate_ok_length|].
    rewrite Hph0 in Hinv1. pose proof (gate_ok_busy s Hok Ha) as Hbusy.
    destruct (phase s); [done| |].
    + destruct Hinv1 as [(_ & H2 & _)|(_ & H2 & _)]; lia.
    + destruct Hinv1 as [_ H2]. lia.
Qed.

(** Three calls arrive while the first pass waits on the validation of the
    base stage; the first pass then runs to its end, one queued pass runs,
    and the gate is released. *)
Lemma calls_during_first_pass_coalesce_example :
  tasks (default Sample.started
           (run_busy (replicate 12 Sample.ok) (manageTimes 3 Sample.started)))
  = [].
Proof.
  refine (proj1 (proj2 (proj2
    (calls_during_first_pass_coalesce Sample.started 3 (replicate 12 Sample.ok)
       (default Sample.started
          (run_busy (replicate 12 Sample.ok) (manageTimes 3 Sample.started)))
       _ _ _ _ _ _ _)))).
  - vm_compute. reflexivity.
  - vm_compute. reflexivity.
  - lia.
  - vm_compute. reflexivity.
  - vm_compute. reflexivity.
  - vm_compute. reflexivity.
  - vm_compute. reflexivity.
Qed.

(** C1, at the failing input.  In [Sample.inQueuedPass] the queued (second)
    pass of the call of [manage] in flight is under way, waiting on the
    validation of the audio stage.  [N >= 1] further calls of [manage]
    arrive: together they only set [queued] and start no pass.  When the
    pass under way has then run to its end and the call that made it goes
    on, [active] is set false with [queued] still set, and no further pass
    has been started: [manage] tests [queued] once, before the queued pass,
    and not again after it. *)
Theorem C1_calls_during_queued_pass_are_dropped :
  forall n : nat,
    let s := manageTimes (S n) Sample.inQueuedPass in
    active (this Sample.inQueuedPass) = true
    /\ phase Sample.inQueuedPass = Second
    /\ this s = set_queued true (this Sample.inQueuedPass)
    /\ tasks s = tasks Sample.inQueuedPass
    /\ passes s = passes Sample.inQueuedPass
    /\ match run (replicate 3 Sample.ok) s with
       | Some s' =>
           tasks s' = [] /\ active (this s') = false /\ queued (this s') = true
           /\ passes s' = passes Sample.inQueuedPass
       | None => False
       end.
Proof.
  intros n. cbn zeta.
  assert (Ha : active (this Sample.inQueuedPass) = true) by (vm_compute; reflexivity).
  rewrite (manageTimes_active (S n) Sample.inQueuedPass Ha) by lia.
  destruct (manage_active_effect Sample.inQueuedPass Ha) as (Hthis & Htasks & _ & Hpasses).
  split; [exact Ha|]. split; [vm_compute; reflexivity|].
  split; [exact Hthis|]. split; [exact Htasks|]. split; [exact Hpasses|].
  vm_compute. repeat split; reflexivity.
Qed.

(** ** Claim C2: the run-state invariant *)

(** Without a crash and without a rejected [configure] the gate stays
    consistent: [active] is set exactly when a call of [manage] is in
    flight, and there is never more than one. *)
Lemma run_gate sched :
  forall s s',
    no_crash sched = true -> no_reject sched = true ->
    gate_ok s = true -> run sched s = Some s' ->
    gate_ok s' = true.
Proof.
  induction sched as [|l rest IH]; intros s s' Hnc Hnr Hok Hrun; cbn in *.
  - by simplify_eq.
  - apply andb_true_iff in Hnc as [Hl Hnc]. apply negb_true_iff in Hl.
    apply andb_true_iff in Hnr as [Hr Hnr]. apply negb_true_iff in Hr.
    destruct (step l s) as [s1|] eqn:Hstep; [|done].
    destruct (step_gate l s s1 Hl Hr Hok Hstep) as [Hok1 _]. eauto.
Qed.

(** C2, at the failing input.  A call of [manage] that arrives while the
    queued (second) pass is waiting on a validation sets [queued]; the
    second pass then ends and [active] is set false with [queued] still set.
    The schedule [Sample.lateCall] ends with no call in flight, [active]
    false and [queued] true, after two passes, and with the audio stage
    holding a snapshot that is no longer what the settings say. *)
Theorem C2_queued_outlives_active :
  match run Sample.lateCall Sample.fresh with
  | Some s' =>
      tasks s' = []
      /\ active (this s') = false
      /\ queued (this s') = true
      /\ passes s' = 2
      /\ bool_decide (current <$> stages (this s') !! 2 = Some Sample.audio2) = true
      /\ bool_decide (getObsAudioConfig (cfg (this s')) = Sample.audio) = true
  | None => False
  end.
Proof. vm_compute. repeat split; reflexivity. Qed.

(** A crash that arrives while a call of [manage] is suspended resets
    [active] under it: after [Sample.crashDuringPass] two calls are in
    flight, each inside a pass.  When the older one is then settled to its
    end and the newer one after it, the video, audio, flavour and overlay
    stages are applied by the older call and the base stage, last, by the
    call that the recovery made. *)
Lemma crash_during_pass_leaves_two_calls :
  match run Sample.crashDuringPass Sample.fresh,
        run (Sample.crashDuringPass ++ replicate 12 Sample.ok) Sample.fresh with
  | Some s1, Some s2 =>
      length (tasks s1) = 2 /\ passes s1 = 2 /\ active (this s1) = true
      /\ tasks s2 = [] /\ passes s2 = 2 /\ configValid (this s2) = true
      /\ configureCalls (emitted s1 s2) = [1; 2; 3; 4; 0]
  | _, _ => False
  end.
Proof. vm_compute. repeat split; reflexivity. Qed.

(** ** Claims C6 and C7: what [refreshStatus] publishes *)

Lemma inOverrun_any m : inOverrun m = anyOverrunning m.
Proof.
  unfold inOverrun, anyOverrunning, liveHandlers.
  destruct (retailLogHandler m), (classicLogHandler m), (eraLogHandler m);
    simpl; rewrite ?orb_false_r; try reflexivity.
  all: symmetry; apply orb_assoc.
Qed.

Lemma inActivity_any m : inActivity m = anyActive m.
Proof.
  unfold inActivity, anyActive, liveHandlers.
  destruct (retailLogHandler m), (classicLogHandler m), (eraLogHandler m);
    simpl; rewrite ?orb_false_r; try reflexivity.
  all: symmetry; apply orb_assoc.
Qed.

Lemma refreshStatus_this s : this (refreshStatus s) = this s.
Proof. op_cases; reflexivity. Qed.

(** The messages of one call of [refreshStatus]: the composite status of
    the priority list, then the mic status unless the call returned early. *)
Lemma refreshStatus_appended s :
  appended s (refreshStatus s)
    (SendRecStatus (fst (statusByPriority (this s))) (snd (statusByPriority (this s)))
     :: (if reconfiguring (this s) || negb (configValid (this s)) then []
         else [SendMicStatus (obsMicState (recorder (this s)))])).
Proof.
  unfold appended, refreshStatus, statusByPriority, refreshRecStatus, refreshMicStatus.
  rewrite <- inOverrun_any, <- inActivity_any.
  destruct (reconfiguring (this s)); [reflexivity|].
  destruct (configValid (this s)); [|reflexivity].
  destruct (inOverrun (this s)); [simpl; by rewrite <- app_assoc|].
  destruct (inActivity (this s)); [simpl; by rewrite <- app_assoc|].
  destruct (obsState (recorder (this s))); simpl; by rewrite <- app_assoc.
Qed.

(** C6.  One call of [refreshStatus] sends exactly one composite status,
    the first match of the priority list: Reconfiguring if [reconfiguring];
    else InvalidConfig with [configMessage] if not [configValid]; else
    Overrunning if some log handler overruns; else Recording if some log
    handler is in an activity; else ReadyToRecord if the engine records;
    else WaitingForWoW (engine Offline, Starting or Stopping).  The Manager
    itself is not changed. *)
Theorem C6_status_priority :
  forall s : System,
    List.filter isRecStatus (emitted s (refreshStatus s))
    = [SendRecStatus (fst (statusByPriority (this s))) (snd (statusByPriority (this s)))]
    /\ this (refreshStatus s) = this s.
Proof.
  intros s. split; [|apply refreshStatus_this].
  rewrite (appended_emitted _ _ _ (refreshStatus_appended s)).
  cbn. by destruct (_ || _).
Qed.

(** C7 as stated fails: while a pass is in progress ([reconfiguring] is set
    in [Sample.started]) a call of [refreshStatus] sends the composite
    status alone, and no mic status. *)
Lemma C7_counterexample :
  ~ (forall s : System,
       exists mic, List.In (SendMicStatus mic) (emitted s (refreshStatus s))).
Proof.
  intros H. destruct (H Sample.started) as [mic Hin].
  rewrite (appended_emitted _ _ _ (refreshStatus_appended Sample.started)) in Hin.
  vm_compute in Hin. destruct Hin as [Hin|[]]. discriminate.
Qed.

(** C7, amended.  A call of [refreshStatus] sends the composite status and
    then, unless the Manager is reconfiguring or its configuration is
    invalid, the mic status of the recorder; in those two cases it returns
    after the composite status and sends no mic status.  The composite
    status does not depend on the mic state. *)
Theorem C7_mic_status_unless_early_return :
  forall (s : System) (mic : MicStatus.t),
    emitted s (refreshStatus s)
    = SendRecStatus (fst (statusByPriority (this s))) (snd (statusByPriority (this s)))
      :: (if reconfiguring (this s) || negb (configValid (this s)) then []
          else [SendMicStatus (obsMicState (recorder (this s)))])
    /\ List.filter isRecStatus (emitted (withMic mic s) (refreshStatus (withMic mic s)))
       = List.filter isRecStatus (emitted s (refreshStatus s)).
Proof.
  intros s mic.
  rewrite !(appended_emitted _ _ _ (refreshStatus_appended _)).
  split; [done|]. cbn. by destruct (_ || _).
Qed.

(** ** Claim C9: the periodic restart *)



(** ** The loop over the stages *)

(** The three ways through [stage_loop]: the loop ends; stage [i] needs
    work and the loop stops at its validation; stage [i] is skipped. *)
Lemma stage_loop_cases (P : nat -> System -> System * Pass -> Prop) :
  (forall i s, P i s (passSucceeded s, Returned)) ->
  (forall i s stage,
      stages (this s) !! i = Some stage ->
      isEqual (stage_get (name stage) (cfg (this s))) (current stage) && valid stage = false ->
      P i s (emit (StageValidate i (name stage) (stage_get (name stage) (cfg (this s))))
               (fetchStage i stage s),
             AwaitValidate i (name stage) (stage_get (name stage) (cfg (this s))))) ->
  (forall i s stage r,
      stages (this s) !! i = Some stage ->
      isEqual (stage_get (name stage) (cfg (this s))) (current stage) = true ->
      valid stage = true ->
      P (S i) (emit (StageGet i (name stage)) s) r -> P i s r) ->
  forall n i s, P i s (stage_loop n i s).
Proof.
  intros Hend Hstop Hnext. induction n as [|n IH]; intros i s; simpl; [apply Hend|].
  destruct (stages (this s) !! i) as [stage|] eqn:Hst; [|apply Hend].
  specialize (Hstop i s stage Hst). unfold fetchStage in Hstop. cbn in Hstop.
  destruct (isEqual _ _) eqn:Heq; simpl in *.
  - destruct (valid stage) eqn:Hv; simpl.
    + eapply Hnext; eauto.
    + by apply Hstop.
  - by apply Hstop.
Qed.

Lemma outside_eq s s' :
  outside s' = outside s ->
  recorder (this s') = recorder (this s)
  /\ cfg (this s') = cfg (this s)
  /\ poller (this s') = poller (this s)
  /\ retryTimer (this s') = retryTimer (this s)
  /\ timers s' = timers s
  /\ nextTimerId s' = nextTimerId s
  /\ tasks s' = tasks s.
Proof. unfold outside. intros H. injection H. intros. repeat split; assumption. Qed.

Lemma passSucceeded_outside s : outside (passSucceeded s) = outside s.
Proof. op_cases; reflexivity. Qed.

Lemma passSucceeded_stages s : stages (this (passSucceeded s)) = stages (this s).
Proof. op_cases; reflexivity. Qed.

Lemma passSucceeded_valid s :
  configValid (this (passSucceeded s)) = true
  /\ configMessage (this (passSucceeded s)) = String.EmptyString
  /\ reconfiguring (this (passSucceeded s)) = false.
Proof. op_cases; done. Qed.

Lemma stage_loop_outside n i s : outside (fst (stage_loop n i s)) = outside s.
Proof.
  apply (stage_loop_cases (fun i s r => outside (fst r) = outside s)).
  - intros. apply passSucceeded_outside.
  - intros j t stage _ _. unfold fetchStage. by destruct (isEqual _ _).
  - intros j t stage r _ _ _ ->. reflexivity.
Qed.

Lemma stage_set_valid_same st : valid st = false -> stage_set_valid false st = st.
Proof. destruct st. cbn. by intros ->. Qed.

Lemma fetchStage_stages i stage s :
  stages (this s) !! i = Some stage ->
  isEqual (stage_get (name stage) (cfg (this s))) (current stage) && valid stage = false ->
  cfg (this (fetchStage i stage s)) = cfg (this s)
  /\ stages (this (fetchStage i stage s)) !! i = Some (stage_set_valid false stage)
  /\ (forall k, k <> i -> stages (this (fetchStage i stage s)) !! k = stages (this s) !! k)
  /\ lowered_at (cfg (this s)) (stages (this s)) (stages (this (fetchStage i stage s))) i.
Proof.
  intros Hst Hwork. unfold fetchStage, lowered_at.
  destruct (isEqual _ _) eqn:Heq; cbn in *.
  - rewrite Hst, stage_set_valid_same by done. repeat split; auto.
  - rewrite list_lookup_alter_eq, Hst. cbn. repeat split.
    + intros k Hk. by rewrite list_lookup_alter_ne.
    + right. exists stage. by rewrite Heq.
Qed.

(** The stage table after the loop has run from index [i] to its next
    [await] or its end. *)
Lemma stage_loop_table n i s :
  (forall k, k < i ->
     stages (this (fst (stage_loop n i s))) !! k = stages (this s) !! k)
  /\ (forall k, lowered_at (cfg (this s)) (stages (this s))
                  (stages (this (fst (stage_loop n i s)))) k)
  /\ loop_result i s (stage_loop n i s).
Proof.
  apply (stage_loop_cases (fun i s r =>
    (forall k, k < i -> stages (this (fst r)) !! k = stages (this s) !! k)
    /\ (forall k, lowered_at (cfg (this s)) (stages (this s)) (stages (this (fst r))) k)
    /\ loop_result i s r)); unfold loop_result.
  - intros j t. cbn [fst snd]. rewrite passSucceeded_stages.
    split; [done|]. split; [by left|]. apply passSucceeded_valid.
  - intros j t stage Hst Hwork. cbn [fst snd].
    destruct (fetchStage_stages j stage t Hst Hwork) as (Hc & Hj & Hne & Hlow).
    change (stages (this (emit ?e ?x))) with (stages (this x)).
    split; [intros k Hk; apply Hne; lia|].
    split.
    + intros k. destruct (decide (k = j)) as [->|Hk]; [done|]. left. by apply Hne.
    + split; [done|]. split; [intros k Hk; apply Hne; lia|]. by exists stage.
  - intros j t stage [t' p] Hst Heq Hv. cbn [fst snd].
    change (stages (this (emit ?e ?x))) with (stages (this x)).
    change (cfg (this (emit ?e ?x))) with (cfg (this x)).
    intros (Hlt & Hlow & Hp). split; [intros k Hk; apply Hlt; lia|].
    split; [done|].
    destruct p as [j' nm c| |]; [|done|done].
    destruct Hp as (Hle & Hgt & Hex). split; [lia|done].
Qed.

Lemma passSucceeded_appended s :
  exists evs, appended s (passSucceeded s) evs
              /\ Forall (fun ev => isRecStatus ev || isMicStatus ev = true) evs.
Proof.
  unfold passSucceeded, setConfigValid.
  set (t := modify _ (modify _ (modify _ s))).
  pose proof (refreshStatus_appended t) as H.
  eexists. split; [exact H|].
  constructor; [done|]. destruct (_ || _); repeat constructor.
Qed.

Lemma stage_loop_trace n i s :
  exists evs, appended s (fst (stage_loop n i s)) evs
              /\ Forall (loop_event_ok i (snd (stage_loop n i s))) evs.
Proof.
  cut (exists evs, appended s (fst (stage_loop n i s)) evs
              /\ Forall (loop_event_ok i (snd (stage_loop n i s))) evs
              /\ match snd (stage_loop n i s) with
                 | AwaitValidate j _ _ => i <= j
                 | _ => True
                 end).
  { intros (evs & H1 & H2 & _). eauto. }
  apply (stage_loop_cases (fun i s r =>
    exists evs, appended s (fst r) evs /\ Forall (loop_event_ok i (snd r)) evs
                /\ match snd r with
                   | AwaitValidate j _ _ => i <= j
                   | _ => True
                   end)).
  - intros j t. destruct (passSucceeded_appended t) as (evs & Happ & Hall).
    exists evs. split; [done|]. split; [|done]. eapply Forall_impl; [exact Hall|].
    intros [] Hev; cbn in *; done.
  - intros j t stage _ _. eexists. split; [|split; [|cbn; lia]].
    + unfold appended, fetchStage. destruct (isEqual _ _); cbn; by rewrite <- app_assoc.
    + repeat constructor.
  - intros j t stage [t' p] _ _ _ (evs & Happ & Hall & Hle).
    exists (StageGet j (name stage) :: evs). cbn [fst snd] in *. split; [|split].
    + unfold appended in *. cbn in *. by rewrite Happ, <- app_assoc.
    + constructor.
      * cbn. split; [lia|]. destruct p as [j' nm c| |]; try done. lia.
      * eapply Forall_impl; [exact Hall|]. intros [] Hev; cbn in *; try done.
        destruct Hev. split; [lia|done].
    + destruct p; try done. lia.
Qed.

(** With nothing to do the loop runs through and leaves the table alone. *)
Lemma stage_loop_settled n i s :
  allSettled (drop i (stages (this s))) (cfg (this s)) = true ->
  snd (stage_loop n i s) = Returned
  /\ stages (this (fst (stage_loop n i s))) = stages (this s).
Proof.
  apply (stage_loop_cases (fun i s r =>
    allSettled (drop i (stages (this s))) (cfg (this s)) = true ->
    snd r = Returned /\ stages (this (fst r)) = stages (this s))).
  - intros j t _. cbn [fst snd]. by rewrite passSucceeded_stages.
  - intros j t stage Hst Hwork Hall. exfalso.
    rewrite (drop_S _ _ _ Hst) in Hall. cbn in Hall.
    apply andb_true_iff in Hall as [Hall _].
    rewrite andb_comm in Hall. congruence.
  - intros j t stage [t' p] Hst Heq Hv IH Hall.
    rewrite (drop_S _ _ _ Hst) in Hall. cbn in Hall.
    apply andb_true_iff in Hall as [_ Hall]. by apply IH.
Qed.

Lemma filter_none {A} (P : A -> bool) (l : list A) :
  Forall (fun x => P x = false) l -> List.filter P l = [].
Proof. induction 1 as [|x l Hx _ IH]; cbn; [done|]. by rewrite Hx. Qed.

Lemma beginPass_appended s :
  appended s (beginPass s)
    (Console "[Manager] Internal manage"
     :: SendRecStatus RecStatus.Reconfiguring None
     :: match retryTimer (this s) with
        | Some t => [ClearTimeout t]
        | None => []
        end).
Proof.
  unfold appended, beginPass, refreshStatus, clearTimeout, drop_timer. cbn.
  destruct (retryTimer (this s)); cbn; by rewrite <- ?app_assoc.
Qed.

Lemma beginPass_this s :
  stages (this (beginPass s)) = stages (this s)
  /\ cfg (this (beginPass s)) = cfg (this s)
  /\ recorder (this (beginPass s)) = recorder (this s)
  /\ poller (this (beginPass s)) = poller (this s)
  /\ retryTimer (this (beginPass s)) = retryTimer (this s)
  /\ nextTimerId (beginPass s) = nextTimerId s
  /\ tasks (beginPass s) = tasks s.
Proof.
  unfold beginPass, refreshStatus, clearTimeout, drop_timer. cbn.
  destruct (retryTimer (this s)) eqn:E; cbn; by rewrite ?E.
Qed.

(** ** What the ends of a pass and the [configure] closures change *)

Lemma validateFailed_effect e s :
  stages (this (validateFailed e s)) = stages (this s)
  /\ recorder (this (validateFailed e s)) = recorder (this s)
  /\ configValid (this (validateFailed e s)) = false
  /\ configMessage (this (validateFailed e s)) = String_ e
  /\ reconfiguring (this (validateFailed e s)) = false
  /\ appended s (validateFailed e s)
       (SendRecStatus RecStatus.InvalidConfig (Some (String_ e))
        :: match instanceofRetryable e with
           | Some time => [SetTimeout (nextTimerId s) time]
           | None => []
           end)
  /\ timers (validateFailed e s)
     = timers s ++ match instanceofRetryable e with
                   | Some time => [(nextTimerId s, time)]
                   | None => []
                   end
  /\ retryTimer (this (validateFailed e s))
     = match instanceofRetryable e with
       | Some _ => Some (nextTimerId s)
       | None => retryTimer (this s)
       end.
Proof.
  unfold validateFailed, setConfigInvalid, refreshStatus, refreshRecStatus, setTimeout,
    appended.
  cbn. destruct (instanceofRetryable e); cbn; rewrite ?app_nil_r, <- ?app_assoc; done.
Qed.

Lemma stage_configure_effect nm c s :
  stages (this (stage_configure nm c s)) = stages (this s)
  /\ cfg (this (stage_configure nm c s)) = cfg (this s)
  /\ exists evs, appended s (stage_configure nm c s) evs
                 /\ Forall (fun ev => isStageEvent ev = false) evs.
Proof.
  split; [op_cases; reflexivity|]. split; [op_cases; reflexivity|].
  exists (emitted s (stage_configure nm c s)). unfold appended, emitted.
  op_cases; cbn; rewrite <- ?app_assoc, ?drop_app_length, ?drop_all, ?app_nil_r;
    (split; [reflexivity|repeat constructor]).
Qed.

(** ** Claim C8: a pass with nothing to do *)

Lemma settledBelow_all i s :
  length (stages (this s)) <= i -> settledBelow i s ->
  allSettled (stages (this s)) (cfg (this s)) = true.
Proof.
  intros Hlen Hset. unfold allSettled. apply forallb_forall. intros st Hin.
  apply list_elem_of_In, list_elem_of_lookup in Hin as [k Hk].
  pose proof (lookup_lt_Some _ _ _ Hk).
  destruct (Hset k st) as [-> ->]; [lia|done|done].
Qed.

Lemma settledBelow_same i s s' :
  stages (this s') = stages (this s) -> cfg (this s') = cfg (this s) ->
  settledBelow i s -> settledBelow i s'.
Proof. intros Hs Hc H k st Hk. rewrite Hs, Hc. by apply H. Qed.

Lemma passSucceeded_settled i s :
  length (stages (this s)) <= i -> settledBelow i s ->
  settle_inv (passSucceeded s, Returned).
Proof.
  intros Hlen Hset _. cbn [fst].
  destruct (outside_eq _ _ (passSucceeded_outside s)) as (_ & Hc & _).
  rewrite passSucceeded_stages, Hc. by eapply settledBelow_all.
Qed.

(** The loop, given the iterations it needs to reach the end of the table. *)
Lemma settle_inv_loop n :
  forall i s,
    length (stages (this s)) <= n + i -> settledBelow i s ->
    settle_inv (stage_loop n i s).
Proof.
  induction n as [|n IH]; intros i s Hlen Hset; cbn [stage_loop].
  { by apply (passSucceeded_settled i). }
  destruct (stages (this s) !! i) as [stage|] eqn:Hst.
  2:{ apply lookup_ge_None in Hst. by apply (passSucceeded_settled i). }
  cbn.
  destruct (isEqual _ _) eqn:Heq; cbn.
  - destruct (valid stage) eqn:Hv; cbn.
    + apply IH; [cbn; lia|]. intros k st Hk Hlk. cbn in Hlk |- *.
      destruct (decide (k = i)) as [->|Hne]; [by simplify_eq|].
      apply (Hset k st); [lia|done].
    + unfold settle_inv. cbn. split; [done|]. split; [done|].
      intros st Hst'. by simplify_eq.
  - unfold settle_inv. cbn. split; [|split; [done|]].
    + intros k st Hk Hlk. cbn in Hlk |- *.
      rewrite list_lookup_alter_ne in Hlk by lia. by apply (Hset k st).
    + intros st. rewrite list_lookup_alter_eq, Hst. cbn. intros. by simplify_eq.
Qed.

Lemma settle_inv_begin s0 : settle_inv (internalManage s0).
Proof.
  unfold internalManage. cbn zeta. apply settle_inv_loop; [lia|].
  intros k st Hk. lia.
Qed.

Lemma settle_inv_resume s p env :
  settle_inv (s, p) -> settle_inv (resumePass p env s).
Proof.
  unfold settle_inv at 1. cbn [fst snd].
  destruct p as [i nm c|i nm c|]; cbn [resumePass].
  - intros (Hset & Hc & Hname).
    destruct (stage_validate nm env c) as [e|].
    + destruct (validateFailed_effect e s) as (_ & _ & Hv & _).
      unfold settle_inv. cbn [fst snd]. congruence.
    + set (a := emit (StageConfigure i nm c) (emit (ConsoleStage nm (loggable c)) s)).
      destruct (stage_configure_effect nm c a) as (Hst & Hcfg & _).
      unfold settle_inv. cbn [fst snd]. rewrite Hst, Hcfg.
      split; [|done]. by apply (settledBelow_same i s).
  - intros (Hset & Hc & Hname).
    apply settle_inv_loop.
    + cbn. rewrite length_alter. lia.
    + intros k st Hk Hlk. cbn in Hlk |- *.
      destruct (decide (k = i)) as [->|Hne].
      * rewrite list_lookup_alter_eq in Hlk.
        destruct (stages (this s) !! i) as [st1|] eqn:Hst1; [|done].
        cbn in Hlk. simplify_eq. cbn. split; [done|].
        rewrite (Hname st1 eq_refl). unfold isEqual. by apply bool_decide_eq_true.
      * rewrite list_lookup_alter_ne in Hlk by done. apply (Hset k st); [lia|done].
  - done.
Qed.

Lemma settle_inv_run envs :
  forall sp, settle_inv sp -> settle_inv (runPass envs sp).
Proof.
  induction envs as [|env envs IH]; intros [s p] Hinv; [done|].
  destruct p as [i nm c|i nm c|]; [| |done].
  - apply (IH (resumePass (AwaitValidate i nm c) env s)). by apply settle_inv_resume.
  - apply (IH (resumePass (AwaitConfigure i nm c) env s)). by apply settle_inv_resume.
Qed.

(** A pass that has returned with a valid configuration leaves every stage
    settled. *)
Lemma successful_pass_settled s0 envs s :
  runPass envs (internalManage s0) = (s, Returned) ->
  configValid (this s) = true ->
  allSettled (stages (this s)) (cfg (this s)) = true.
Proof.
  intros Hrun Hv.
  pose proof (settle_inv_run envs _ (settle_inv_begin s0)) as Hinv.
  rewrite Hrun in Hinv. by apply Hinv.
Qed.

(** C8.  If every stage is valid and the snapshot fetched for it equals its
    current one, a pass returns without awaiting anything, calls no
    [validate] and no [configure], leaves the stage table as it is, and ends
    with [configValid] true and an empty message.  The premise then holds
    again, so a further pass is again such a pass.  And the premise holds in
    every state in which a pass has returned with a valid configuration: a
    pass run after a successful one, the settings unchanged, is such a
    pass. *)
Theorem C8_settled_pass_skips_every_stage :
  forall s : System,
    (allSettled (stages (this s)) (cfg (this s)) = true ->
     snd (internalManage s) = Returned
     /\ List.filter isValidateOrConfigure (emitted s (fst (internalManage s))) = []
     /\ stages (this (fst (internalManage s))) = stages (this s)
     /\ configValid (this (fst (internalManage s))) = true
     /\ configMessage (this (fst (internalManage s))) = String.EmptyString
     /\ allSettled (stages (this (fst (internalManage s))))
          (cfg (this (fst (internalManage s)))) = true)
    /\ (forall (s0 : System) (envs : list Env),
          runPass envs (internalManage s0) = (s, Returned) ->
          configValid (this s) = true ->
          allSettled (stages (this s)) (cfg (this s)) = true).
Proof.
  intros s. split; [|intros s0 envs; apply successful_pass_settled].
  intros Hall. unfold internalManage. cbn zeta.
  destruct (beginPass_this s) as (Hst & Hc & _).
  set (b := beginPass s) in *.
  set (r := stage_loop (length (stages (this b))) 0 b).
  assert (Hall' : allSettled (drop 0 (stages (this b))) (cfg (this b)) = true).
  { by rewrite drop_0, Hst, Hc. }
  destruct (stage_loop_settled (length (stages (this b))) 0 b Hall') as [Hret Hsame].
  fold r in Hret, Hsame.
  destruct (stage_loop_table (length (stages (this b))) 0 b) as (_ & _ & Hres).
  fold r in Hres. unfold loop_result in Hres. rewrite Hret in Hres.
  destruct Hres as (Hv & Hm & _).
  destruct (stage_loop_trace (length (stages (this b))) 0 b) as (evs & Happ & Hev).
  fold r in Happ, Hev. rewrite Hret in Hev.
  destruct (outside_eq _ _ (stage_loop_outside (length (stages (this b))) 0 b))
    as (_ & Hcfg0 & _).
  fold r in Hcfg0.
  assert (Hcfg : cfg (this (fst r)) = cfg (this s)) by congruence.
  split; [done|]. split; [|by rewrite Hsame, Hst, Hcfg].
  rewrite (appended_emitted _ _ _ (appended_trans _ _ _ _ _ (beginPass_appended s) Happ)).
  apply filter_none. apply Forall_app. split.
  - destruct (retryTimer (this s)); repeat constructor.
  - eapply Forall_impl; [exact Hev|]. intros [] Hok; cbn in *; done.
Qed.

(** After a first call of [manage] has run to its end in [Sample.configured],
    every stage is valid with the current settings. *)
Lemma C8_settled_pass_skips_every_stage_witness :
  snd (internalManage Sample.configured) = Returned.
Proof.
  refine (proj1 (proj1 (C8_settled_pass_skips_every_stage Sample.configured) _)).
  vm_compute. reflexivity.
Defined.

(** ** Claim C5: when a retry is scheduled *)

Lemma drop_timer_not_pending id s : timer_pending id (drop_timer id s) = false.
Proof.
  unfold timer_pending, drop_timer. cbn.
  induction (timers s) as [|[j d] l IH]; [done|].
  rewrite filter_cons. cbn. case_decide as Hj; cbn; [|done].
  rewrite IH. by apply Nat.eqb_neq in Hj as ->.
Qed.

Lemma quiet_step_configValid l s s' :
  drivesPass l = false -> step l s = Some s' ->
  configValid (this s') = configValid (this s) /\ timers s' = timers s.
Proof.
  intros Hl Hstep. destruct l; try discriminate; cbn in Hstep.
  - by simplify_eq.
  - simplify_eq. op_cases; done.
  - destruct (logHandler f (this s)); [|done]. simplify_eq.
    destruct f; op_cases; done.
  - simplify_eq. op_cases; done.
  - simplify_eq. op_cases; done.
  - simplify_eq. op_cases; done.
  - destruct (stopping s); [done|]. simplify_eq. op_cases; done.
  - unfold rejectConfigure in Hstep.
    destruct (passOf <$> tasks s !! tid) as [[]|]; by simplify_eq.
Qed.

(** C5.  The validation awaited by a pass throws [e].  The pass returns
    with [configValid] false.  If [e] is a RetryableConfigError, exactly one
    timer is set, with the delay the error carries; when it fires it calls
    [manage], and it is then no longer pending.  If [e] is anything else, no
    timer is set.  For the cloud check: when the race is lost to the 10 s
    bomb or the check rejects with something that is not an AuthError, the
    validator throws a RetryableConfigError with a delay of 10000 ms; when
    the check rejects with an AuthError that error is rethrown, and it is
    not retryable; so when the local checks of the base stage pass and cloud
    storage is on, a pass that gets this answer sets the timer with 10000 ms
    in the first two cases and sets none in the third.  No event other than
    a call of [manage], a timer, a crash or a promise awaited by a call of
    [manage] changes [configValid] or the timers. *)
Theorem C5_retry_timer_only_for_retryable :
  forall (s : System) (i : nat) (nm : StageName) (c : JsObject) (env : Env) (e : JsError),
    stage_validate nm env c = Some e ->
    let s' := fst (resumePass (AwaitValidate i nm c) env s) in
    snd (resumePass (AwaitValidate i nm c) env s) = Returned
    /\ configValid (this s') = false
    /\ (forall m time,
          e = RetryableConfigError m time ->
          List.filter isSetTimeout (emitted s s') = [SetTimeout (nextTimerId s) time]
          /\ timers s' = timers s ++ [(nextTimerId s, time)]
          /\ retryTimer (this s') = Some (nextTimerId s)
          /\ step (TimerFires (nextTimerId s)) s'
             = Some (manage (drop_timer (nextTimerId s) s'))
          /\ timer_pending (nextTimerId s) (drop_timer (nextTimerId s) s') = false)
    /\ ((forall m time, e <> RetryableConfigError m time) ->
        List.filter isSetTimeout (emitted s s') = []
        /\ timers s' = timers s
        /\ retryTimer (this s') = retryTimer (this s))
    /\ (forall env' config,
          truthy (field config "cloudAccountName") = true ->
          truthy (field config "cloudAccountPassword") = true ->
          truthy (field config "cloudGuildName") = true ->
          match checkAuthRace env' with
          | BombWon =>
              validateCloudBaseConfig env' config
              = Some (RetryableConfigError
                        "Failed to authenticate with the cloud store." 10000)
          | CheckRejected err =>
              validateCloudBaseConfig env' config
              = Some (if instanceofAuthError err then err
                      else RetryableConfigError
                             "Failed to authenticate with the cloud store." 10000)
              /\ (instanceofAuthError err = true ->
                  forall m time, err <> RetryableConfigError m time)
          | CheckResolved _ _ => True
          end
          /\ (validateBaseConfig env' config = None ->
              truthy (field config "cloudStorage") = true ->
              stage_validate obsBase env' config = validateCloudBaseConfig env' config
              /\ forall (t : System) (j : nat),
                   let t' := fst (resumePass (AwaitValidate j obsBase config) env' t) in
                   match checkAuthRace env' with
                   | BombWon => timers t' = timers t ++ [(nextTimerId t, 10000%Z)]
                   | CheckRejected err =>
                       timers t'
                       = timers t ++ (if instanceofAuthError err then []
                                      else [(nextTimerId t, 10000%Z)])
                   | CheckResolved _ _ => True
                   end))
    /\ (forall l t t',
          drivesPass l = false -> step l t = Some t' ->
          configValid (this t') = configValid (this t) /\ timers t' = timers t).
Proof.
  intros s i nm c env e Hthrow. cbn zeta. cbn [resumePass]. rewrite Hthrow. cbn [fst snd].
  destruct (validateFailed_effect e s) as (_ & _ & Hv & _ & _ & Happ & Htimers & Hretry).
  split; [done|]. split; [done|].
  rewrite (appended_emitted _ _ _ Happ), Htimers, Hretry.
  split; [|split; [|split]].
  - intros m time ->. cbn [instanceofRetryable] in *. repeat split.
    + cbn [step].
      assert (Hpend : timer_pending (nextTimerId s)
                        (validateFailed (RetryableConfigError m time) s) = true).
      { unfold timer_pending. rewrite Htimers, existsb_app. cbn.
        by rewrite Nat.eqb_refl, orb_true_r. }
      by rewrite Hpend.
    + apply drop_timer_not_pending.
  - intros Hne. destruct e as [m|m|m time|r|m]; cbn; rewrite ?app_nil_r; try done.
    by destruct (Hne m time).
  - intros env' config Hn Hp Hg.
    assert (Hcloud : validateCloudBaseConfig env' config
                     = match checkAuthRace env' with
                       | CheckResolved r w =>
                           if negb r
                           then Some (Error_ "User is not authorized to access the guild.")
                           else if negb w && truthy (field config "cloudUpload")
                                then Some (Error_ "User is not authorized to upload to the guild.")
                                else None
                       | CheckRejected err =>
                           Some (if instanceofAuthError err then err
                                 else RetryableConfigError
                                        "Failed to authenticate with the cloud store." 10000)
                       | BombWon =>
                           Some (RetryableConfigError
                                   "Failed to authenticate with the cloud store." 10000)
                       end).
    { unfold validateCloudBaseConfig, raceWinner. rewrite Hn, Hp, Hg. cbn.
      destruct (checkAuthRace env') as [r w|err|]; [done| |done].
      by destruct (instanceofAuthError err). }
    split.
    + rewrite Hcloud. destruct (checkAuthRace env') as [r w|err|]; [done| |done].
      split; [done|]. intros Ha m time ->. discriminate.
    + intros Hbase Hcs.
      assert (Hsv : stage_validate obsBase env' config = validateCloudBaseConfig env' config).
      { cbn. unfold validateBaseCfg. by rewrite Hbase, Hcs. }
      split; [exact Hsv|]. intros t j. cbn zeta. cbn [resumePass]. rewrite Hsv, Hcloud.
      destruct (checkAuthRace env') as [r w|err|]; [done| |].
      * cbn [fst].
        destruct (validateFailed_effect
                    (if instanceofAuthError err then err
                     else RetryableConfigError
                            "Failed to authenticate with the cloud store." 10000) t)
          as (_ & _ & _ & _ & _ & _ & Ht & _).
        rewrite Ht. by destruct err.
      * cbn [fst].
        destruct (validateFailed_effect
                    (RetryableConfigError
                       "Failed to authenticate with the cloud store." 10000) t)
          as (_ & _ & _ & _ & _ & _ & Ht & _).
        by rewrite Ht.
  - apply quiet_step_configValid.
Qed.

(** The cloud check of [Sample.startedCloud] runs into the deadline: the
    retry timer is set, with the delay of the error. *)
Lemma C5_retry_timer_only_for_retryable_witness :
  timers (fst (resumePass (AwaitValidate 0 obsBase Sample.cloudBase) Sample.env_timeout
                 Sample.startedCloud))
  = timers Sample.startedCloud ++ [(nextTimerId Sample.startedCloud, 10000%Z)].
Proof.
  refine (proj1 (proj2
    (proj1 (proj2 (proj2
       (C5_retry_timer_only_for_retryable Sample.startedCloud 0 obsBase
          Sample.cloudBase Sample.env_timeout Sample.authFailed _)))
       "Failed to authenticate with the cloud store." 10000%Z _))).
  - vm_compute. reflexivity.
  - reflexivity.
Defined.

(** ** Claim C10: the audio stage while the game is not running *)

Lemma loop_event_not_recorder i p evs :
  Forall (loop_event_ok i p) evs -> List.filter isRecorderCall evs = [].
Proof.
  intros H. apply filter_none. eapply Forall_impl; [exact H|].
  intros [] Hok; cbn in *; done.
Qed.

Lemma configureObsAudio_idle c s :
  isWowRunning (poller (this s)) = false -> configureObsAudio c s = s.
Proof. unfold configureObsAudio. by intros ->. Qed.

(** C10.  The game is not running ([isWowRunning] false) when a pass gets
    the answer of the audio validator (which never throws).  Applying the
    stage then changes nothing: [configureObsAudio] returns the state it
    got, no call is made on the recorder and its audio sources stay as they
    are.  When the pass goes on, stage [i] is valid and its current snapshot
    is the new one, [c], whatever it held before.  With the game running
    [configureObsAudio] attaches the snapshot; and the next start of the
    game attaches the snapshot that the settings hold at that moment. *)
Theorem C10_audio_apply_waits_for_game :
  forall (s : System) (i : nat) (c : JsObject) (env1 env2 : Env),
    isWowRunning (poller (this s)) = false ->
    let a := resumePass (AwaitValidate i obsAudio c) env1 s in
    let b := resumePass (snd a) env2 (fst a) in
    snd a = AwaitConfigure i obsAudio c
    /\ configureObsAudio c s = s
    /\ recorder (this (fst a)) = recorder (this s)
    /\ recorder (this (fst b)) = recorder (this s)
    /\ List.filter isRecorderCall (emitted s (fst b)) = []
    /\ (forall st0,
          stages (this s) !! i = Some st0 ->
          exists st,
            stages (this (fst b)) !! i = Some st
            /\ valid st = true /\ current st = c /\ name st = name st0)
    /\ (forall t, isWowRunning (poller (this t)) = true ->
                  audioSources (recorder (this (configureObsAudio c t))) = Some c
                  /\ List.filter isRecorderCall (emitted t (configureObsAudio c t))
                     = [OnRecorder (R_configureAudioSources c)])
    /\ (forall t, exists t',
          step WowProcessStart t = Some t'
          /\ audioSources (recorder (this t')) = Some (getObsAudioConfig (cfg (this t)))
          /\ List.In (OnRecorder (R_configureAudioSources (getObsAudioConfig (cfg (this t)))))
                (emitted t t')).
Proof.
  intros s i c env1 env2 Hwow. cbn zeta.
  cbn [resumePass stage_validate stage_configure fst snd].
  set (a := emit (StageConfigure i obsAudio c) (emit (ConsoleStage obsAudio (loggable c)) s)).
  rewrite (configureObsAudio_idle c a Hwow).
  cbn [resumePass fst snd].
  set (a' := modify _ a).
  set (n := length (stages (this a')) - S i).
  destruct (outside_eq _ _ (stage_loop_outside n (S i) a')) as (Hrec & _).
  destruct (stage_loop_table n (S i) a') as (Hlt & _ & _).
  destruct (stage_loop_trace n (S i) a') as (evs & Happ & Hev).
  split; [done|]. split; [by apply configureObsAudio_idle|].
  split; [done|]. split; [exact Hrec|].
  split; [|split; [|split]].
  - assert (Hall : appended s (fst (stage_loop n (S i) a'))
                     ([ConsoleStage obsAudio (loggable c); StageConfigure i obsAudio c] ++ evs)).
    { unfold appended in *. rewrite Happ. cbn. by rewrite <- !app_assoc. }
    rewrite (appended_emitted _ _ _ Hall), List.filter_app. cbn.
    by eapply loop_event_not_recorder.
  - intros st0 Hst0. rewrite Hlt by lia. cbn. rewrite list_lookup_alter_eq, Hst0. cbn.
    eexists. split; [reflexivity|]. by destruct st0.
  - intros t Ht. unfold configureObsAudio, recorder_configureAudioSources, emitted.
    rewrite Ht. cbn. split; [done|]. by rewrite drop_app_length.
  - intros t. eexists. split; [reflexivity|]. split; [reflexivity|].
    unfold emitted, onWowStarted, recorder_configureAudioSources. cbn.
    rewrite <- !app_assoc, drop_app_length. cbn. right. by left.
Qed.

(** The queued pass of [Sample.inQueuedPass] waits on the validation of the
    audio stage, for a new device, while the game is not running: the stage
    ends up valid with the new snapshot as its current one. *)
Lemma C10_audio_apply_waits_for_game_witness :
  exists st,
    stages (this (fst (resumePass
                         (snd (resumePass (AwaitValidate 2 obsAudio Sample.audio2)
                                 Sample.env_ok Sample.inQueuedPass))
                         Sample.env_ok
                         (fst (resumePass (AwaitValidate 2 obsAudio Sample.audio2)
                                 Sample.env_ok Sample.inQueuedPass))))) !! 2 = Some st
    /\ valid st = true /\ current st = Sample.audio2 /\ name st = obsAudio.
Proof.
  refine (proj1 (proj2 (proj2 (proj2 (proj2 (proj2
    (C10_audio_apply_waits_for_game Sample.inQueuedPass 2 Sample.audio2
       Sample.env_ok Sample.env_ok _))))))
    {| name := obsAudio; valid := false; current := Sample.audio |} _).
  - vm_compute. reflexivity.
  - vm_compute. reflexivity.
Defined.

(** ** Claim C3: a validation that throws ends the pass *)

Lemma stagesUpTo_mono i j evs : i <= j -> stagesUpTo i evs -> stagesUpTo j evs.
Proof.
  intros Hij H. eapply Forall_impl; [exact H|].
  intros ev Hev k Hk. specialize (Hev k Hk). lia.
Qed.

Lemma stagesUpTo_none i evs :
  Forall (fun ev => isStageEvent ev = false) evs -> stagesUpTo i evs.
Proof.
  intros H. eapply Forall_impl; [exact H|].
  intros ev Hev k Hk. unfold isStageEvent in Hev. by rewrite Hk in Hev.
Qed.

Lemma loop_events_upTo i j nm c evs :
  Forall (loop_event_ok i (AwaitValidate j nm c)) evs -> stagesUpTo j evs.
Proof.
  intros H. eapply Forall_impl; [exact H|].
  intros [] Hev k Hk; cbn in *; simplify_eq; try done; lia.
Qed.

(** The loop, entered at index [i] in a state [s] of a pass that began in
    [s0] and has so far only dealt with stages below [i]. *)
Lemma pass_inv_loop s0 n i s evs :
  appended s0 s evs ->
  (forall ev, List.In ev evs -> forall k, stageOf ev = Some k -> k < i) ->
  (forall k, i <= k -> stages (this s) !! k = stages (this s0) !! k) ->
  pass_inv s0 (stage_loop n i s).
Proof.
  intros Happ Hbelow Hsame.
  destruct (stage_loop_table n i s) as (_ & _ & Hres).
  destruct (stage_loop_trace n i s) as (evs' & Happ' & Hev').
  unfold pass_inv, loop_result in *.
  destruct (snd (stage_loop n i s)) as [j nm c|j nm c|]; [|done|done].
  destruct Hres as (Hle & Hgt & st & Hst & Hst' & _).
  split; [|split].
  - exists (evs ++ evs'). split; [by eapply appended_trans|].
    apply Forall_app. split.
    + apply Forall_forall. intros ev Hin%list_elem_of_In k Hk.
      specialize (Hbelow ev Hin k Hk). lia.
    + by eapply loop_events_upTo.
  - intros k Hk. rewrite Hgt by done. apply Hsame. lia.
  - exists st. split; [|done]. rewrite <- Hsame by done. done.
Qed.

Lemma pass_inv_begin s0 : pass_inv s0 (internalManage s0).
Proof.
  unfold internalManage. cbn zeta.
  destruct (beginPass_this s0) as (Hst & _).
  eapply pass_inv_loop; [apply beginPass_appended| |by rewrite Hst].
  intros ev Hin k Hk. exfalso.
  destruct (retryTimer (this s0)); cbn in Hin;
    repeat (destruct Hin as [<-|Hin]; [discriminate|]); done.
Qed.

Lemma pass_inv_resume s0 s p env :
  pass_inv s0 (s, p) -> pass_inv s0 (resumePass p env s).
Proof.
  unfold pass_inv at 1. cbn [fst snd].
  destruct p as [i nm c|i nm c|]; cbn [resumePass]; [| |done].
  - intros ((evs & Happ & Hup) & Hgt & _).
    destruct (stage_validate nm env c); [done|].
    set (a := emit (StageConfigure i nm c) (emit (ConsoleStage nm (loggable c)) s)).
    destruct (stage_configure_effect nm c a) as (Hst & _ & evs' & Happ' & Hev').
    unfold pass_inv. cbn [fst snd]. split.
    + exists ((evs ++ [ConsoleStage nm (loggable c); StageConfigure i nm c]) ++ evs').
      split.
      * eapply appended_trans; [|exact Happ'].
        unfold appended in *. cbn. rewrite Happ. by rewrite <- !app_assoc.
      * apply Forall_app. split; [apply Forall_app; split|].
        -- done.
        -- repeat constructor; intros k Hk; cbn in Hk; simplify_eq. done.
        -- by apply stagesUpTo_none.
    + intros k Hk. rewrite Hst. by apply Hgt.
  - intros ((evs & Happ & Hup) & Hgt).
    set (a := modify _ s).
    apply (pass_inv_loop s0 _ (S i) a evs).
    + exact Happ.
    + intros ev Hin k Hk.
      apply list_elem_of_In in Hin.
      pose proof (proj1 (Forall_forall _ _) Hup ev Hin k Hk). lia.
    + intros k Hk. cbn. rewrite list_lookup_alter_ne by lia. apply Hgt. lia.
Qed.

Lemma pass_inv_run s0 envs :
  forall sp, pass_inv s0 sp -> pass_inv s0 (runPass envs sp).
Proof.
  induction envs as [|env envs IH]; intros [s p] Hinv; [done|].
  destruct p as [i nm c|i nm c|]; [| |done].
  - apply (IH (resumePass (AwaitValidate i nm c) env s)). by apply pass_inv_resume.
  - apply (IH (resumePass (AwaitConfigure i nm c) env s)). by apply pass_inv_resume.
Qed.

Lemma recorded_mono evs evs' k nm c :
  recorded evs k nm c -> recorded (evs ++ evs') k nm c.
Proof. intros [H1 H2]. split; apply in_or_app; by left. Qed.

Lemma currents_ok_mono s0 s evs evs' :
  currents_ok s0 s evs -> currents_ok s0 s (evs ++ evs').
Proof.
  intros H k st Hk. destruct (H k st Hk) as [?|?]; [by left|right].
  by apply recorded_mono.
Qed.

Lemma currents_ok_same s0 s s' evs :
  stages (this s') = stages (this s) -> currents_ok s0 s evs -> currents_ok s0 s' evs.
Proof. intros Hs H k st Hk. apply H. by rewrite <- Hs. Qed.

(** The loop records the call of the validator it stops at. *)
Lemma stage_loop_validate_recorded n i s :
  match snd (stage_loop n i s) with
  | AwaitValidate j nm c =>
      exists evs, appended s (fst (stage_loop n i s)) evs
                  /\ List.In (StageValidate j nm c) evs
  | _ => True
  end.
Proof.
  apply (stage_loop_cases (fun i s r =>
    match snd r with
    | AwaitValidate j nm c =>
        exists evs, appended s (fst r) evs /\ List.In (StageValidate j nm c) evs
    | _ => True
    end)).
  - done.
  - intros j t stage _ _. cbn [fst snd]. eexists. split.
    + unfold appended, fetchStage. destruct (isEqual _ _); cbn; by rewrite <- app_assoc.
    + cbn. tauto.
  - intros j t stage [t' p] _ _ _. cbn [fst snd].
    destruct p as [j' nm c| |]; [|done|done].
    intros (evs & Happ & Hin). exists (StageGet j (name stage) :: evs). split.
    + unfold appended in *. cbn in *. by rewrite Happ, <- app_assoc.
    + by right.
Qed.

Lemma cur_inv_loop s0 n i s evs :
  appended s0 s evs -> currents_ok s0 s evs -> cur_inv s0 (stage_loop n i s).
Proof.
  intros Happ Hcur.
  destruct (stage_loop_table n i s) as (_ & Hlow & Hres).
  pose proof (stage_loop_validate_recorded n i s) as Hrec.
  destruct (stage_loop_trace n i s) as (evs' & Happ' & _).
  exists (evs ++ evs'). split; [by eapply appended_trans|]. split.
  - intros k st Hk. destruct (Hlow k) as [Hsame|(st2 & Hk2 & Hk' & _)].
    + rewrite Hsame in Hk. destruct (Hcur k st Hk) as [?|?]; [by left|right].
      by apply recorded_mono.
    + rewrite Hk' in Hk. simplify_eq. cbn.
      destruct (Hcur k st2 Hk2) as [?|?]; [by left|right]. by apply recorded_mono.
  - unfold loop_result in Hres.
    destruct (snd (stage_loop n i s)) as [j nm c|j nm c|]; [|done|done].
    destruct Hres as (_ & _ & st & _ & Hst' & -> & _).
    destruct Hrec as (evs2 & Happ2 & Hin).
    assert (evs2 = evs') as ->.
    { unfold appended in *. rewrite Happ' in Happ2. by apply app_inv_head in Happ2. }
    split; [apply in_or_app; by right|].
    intros st1 Hst1. rewrite Hst' in Hst1. by simplify_eq.
Qed.

Lemma cur_inv_begin s0 : cur_inv s0 (internalManage s0).
Proof.
  unfold internalManage. cbn zeta.
  destruct (beginPass_this s0) as (Hst & _).
  eapply cur_inv_loop; [apply beginPass_appended|].
  intros k st Hk. left. exists st. by rewrite <- Hst.
Qed.

Lemma cur_inv_resume s0 s p env :
  cur_inv s0 (s, p) -> cur_inv s0 (resumePass p env s).
Proof.
  intros (evs & Happ & Hcur & Hp). cbn [fst snd] in *.
  destruct p as [i nm c|i nm c|]; cbn [resumePass].
  - destruct Hp as [Hin Hname].
    destruct (stage_validate nm env c) as [e|].
    + destruct (validateFailed_effect e s) as (Hst & _ & _ & _ & _ & Happ' & _).
      eexists. split; [exact (appended_trans _ _ _ _ _ Happ Happ')|]. split; [|done].
      apply currents_ok_mono. by eapply currents_ok_same.
    + set (a := emit (StageConfigure i nm c) (emit (ConsoleStage nm (loggable c)) s)).
      destruct (stage_configure_effect nm c a) as (Hst & _ & evs' & Happ' & _).
      exists ((evs ++ [ConsoleStage nm (loggable c); StageConfigure i nm c]) ++ evs').
      cbn [fst snd]. split; [|split; [|split]].
      * eapply appended_trans; [|exact Happ'].
        unfold appended in *. cbn. rewrite Happ. by rewrite <- !app_assoc.
      * apply currents_ok_mono, currents_ok_mono. by eapply currents_ok_same.
      * split; apply in_or_app; left; apply in_or_app; [by left|right; cbn; tauto].
      * intros st. rewrite Hst. apply Hname.
  - destruct Hp as [Hrec Hname].
    set (a := modify _ s).
    apply (cur_inv_loop s0 _ (S i) a evs); [exact Happ|].
    intros k st Hk. cbn in Hk.
    destruct (decide (k = i)) as [->|Hki].
    + rewrite list_lookup_alter_eq in Hk.
      destruct (stages (this s) !! i) as [st1|] eqn:Hst1; [|done].
      cbn in Hk. simplify_eq. cbn. right. by rewrite (Hname st1).
    + rewrite list_lookup_alter_ne in Hk by done. by apply Hcur.
  - exists evs. by cbn.
Qed.

Lemma cur_inv_run s0 envs :
  forall sp, cur_inv s0 sp -> cur_inv s0 (runPass envs sp).
Proof.
  induction envs as [|env envs IH]; intros [s p] Hinv; [done|].
  destruct p as [i nm c|i nm c|]; [| |done].
  - apply (IH (resumePass (AwaitValidate i nm c) env s)). by apply cur_inv_resume.
  - apply (IH (resumePass (AwaitConfigure i nm c) env s)). by apply cur_inv_resume.
Qed.

(** ** Claim C4: recovery from a crash of the recorder *)

Lemma resetAfterCrash_effect s :
  active (this (resetAfterCrash s)) = false
  /\ queued (this (resetAfterCrash s)) = false
  /\ stages (this (resetAfterCrash s)) = stage_set_valid false <$> stages (this s)
  /\ cfg (this (resetAfterCrash s)) = cfg (this s)
  /\ tasks (resetAfterCrash s) = tasks s
  /\ exists evs, appended s (resetAfterCrash s) evs
                 /\ Forall (fun ev => isStageEvent ev = false /\ isPassStart ev = false) evs.
Proof.
  do 5 (split; [op_cases; reflexivity|]).
  exists (emitted s (resetAfterCrash s)). unfold appended, emitted.
  op_cases; cbn; rewrite <- ?app_assoc, ?drop_app_length;
    (split; [reflexivity|repeat constructor]).
Qed.

Lemma runPass_Returned envs s : runPass envs (s, Returned) = (s, Returned).
Proof. by destruct envs. Qed.

Lemma list_alter_same {A} (f : A -> A) (l : list A) i x :
  l !! i = Some x -> f x = x -> alter f i l = l.
Proof.
  intros Hl Hf. apply list_eq. intros j.
  destruct (decide (i = j)) as [->|Hij].
  - by rewrite list_lookup_alter_eq, Hl; cbn; rewrite Hf.
  - by rewrite list_lookup_alter_ne.
Qed.

Lemma fetchStage_invalid i st s :
  stages (this s) !! i = Some st -> valid st = false ->
  stages (this (fetchStage i st s)) = stages (this s)
  /\ cfg (this (fetchStage i st s)) = cfg (this s)
  /\ trace (fetchStage i st s) = trace s ++ [StageGet i (name st)].
Proof.
  intros Hst Hv. unfold fetchStage. destruct (isEqual _ _); cbn; [done|].
  split; [|done]. eapply list_alter_same; [exact Hst|]. by apply stage_set_valid_same.
Qed.

Lemma stage_loop_stop_invalid n i s st :
  stages (this s) !! i = Some st -> valid st = false ->
  stage_loop (S n) i s
  = (emit (StageValidate i (name st) (stage_get (name st) (cfg (this s))))
       (fetchStage i st s),
     AwaitValidate i (name st) (stage_get (name st) (cfg (this s)))).
Proof.
  intros Hst Hv. cbn [stage_loop]. rewrite Hst. unfold fetchStage. cbn.
  destruct (isEqual _ _); cbn; [|done]. by rewrite Hv.
Qed.

(** A pass that waits on the validation of stage [length pre], with no
    later stage valid and every validator accepting, validates and applies
    that stage and every later one, in order, and returns. *)
Lemma full_pass rest :
  forall pre st s envs,
    stages (this s) = pre ++ st :: rest ->
    Forall (fun x => valid x = false) rest ->
    Forall (fun env => allAccept env (st :: rest) (cfg (this s)) = true) envs ->
    2 * S (length rest) <= length envs ->
    let r := runPass envs
               (s, AwaitValidate (length pre) (name st) (stage_get (name st) (cfg (this s)))) in
    snd r = Returned
    /\ (exists evs,
          appended s (fst r) evs
          /\ List.filter isStageEvent evs
             = StageConfigure (length pre) (name st) (stage_get (name st) (cfg (this s)))
               :: fullPassCalls (S (length pre)) rest (cfg (this s)))
    /\ stages (this (fst r)) = pre ++ (applied (cfg (this s)) <$> (st :: rest))
    /\ configValid (this (fst r)) = true.
Proof.
  induction rest as [|st' rest IH]; intros pre st s envs Hst Hinv Hacc Hlen;
    (destruct envs as [|e1 [|e2 envs]]; [cbn in Hlen; lia|cbn in Hlen; lia|]);
    cbn zeta; cbn [runPass snd fst resumePass].
  all: pose proof (Forall_inv Hacc) as Ha1; cbn in Ha1;
    apply andb_true_iff in Ha1 as [Ha1 _]; apply bool_decide_eq_true in Ha1;
    rewrite Ha1; cbn [runPass snd fst resumePass].
  all: set (c := stage_get (name st) (cfg (this s))) in *;
    set (a := emit (StageConfigure (length pre) (name st) c)
                (emit (ConsoleStage (name st) (loggable c)) s));
    destruct (stage_configure_effect (name st) c a) as (Hst1 & Hc1 & evs1 & Happ1 & Hev1);
    set (a1 := stage_configure (name st) c a) in *;
    set (a2 := modify _ a1);
    assert (Hst2 : stages (this a2) = pre ++ applied (cfg (this s)) st :: _)
      by (cbn; rewrite Hst1; cbn; rewrite Hst; by rewrite alter_app_r_alt, Nat.sub_diag by lia);
    assert (Hc2 : cfg (this a2) = cfg (this s)) by (cbn; by rewrite Hc1);
    assert (Happ2 : appended s a2
                      ([ConsoleStage (name st) (loggable c);
                        StageConfigure (length pre) (name st) c] ++ evs1))
      by (unfold appended in *; cbn; rewrite Happ1; cbn; by rewrite <- !app_assoc).
  - (* the last stage *)
    assert (Hn : length (stages (this a2)) - S (length pre) = 0)
      by (rewrite Hst2, length_app; cbn; lia).
    rewrite Hn. cbn [stage_loop]. rewrite runPass_Returned. cbn [fst snd].
    split; [done|].
    destruct (passSucceeded_appended a2) as (evs2 & Happ3 & Hev2).
    split; [|split].
    + eexists. split; [exact (appended_trans _ _ _ _ _ Happ2 Happ3)|].
      rewrite !List.filter_app. cbn.
      rewrite (filter_none _ _ Hev1), filter_none; [done|].
      eapply Forall_impl; [exact Hev2|]. intros [] Hx; cbn in *; done.
    + by rewrite passSucceeded_stages, Hst2.
    + apply passSucceeded_valid.
  - (* a further stage follows *)
    assert (Hn : length (stages (this a2)) - S (length pre) = S (length rest))
      by (rewrite Hst2, length_app; cbn; lia).
    assert (Hlk : stages (this a2) !! S (length pre) = Some st').
    { rewrite Hst2. rewrite lookup_app_r by lia.
      by replace (S (length pre) - length pre) with 1 by lia. }
    pose proof (Forall_inv Hinv) as Hv'. cbn in Hv'.
    rewrite Hn, (stage_loop_stop_invalid _ _ _ _ Hlk Hv').
    destruct (fetchStage_invalid _ _ _ Hlk Hv') as (Hst3 & Hc3 & Htr3).
    set (a3 := emit _ (fetchStage _ st' a2)).
    assert (Hst4 : stages (this a3) = (pre ++ [applied (cfg (this s)) st]) ++ st' :: rest).
    { unfold a3. cbn. rewrite Hst3, Hst2. by rewrite <- app_assoc. }
    assert (Hc4 : cfg (this a3) = cfg (this s)) by (unfold a3; cbn; congruence).
    assert (Hacc' : Forall (fun env => allAccept env (st' :: rest) (cfg (this a3)) = true) envs).
    { rewrite Hc4. apply Forall_inv_tail, Forall_inv_tail in Hacc.
      eapply Forall_impl; [exact Hacc|]. intros env Hx. cbn in Hx.
      by apply andb_true_iff in Hx as [_ Hx]. }
    assert (Hlen' : 2 * S (length rest) <= length envs) by (cbn in *; lia).
    specialize (IH (pre ++ [applied (cfg (this s)) st]) st' a3 envs Hst4
                  (Forall_inv_tail Hinv) Hacc' Hlen').
    cbn zeta in IH. rewrite length_app in IH. cbn [length] in IH.
    replace (length pre + 1) with (S (length pre)) in IH by lia.
    rewrite Hc2. rewrite Hc4 in IH.
    destruct IH as (Hret & (evs4 & Happ4 & Hf4) & Hfin & Hval).
    split; [done|]. split; [|split; [|done]].
    + exists ((([ConsoleStage (name st) (loggable c);
                 StageConfigure (length pre) (name st) c] ++ evs1)
               ++ [StageGet (S (length pre)) (name st');
                   StageValidate (S (length pre)) (name st')
                     (stage_get (name st') (cfg (this s)))]) ++ evs4).
      split.
      * eapply appended_trans; [|exact Happ4].
        eapply appended_trans; [exact Happ2|].
        unfold appended.
        change (trace a3)
          with (trace (fetchStage (S (length pre)) st' a2)
                ++ [StageValidate (S (length pre)) (name st')
                      (stage_get (name st') (cfg (this a2)))]).
        rewrite Htr3, Hc2, <- app_assoc. reflexivity.
      * rewrite !List.filter_app. cbn. rewrite (filter_none _ _ Hev1), Hf4. done.
    + rewrite Hfin. rewrite <- app_assoc. done.
Qed.

Lemma manage_idle_eq x :
  active (this x) = false ->
  manage x
  = set_tasks (tasks (fst (internalManage (modify (set_active true) x)))
               ++ [AwaitFirst (snd (internalManage (modify (set_active true) x)))])
      (fst (internalManage (modify (set_active true) x))).
Proof. unfold manage. intros ->. by destruct (internalManage _). Qed.

Lemma internalManage_eq y :
  internalManage y = stage_loop (length (stages (this (beginPass y)))) 0 (beginPass y).
Proof. reflexivity. Qed.

Lemma beginPass_no_stage_event y evs :
  appended y (beginPass y) evs -> List.filter isStageEvent evs = [].
Proof.
  intros H. pose proof (beginPass_appended y) as H'.
  unfold appended in *. rewrite H in H'. apply app_inv_head in H'. subst evs.
  by destruct (retryTimer (this y)).
Qed.

(** A pass that starts with no stage valid stops at the validation of the
    first stage (or returns at once if there is no stage), and leaves the
    stage table as it is. *)
Lemma internalManage_all_invalid y :
  Forall (fun st => valid st = false) (stages (this y)) ->
  exists evs,
    appended y (fst (internalManage y)) evs
    /\ stages (this (fst (internalManage y))) = stages (this y)
    /\ cfg (this (fst (internalManage y))) = cfg (this y)
    /\ tasks (fst (internalManage y)) = tasks y
    /\ match stages (this y) with
       | [] => snd (internalManage y) = Returned /\ List.filter isStageEvent evs = []
       | st :: _ =>
           snd (internalManage y)
           = AwaitValidate 0 (name st) (stage_get (name st) (cfg (this y)))
           /\ List.filter isStageEvent evs
              = [StageGet 0 (name st);
                 StageValidate 0 (name st) (stage_get (name st) (cfg (this y)))]
       end.
Proof.
  intros Hinv. rewrite internalManage_eq.
  destruct (beginPass_this y) as (Hst & Hc & _ & _ & _ & _ & Htk).
  pose proof (beginPass_appended y) as Happ.
  pose proof (beginPass_no_stage_event y _ Happ) as Hpre.
  set (pre := _ :: _ :: _) in Happ, Hpre. clearbody pre.
  set (b := beginPass y) in *.
  rewrite Hst. destruct (stages (this y)) as [|st sts] eqn:Hsts.
  - cbn [length stage_loop fst snd].
    destruct (passSucceeded_appended b) as (evs & Happ' & Hev).
    destruct (outside_eq _ _ (passSucceeded_outside b)) as (_ & Hc' & _ & _ & _ & _ & Htk').
    exists (pre ++ evs).
    split; [by eapply appended_trans|].
    split; [by rewrite passSucceeded_stages|].
    split; [congruence|]. split; [congruence|]. split; [done|].
    rewrite List.filter_app, Hpre, (filter_none isStageEvent evs); [done|].
    eapply Forall_impl; [exact Hev|]. intros [] Hx; cbn in *; done.
  - assert (Hlk : stages (this b) !! 0 = Some st) by by rewrite Hst.
    pose proof (Forall_inv Hinv) as Hv. cbn in Hv.
    cbn [length]. rewrite (stage_loop_stop_invalid _ _ _ _ Hlk Hv). cbn [fst snd].
    destruct (fetchStage_invalid _ _ _ Hlk Hv) as (Hst3 & Hc3 & Htr3).
    exists (pre ++ [StageGet 0 (name st);
                    StageValidate 0 (name st) (stage_get (name st) (cfg (this b)))]).
    split.
    { unfold appended in *. cbn [trace emit]. rewrite Htr3, Happ. by rewrite <- !app_assoc. }
    split; [cbn [this emit]; congruence|].
    split; [cbn [this emit]; congruence|].
    split.
    { cbn [tasks emit]. unfold fetchStage, invalidate.
      destruct (isEqual _ _); cbn [tasks emit modify]; done. }
    rewrite Hc. split; [reflexivity|].
    rewrite List.filter_app, Hpre. done.
Qed.

Lemma keepsValid_same t t' : stages (this t') = stages (this t) -> keepsValid t t'.
Proof. intros H k st Hk Hv _. rewrite H. eauto. Qed.

Lemma keepsValid_from t b t' :
  stages (this b) = stages (this t) -> cfg (this b) = cfg (this t) ->
  keepsValid b t' -> keepsValid t t'.
Proof. intros Hs Hc H k st Hk Hv He. apply (H k st); congruence. Qed.

Lemma keepsValid_stage_loop n i t : keepsValid t (fst (stage_loop n i t)).
Proof.
  intros k st Hk Hv He.
  destruct (stage_loop_table n i t) as (_ & Hlow & _).
  destruct (Hlow k) as [Hsame|(st2 & Hk2 & _ & Hne)].
  - rewrite Hsame. eauto.
  - congruence.
Qed.

Lemma keepsValid_internalManage t : keepsValid t (fst (internalManage t)).
Proof.
  rewrite internalManage_eq.
  destruct (beginPass_this t) as (Hst & Hc & _).
  eapply keepsValid_from; [exact Hst|exact Hc|apply keepsValid_stage_loop].
Qed.

Lemma keepsValid_manage t : keepsValid t (manage t).
Proof.
  destruct (active (this t)) eqn:Ha.
  - rewrite (manage_when_active t Ha). apply keepsValid_same. by destruct (queued (this t)).
  - rewrite (manage_idle_eq t Ha).
    exact (keepsValid_internalManage (modify (set_active true) t)).
Qed.

Lemma keepsValid_resumePass p env t : keepsValid t (fst (resumePass p env t)).
Proof.
  destruct p as [i nm c|i nm c|]; cbn [resumePass].
  - destruct (stage_validate nm env c) as [e|]; cbn [fst].
    + apply keepsValid_same. by destruct (validateFailed_effect e t) as (-> & _).
    + apply keepsValid_same.
      by destruct (stage_configure_effect nm c
                     (emit (StageConfigure i nm c) (emit (ConsoleStage nm (loggable c)) t)))
        as (-> & _).
  - set (a := modify _ t). intros k st Hk Hv He.
    set (n := length (stages (this a)) - S i).
    destruct (decide (k = i)) as [->|Hki].
    + destruct (stage_loop_table n (S i) a) as (Hlt & _ & _).
      rewrite Hlt by lia. cbn. rewrite list_lookup_alter_eq, Hk. cbn. eauto.
    + apply (keepsValid_stage_loop n (S i) a k st); [|done|done].
      cbn. by rewrite list_lookup_alter_ne.
  - by apply keepsValid_same.
Qed.

Lemma keepsValid_settle tid env t t' : settle tid env t = Some t' -> keepsValid t t'.
Proof.
  unfold settle. intros H.
  destruct (tasks t !! tid) as [[p|p]|]; [| |done].
  - destruct p as [i nm c|i nm c|].
    + pose proof (keepsValid_resumePass (AwaitValidate i nm c) env t) as Hk.
      destruct (resumePass _ env t). by simplify_eq.
    + pose proof (keepsValid_resumePass (AwaitConfigure i nm c) env t) as Hk.
      destruct (resumePass _ env t). by simplify_eq.
    + simplify_eq. unfold manageAfterFirst. destruct (queued (this t)).
      * set (t1 := modify _ (emit _ t)).
        pose proof (keepsValid_internalManage t1) as Hk.
        destruct (internalManage t1). exact Hk.
      * by apply keepsValid_same.
  - destruct p as [i nm c|i nm c|].
    + pose proof (keepsValid_resumePass (AwaitValidate i nm c) env t) as Hk.
      destruct (resumePass _ env t). by simplify_eq.
    + pose proof (keepsValid_resumePass (AwaitConfigure i nm c) env t) as Hk.
      destruct (resumePass _ env t). by simplify_eq.
    + simplify_eq. by apply keepsValid_same.
Qed.

Lemma step_keepsValid l t t' :
  isCrash l = false -> step l t = Some t' -> keepsValid t t'.
Proof.
  intros Hl Hstep. destruct l; cbn in Hstep; try discriminate.
  - simplify_eq. apply keepsValid_manage.
  - by eapply keepsValid_settle.
  - destruct (timer_pending id t); [|done]. simplify_eq.
    exact (keepsValid_manage (drop_timer id t)).
  - simplify_eq. intros k st Hk Hv He. cbn. eauto.
  - simplify_eq. apply keepsValid_same. by rewrite refreshStatus_this.
  - destruct (logHandler f (this t)); [|done]. simplify_eq.
    apply keepsValid_same. rewrite refreshStatus_this. by destruct f.
  - simplify_eq. apply keepsValid_same. op_cases; done.
  - simplify_eq. apply keepsValid_same. op_cases; done.
  - simplify_eq. apply keepsValid_same. op_cases; done.
  - destruct (stopping t); [done|]. simplify_eq. apply keepsValid_same. op_cases; done.
  - unfold rejectConfigure in Hstep.
    destruct (passOf <$> tasks t !! tid) as [[]|]; simplify_eq. by apply keepsValid_same.
Qed.

Lemma allAccept_reset env sts c :
  allAccept env (stage_set_valid false <$> sts) c = allAccept env sts c.
Proof.
  unfold allAccept. induction sts as [|st sts IH]; cbn; [done|]. by rewrite IH.
Qed.

Lemma fullPassCalls_reset i sts c :
  fullPassCalls i (stage_set_valid false <$> sts) c = fullPassCalls i sts c.
Proof.
  revert i. induction sts as [|st sts IH]; intros i; cbn; [done|]. by rewrite IH.
Qed.

Lemma applied_reset c (sts : list ConfigStage) :
  applied c <$> (stage_set_valid false <$> sts) = applied c <$> sts.
Proof. induction sts as [|st sts IH]; cbn; [done|]. by rewrite IH. Qed.

Lemma forallb_Forall {A} (f : A -> bool) (l : list A) :
  forallb f l = true -> Forall (fun x => f x = true) l.
Proof.
  induction l as [|x l IH]; cbn; [constructor|].
  intros [Hx Hl]%andb_true_iff. constructor; auto.
Qed.

(** A call of [manage] through an open gate when no stage is valid. *)
Lemma manage_all_invalid x :
  active (this x) = false ->
  Forall (fun st => valid st = false) (stages (this x)) ->
  exists p evs,
    tasks (manage x) = tasks x ++ [AwaitFirst p]
    /\ stages (this (manage x)) = stages (this x)
    /\ cfg (this (manage x)) = cfg (this x)
    /\ active (this (manage x)) = true
    /\ queued (this (manage x)) = queued (this x)
    /\ passes (manage x) = S (passes x)
    /\ appended x (manage x) evs
    /\ match stages (this x) with
       | [] => p = Returned /\ List.filter isStageEvent evs = []
       | st :: _ =>
           p = AwaitValidate 0 (name st) (stage_get (name st) (cfg (this x)))
           /\ List.filter isStageEvent evs
              = [StageGet 0 (name st);
                 StageValidate 0 (name st) (stage_get (name st) (cfg (this x)))]
       end.
Proof.
  intros Ha Hinv. rewrite (manage_idle_eq x Ha).
  destruct (internalManage_all_invalid (modify (set_active true) x) Hinv)
    as (evs & Happ & Hst & Hc & Htk & Hm).
  destruct (internalManage_gate (modify (set_active true) x)) as (Ha1 & Hq1 & _ & Hp1).
  generalize dependent (internalManage (modify (set_active true) x)).
  intros [s' p] Happ Hst Hc Htk Hm Ha1 Hq1 Hp1. cbn [fst snd] in *.
  exists p, evs. cbn [tasks this set_tasks]. rewrite Htk.
  repeat split; try assumption.
Qed.

(** Recovery when it is followed on its own.  After
    [recoverRecorderFromCrash], whatever the flags were before: every stage
    has [valid] false; [queued] is false; a new call of [manage] has gone
    through the gate (so [active] had been reset), has set [active] again
    and has started one pass.  That pass, run on its own with every
    validator accepting, validates and applies every stage, each exactly
    once and in the order of the table, and returns with every stage valid
    and holding the snapshot of the settings.  No step other than a crash
    clears the [valid] flag of a valid stage whose fetched snapshot equals
    its current one. *)
Lemma recovery_pass_alone_replays_every_stage :
  forall (s : System) (envs : list Env),
    forallb (fun env => allAccept env (stages (this s)) (cfg (this s))) envs = true ->
    2 * length (stages (this s)) <= length envs ->
    let s1 := recoverRecorderFromCrash s in
    Forall (fun st => valid st = false) (stages (this s1))
    /\ queued (this s1) = false
    /\ active (this s1) = true
    /\ passes s1 = S (passes s)
    /\ (exists p,
          tasks s1 = tasks s ++ [AwaitFirst p]
          /\ snd (runPass envs (s1, p)) = Returned
          /\ List.filter isStageEvent (emitted s (fst (runPass envs (s1, p))))
             = fullPassCalls 0 (stages (this s)) (cfg (this s))
          /\ stages (this (fst (runPass envs (s1, p))))
             = applied (cfg (this s)) <$> stages (this s))
    /\ (forall l t t', isCrash l = false -> step l t = Some t' -> keepsValid t t').
Proof.
  intros s envs Hacc Hlen. cbn zeta. unfold recoverRecorderFromCrash.
  destruct (resetAfterCrash_effect s) as (Ha & Hq & Hst & Hc & Htk & evs0 & Happ0 & Hev0).
  assert (Hinv : Forall (fun st => valid st = false) (stages (this (resetAfterCrash s)))).
  { rewrite Hst. apply Forall_fmap. by apply Forall_true. }
  destruct (manage_all_invalid (resetAfterCrash s) Ha Hinv)
    as (p & evs & Htk1 & Hst1 & Hc1 & Ha1 & Hq1 & Hp1 & Happ1 & Hm).
  set (x := resetAfterCrash s) in *. clearbody x.
  set (s1 := manage x) in *. clearbody s1.
  assert (Hpass : passes x = passes s).
  { rewrite (passes_appended _ _ _ Happ0), filter_none; [cbn; lia|].
    eapply Forall_impl; [exact Hev0|]. by intros ev [_ Hx]. }
  assert (Hpre : List.filter isStageEvent evs0 = []).
  { apply filter_none. eapply Forall_impl; [exact Hev0|]. by intros ev [Hx _]. }
  pose proof (appended_trans _ _ _ _ _ Happ0 Happ1) as Happ.
  split; [congruence|]. split; [congruence|]. split; [done|]. split; [congruence|].
  split; [|exact step_keepsValid].
  exists p. split; [congruence|].
  rewrite Hst in Hm, Hinv, Hst1. rewrite Hc in Hm, Hc1.
  destruct (stages (this s)) as [|st sts] eqn:Hsts; cbn [fmap list_fmap] in Hm.
  - destruct Hm as [-> Hf]. rewrite runPass_Returned. cbn [fst snd].
    split; [done|]. split; [|done].
    rewrite (appended_emitted _ _ _ Happ), List.filter_app, Hpre, Hf. done.
  - destruct Hm as [-> Hf]. cbn [name stage_set_valid] in Hf |- *.
    change (stage_set_valid false <$> st :: sts)
      with ([] ++ stage_set_valid false st :: (stage_set_valid false <$> sts)) in Hst1.
    pose proof (full_pass (stage_set_valid false <$> sts) [] (stage_set_valid false st)
                  s1 envs Hst1) as Hfull.
    cbn zeta in Hfull. rewrite Hc1 in Hfull. cbn [length name stage_set_valid] in Hfull.
    destruct Hfull as (Hr & (evs2 & Happ2 & Hf2) & Hfin & _).
    + by apply Forall_inv_tail in Hinv.
    + apply forallb_Forall in Hacc. eapply Forall_impl; [exact Hacc|].
      intros env Hx. cbn beta in Hx.
      change (stage_set_valid false st :: (stage_set_valid false <$> sts))
        with (stage_set_valid false <$> (st :: sts)).
      by rewrite allAccept_reset.
    + rewrite length_fmap. cbn in Hlen. lia.
    + split; [done|]. split.
      * rewrite (appended_emitted _ _ _ (appended_trans _ _ _ _ _ Happ Happ2)).
        rewrite !List.filter_app, Hpre, Hf, Hf2, fullPassCalls_reset. done.
      * rewrite Hfin. cbn. by rewrite applied_reset.
Qed.

(** A crash after everything has been applied: all five stages are replayed. *)
Lemma recovery_pass_alone_replays_every_stage_example :
  queued (this (recoverRecorderFromCrash Sample.configured)) = false.
Proof.
  refine (proj1 (proj2
    (recovery_pass_alone_replays_every_stage Sample.configured
       (replicate 10 Sample.env_ok) _ _))).
  - vm_compute. reflexivity.
  - vm_compute. lia.
Qed.

(** C4, at the failing input.  The recorder crashes while a call of
    [manage] is waiting on the [configure] of the video stage
    ([Sample.crashDuringConfigure]).  Recovery marks every stage invalid,
    resets the gate under the suspended call and starts a pass that waits on
    the validation of the base stage.  The suspended call then goes on: it
    marks the video stage valid, for the snapshot it had applied to the
    recorder that is gone, and validates and applies the audio, flavour and
    overlay stages; the pass of the recovery applies the base stage and finds
    the others valid.  The run ends with every stage valid and the
    configuration valid, and the video stage has not been applied again. *)
Theorem C4_suspended_call_defeats_replay :
  match run Sample.crashDuringConfigure Sample.fresh,
        run (Sample.crashDuringConfigure ++ replicate 11 Sample.ok) Sample.fresh with
  | Some s1, Some s2 =>
      valid <$> stages (this s1) = [false; false; false; false; false]
      /\ queued (this s1) = false
      /\ passOf <$> tasks s1
         = [AwaitConfigure 1 obsVideo Sample.video; AwaitValidate 0 obsBase Sample.base]
      /\ tasks s2 = []
      /\ active (this s2) = false
      /\ valid <$> stages (this s2) = [true; true; true; true; true]
      /\ configValid (this s2) = true
      /\ configureCalls (emitted s1 s2) = [2; 3; 4; 0]
  | _, _ => False
  end.
Proof. vm_compute. repeat split; reflexivity. Qed.

(** * Further properties of the Manager *)

(** ** What each operation emits *)

Lemma status_wf_priority m :
  status_wf (fst (statusByPriority m)) (snd (statusByPriority m)) = true.
Proof.
  unfold statusByPriority.
  destruct (reconfiguring m); [reflexivity|].
  destruct (configValid m); [|reflexivity].
  destruct (anyOverrunning m); [reflexivity|].
  destruct (anyActive m); [reflexivity|].
  by destruct (obsState (recorder m)).
Qed.

Lemma side_refreshStatus s :
  exists evs, appended s (refreshStatus s) evs
              /\ Forall (fun e => sideEvent e = true) evs.
Proof.
  eexists. split; [apply refreshStatus_appended|].
  constructor; [apply status_wf_priority|].
  destruct (_ || _); repeat constructor.
Qed.

Lemma side_passSucceeded s :
  exists evs, appended s (passSucceeded s) evs
              /\ Forall (fun e => sideEvent e = true) evs.
Proof.
  unfold passSucceeded, setConfigValid.
  set (t := modify _ (modify _ (modify _ s))).
  destruct (side_refreshStatus t) as (evs & Happ & Hev). by exists evs.
Qed.

Lemma side_validateFailed e s :
  exists evs, appended s (validateFailed e s) evs
              /\ Forall (fun e => sideEvent e = true) evs.
Proof.
  destruct (validateFailed_effect e s) as (_ & _ & _ & _ & _ & Happ & _).
  eexists. split; [exact Happ|].
  destruct (instanceofRetryable e); repeat constructor.
Qed.

Lemma side_stage_configure nm c s :
  exists evs, appended s (stage_configure nm c s) evs
              /\ Forall (fun e => sideEvent e = true) evs.
Proof.
  exists (emitted s (stage_configure nm c s)). unfold appended, emitted.
  op_cases; cbn; rewrite <- ?app_assoc, ?drop_app_length, ?drop_all, ?app_nil_r;
    (split; [reflexivity|repeat constructor]).
Qed.

Lemma side_resetAfterCrash s :
  exists evs, appended s (resetAfterCrash s) evs
              /\ Forall (fun e => sideEvent e = true) evs.
Proof.
  exists (emitted s (resetAfterCrash s)). unfold appended, emitted.
  op_cases; cbn; rewrite <- ?app_assoc, ?drop_app_length;
    (split; [reflexivity|repeat constructor]).
Qed.

Lemma side_onWowStarted s :
  exists evs, appended s (onWowStarted s) evs
              /\ Forall (fun e => sideEvent e = true) evs.
Proof.
  exists (emitted s (onWowStarted s)). unfold appended, emitted.
  op_cases; cbn; rewrite <- ?app_assoc, ?drop_app_length;
    (split; [reflexivity|repeat constructor]).
Qed.

Lemma side_onWowStopped s :
  exists evs, appended s (onWowStopped s) evs
              /\ Forall (fun e => sideEvent e = true) evs.
Proof.
  exists (emitted s (onWowStopped s)). unfold appended, emitted.
  op_cases; cbn; rewrite <- ?app_assoc, ?drop_app_length;
    (split; [reflexivity|repeat constructor]).
Qed.

Lemma side_onWowStoppedBegin s :
  exists evs, appended s (onWowStoppedBegin s) evs
              /\ Forall (fun e => sideEvent e = true) evs.
Proof.
  exists (emitted s (onWowStoppedBegin s)). unfold appended, emitted.
  op_cases; cbn; rewrite <- ?app_assoc, ?drop_app_length;
    (split; [reflexivity|repeat constructor]).
Qed.

Lemma side_onWowStoppedEnd s :
  exists evs, appended s (onWowStoppedEnd s) evs
              /\ Forall (fun e => sideEvent e = true) evs.
Proof.
  exists (emitted s (onWowStoppedEnd s)). unfold appended, emitted.
  op_cases; cbn; rewrite <- ?app_assoc, ?drop_app_length;
    (split; [reflexivity|repeat constructor]).
Qed.

Lemma side_restartRecorder s :
  exists evs, appended s (restartRecorder s) evs
              /\ Forall (fun e => sideEvent e = true) evs.
Proof.
  exists (emitted s (restartRecorder s)). unfold appended, emitted.
  op_cases; cbn; rewrite <- ?app_assoc, ?drop_app_length;
    (split; [reflexivity|repeat constructor]).
Qed.

Lemma side_beginPass s :
  exists evs, appended s (beginPass s) evs
              /\ Forall (fun e => sideEvent e = true) evs.
Proof.
  eexists. split; [apply beginPass_appended|].
  destruct (retryTimer (this s)); repeat constructor.
Qed.

Lemma side_loop e : sideEvent e = true -> loopEvent e = true.
Proof. by destruct e. Qed.

(** The loop emits calls of [get], at most one call of [validate] (its
    last event, when it stops at a stage), and the messages of
    [passSucceeded] when it is through; it calls no [configure]. *)
Lemma loop_events n i s :
  exists evs, appended s (fst (stage_loop n i s)) evs
              /\ Forall (fun e => loopEvent e = true) evs.
Proof.
  apply (stage_loop_cases (fun i s r =>
    exists evs, appended s (fst r) evs /\ Forall (fun e => loopEvent e = true) evs)).
  - intros j t. destruct (side_passSucceeded t) as (evs & Happ & Hev).
    exists evs. split; [done|]. eapply Forall_impl; [exact Hev|]. apply side_loop.
  - intros j t stage _ _. eexists. split.
    + unfold appended, fetchStage. destruct (isEqual _ _); cbn; by rewrite <- app_assoc.
    + repeat constructor.
  - intros j t stage [t' p] _ _ _ (evs & Happ & Hev).
    exists (StageGet j (name stage) :: evs). cbn [fst] in *. split.
    + unfold appended in *. cbn in *. by rewrite Happ, <- app_assoc.
    + by constructor.
Qed.

Lemma internalManage_events s :
  exists evs, appended s (fst (internalManage s)) evs
              /\ Forall (fun e => loopEvent e = true) evs.
Proof.
  unfold internalManage. cbn zeta.
  destruct (side_beginPass s) as (e1 & H1 & Hs1).
  destruct (loop_events (length (stages (this (beginPass s)))) 0 (beginPass s))
    as (e2 & H2 & Hs2).
  exists (e1 ++ e2). split; [unfold appended in *; by rewrite H2, H1, app_assoc|].
  apply Forall_app. split; [|done].
  eapply Forall_impl; [exact Hs1|]. apply side_loop.
Qed.

Lemma manage_events s :
  exists evs, appended s (manage s) evs
              /\ Forall (fun e => loopEvent e = true) evs.
Proof.
  unfold manage. destruct (active (this s)).
  - destruct (queued (this s)); cbn.
    + exists []. split; [apply appended_refl|constructor].
    + exists [Console "[Manager] Queued a manage call"]. split; [done|repeat constructor].
  - destruct (internalManage_events (modify (set_active true) s)) as (evs & Happ & Hev).
    destruct (internalManage (modify (set_active true) s)) as [s1 p]. by exists evs.
Qed.

Lemma manageAfterFirst_events tid s :
  exists evs, appended s (manageAfterFirst tid s) evs
              /\ Forall (fun e => loopEvent e = true) evs.
Proof.
  unfold manageAfterFirst. destruct (queued (this s)).
  - set (s0 := modify _ (emit _ s)).
    destruct (internalManage_events s0) as (evs & Happ & Hev).
    destruct (internalManage s0) as [s1 p]. cbn [fst] in Happ.
    exists (Console "[Manager] Execute a queued manage call" :: evs). split.
    + unfold appended in *. cbn. rewrite Happ. cbn. by rewrite <- app_assoc.
    + by constructor.
  - exists []. split; [unfold appended; cbn; by rewrite app_nil_r|constructor].
Qed.

(** What a pass emits when the promise it awaits settles. *)
Lemma resumePass_events p env s :
  exists evs,
    appended s (fst (resumePass p env s)) evs
    /\ match p with
       | AwaitValidate i nm c =>
           match stage_validate nm env c with
           | Some _ => Forall (fun e => sideEvent e = true) evs
           | None =>
               exists evs',
                 evs = ConsoleStage nm (loggable c) :: StageConfigure i nm c :: evs'
                 /\ Forall (fun e => sideEvent e = true) evs'
           end
       | AwaitConfigure _ _ _ => Forall (fun e => loopEvent e = true) evs
       | Returned => evs = []
       end.
Proof.
  destruct p as [i nm c|i nm c|]; cbn [resumePass].
  - destruct (stage_validate nm env c) as [e|]; cbn [fst].
    + apply side_validateFailed.
    + set (a := emit (StageConfigure i nm c) (emit (ConsoleStage nm (loggable c)) s)).
      destruct (side_stage_configure nm c a) as (evs & Happ & Hev).
      exists (ConsoleStage nm (loggable c) :: StageConfigure i nm c :: evs). split.
      * unfold appended in *. rewrite Happ. cbn. by rewrite <- !app_assoc.
      * by exists evs.
  - set (a := modify _ s).
    destruct (loop_events (length (stages (this a)) - S i) (S i) a) as (evs & Happ & Hev).
    by exists evs.
  - exists []. split; [apply appended_refl|done].
Qed.

(** What one step appends to the trace: calls of [get] and [validate] and
    side events; or, when a promise settles with a validator accepting, the
    console line of the stage, the call of its [configure] and the side
    events of that call. *)
Lemma settle_events tid env s s' :
  settle tid env s = Some s' ->
  exists evs,
    appended s s' evs
    /\ (Forall (fun e => loopEvent e = true) evs
        \/ exists i nm c evs',
             passOf <$> tasks s !! tid = Some (AwaitValidate i nm c)
             /\ stage_validate nm env c = None
             /\ passOf <$> tasks s' !! tid = Some (AwaitConfigure i nm c)
             /\ evs = ConsoleStage nm (loggable c) :: StageConfigure i nm c :: evs'
             /\ Forall (fun e => sideEvent e = true) evs').
Proof.
  unfold settle. intros H.
  assert (Hres : forall (mk : Pass -> Task) p x,
            (forall q, passOf (mk q) = q) ->
            tasks s !! tid = Some (mk p) ->
            (let '(s1, p') := resumePass p env s in
             Some (set_tasks (<[tid := mk p']> (tasks s1)) s1)) = Some x ->
            exists evs,
              appended s x evs
              /\ (Forall (fun e => loopEvent e = true) evs
                  \/ exists i nm c evs',
                       passOf <$> tasks s !! tid = Some (AwaitValidate i nm c)
                       /\ stage_validate nm env c = None
                       /\ passOf <$> tasks x !! tid = Some (AwaitConfigure i nm c)
                       /\ evs = ConsoleStage nm (loggable c) :: StageConfigure i nm c :: evs'
                       /\ Forall (fun e => sideEvent e = true) evs')).
  { intros mk p x Hmk Htid Hx.
    destruct (resumePass_events p env s) as (evs & Happ & Hev).
    pose proof (quiet_resumePass p env s) as [_ _ Htk _].
    pose proof (lookup_lt_Some _ _ _ Htid) as Hlt.
    destruct p as [i nm c|i nm c|]; cbn [resumePass] in *.
    - destruct (stage_validate nm env c) as [e|] eqn:Hval; cbn [fst snd] in *.
      + simplify_eq. exists evs. split; [done|]. left.
        eapply Forall_impl; [exact Hev|]. apply side_loop.
      + simplify_eq. destruct Hev as (evs' & -> & Hev).
        eexists. split; [exact Happ|]. right. exists i, nm, c, evs'.
        rewrite Htid. cbn. rewrite Hmk. split; [done|]. split; [done|].
        split; [|done]. rewrite Htk, list_lookup_insert_eq by done. cbn. by rewrite Hmk.
    - destruct (stage_loop _ _ _) as [s1 p'] eqn:Hloop. simplify_eq.
      exists evs. split; [done|]. by left.
    - simplify_eq. exists []. split; [|left; constructor].
      unfold appended. cbn. by rewrite app_nil_r. }
  destruct (tasks s !! tid) as [[p|p]|] eqn:Htid; [| |done].
  - destruct p as [i nm c|i nm c|];
      [by eapply (Hres AwaitFirst)|by eapply (Hres AwaitFirst)|].
    simplify_eq. destruct (manageAfterFirst_events tid s) as (evs & Happ & Hev).
    exists evs. split; [done|]. by left.
  - destruct p as [i nm c|i nm c|];
      [by eapply (Hres AwaitSecond)|by eapply (Hres AwaitSecond)|].
    simplify_eq. exists []. split; [|left; constructor].
    unfold appended. cbn. by rewrite app_nil_r.
Qed.

Lemma appended_modify f s : appended s (modify f s) [].
Proof. unfold appended. cbn. by rewrite app_nil_r. Qed.

Lemma step_events l s s' :
  step l s = Some s' ->
  exists evs,
    appended s s' evs
    /\ (Forall (fun e => loopEvent e = true) evs
        \/ exists tid env i nm c evs',
             l = Settle tid env
             /\ passOf <$> tasks s !! tid = Some (AwaitValidate i nm c)
             /\ stage_validate nm env c = None
             /\ passOf <$> tasks s' !! tid = Some (AwaitConfigure i nm c)
             /\ evs = ConsoleStage nm (loggable c) :: StageConfigure i nm c :: evs'
             /\ Forall (fun e => sideEvent e = true) evs').
Proof.
  assert (Hside : forall a b evs,
            appended a b evs -> Forall (fun e => sideEvent e = true) evs ->
            appended a b evs /\ (Forall (fun e => loopEvent e = true) evs
                                 \/ exists tid env i nm c evs',
             l = Settle tid env
             /\ passOf <$> tasks a !! tid = Some (AwaitValidate i nm c)
             /\ stage_validate nm env c = None
             /\ passOf <$> tasks b !! tid = Some (AwaitConfigure i nm c)
             /\ evs = ConsoleStage nm (loggable c) :: StageConfigure i nm c :: evs'
             /\ Forall (fun e => sideEvent e = true) evs')).
  { intros a b evs H1 H2. split; [done|]. left.
    eapply Forall_impl; [exact H2|]. apply side_loop. }
  intros Hstep. destruct l; cbn [step] in Hstep.
  - simplify_eq. destruct (manage_events s) as (evs & Happ & Hev).
    exists evs. split; [done|]. by left.
  - destruct (settle_events tid env s s' Hstep) as (evs & Happ & [Hev|Hev]).
    + exists evs. split; [done|]. by left.
    + exists evs. split; [done|]. right.
      destruct Hev as (i & nm & c & evs' & H). by exists tid, env, i, nm, c, evs'.
  - destruct (timer_pending id s); [|done]. simplify_eq.
    destruct (manage_events (drop_timer id s)) as (evs & Happ & Hev).
    exists evs. split; [done|]. by left.
  - simplify_eq. exists []. split; [apply appended_modify|left; constructor].
  - simplify_eq. unfold recoverRecorderFromCrash.
    destruct (side_resetAfterCrash s) as (e1 & H1 & Hs1).
    destruct (manage_events (resetAfterCrash s)) as (e2 & H2 & Hs2).
    exists (e1 ++ e2). split; [unfold appended in *; by rewrite H2, H1, app_assoc|].
    left. apply Forall_app. split; [|done].
    eapply Forall_impl; [exact Hs1|]. apply side_loop.
  - simplify_eq. set (a := modify _ s).
    destruct (side_refreshStatus a) as (evs & Happ & Hev). exists evs. by apply Hside.
  - destruct (logHandler f (this s)); [|done]. simplify_eq. set (a := modify _ s).
    destruct (side_refreshStatus a) as (evs & Happ & Hev). exists evs. by apply Hside.
  - simplify_eq. set (a := modify _ s).
    destruct (side_onWowStarted a) as (evs & Happ & Hev). exists evs. by apply Hside.
  - simplify_eq. set (a := modify _ s).
    destruct (side_onWowStoppedBegin a) as (evs & Happ & Hev). exists evs. by apply Hside.
  - simplify_eq.
    destruct (side_restartRecorder s) as (evs & Happ & Hev). exists evs. by apply Hside.
  - destruct (stopping s) as [|n]; [done|]. simplify_eq.
    destruct (side_onWowStoppedEnd (set_stopping n s)) as (evs & Happ & Hev).
    exists evs. by apply Hside.
  - unfold rejectConfigure in Hstep.
    destruct (passOf <$> tasks s !! tid) as [[]|]; simplify_eq.
    exists []. split; [unfold appended; cbn; by rewrite app_nil_r|left; constructor].
Qed.

Lemma loggable_masked c : passwordMasked (loggable c) = true.
Proof.
  unfold passwordMasked, loggable.
  destruct (truthy (field c "cloudAccountPassword")) eqn:Ht.
  - apply orb_true_iff. right. apply bool_decide_eq_true.
    unfold field. by rewrite lookup_insert.
  - by rewrite Ht.
Qed.

Lemma loop_wf e : loopEvent e = true -> event_wf e = true.
Proof. by destruct e. Qed.

Lemma side_wf e : sideEvent e = true -> event_wf e = true.
Proof. by destruct e. Qed.

(** Every step appends to the trace, and what it appends is well formed. *)
Lemma step_wf l s s' :
  step l s = Some s' ->
  exists evs, appended s s' evs /\ Forall (fun e => event_wf e = true) evs.
Proof.
  intros Hstep. destruct (step_events l s s' Hstep) as (evs & Happ & [Hev|Hev]).
  - exists evs. split; [done|]. eapply Forall_impl; [exact Hev|]. apply loop_wf.
  - destruct Hev as (tid & env & i & nm & c & evs' & _ & _ & _ & _ & -> & Hev).
    eexists. split; [exact Happ|].
    constructor; [apply loggable_masked|]. constructor; [done|].
    eapply Forall_impl; [exact Hev|]. apply side_wf.
Qed.

Lemma run_wf sched :
  forall s s',
    run sched s = Some s' ->
    exists evs, appended s s' evs /\ Forall (fun e => event_wf e = true) evs.
Proof.
  induction sched as [|l rest IH]; intros s s' Hrun; cbn in Hrun.
  - simplify_eq. exists []. split; [apply appended_refl|constructor].
  - destruct (step l s) as [s1|] eqn:Hstep; [|done].
    destruct (step_wf l s s1 Hstep) as (e1 & H1 & Hw1).
    destruct (IH s1 s' Hrun) as (e2 & H2 & Hw2).
    exists (e1 ++ e2). split; [unfold appended in *; by rewrite H2, H1, app_assoc|].
    by apply Forall_app.
Qed.

(** ** Traces of whole runs *)

Lemma run_constructor_In c sched s' e :
  run sched (constructor c) = Some s' ->
  List.In e (trace s') ->
  event_wf e = true \/ List.In e (trace (constructor c)).
Proof.
  intros Hrun Hin. destruct (run_wf sched _ _ Hrun) as (evs & Happ & Hev).
  unfold appended in Happ. rewrite Happ in Hin. apply in_app_or in Hin as [Hin|Hin].
  - by right.
  - left. apply list_elem_of_In in Hin. by apply (proj1 (Forall_forall _ _) Hev).
Qed.

(** X1.  In every run of the Manager from its construction, crashes
    included, the snapshot written to the console when a stage is applied
    does not show the cloud password: its [cloudAccountPassword] is falsy or
    is the mask of ten asterisks.  The masked copy differs from the snapshot
    at most in that property. *)
Theorem logged_snapshot_hides_password :
  forall (c : ConfigService) (sched : list Label) (s' : System)
         (nm : StageName) (o : JsObject),
    run sched (constructor c) = Some s' ->
    List.In (ConsoleStage nm o) (trace s') ->
    (truthy (field o "cloudAccountPassword") = true ->
     field o "cloudAccountPassword" = JStr "**********")
    /\ (forall (x : JsObject) (k : string),
          k <> "cloudAccountPassword" -> loggable x !! k = x !! k).
Proof.
  intros c sched s' nm o Hrun Hin. split.
  - destruct (run_constructor_In c sched s' _ Hrun Hin) as [Hwf|Hc].
    + cbn in Hwf. unfold passwordMasked in Hwf. intros Ht. rewrite Ht in Hwf.
      cbn in Hwf. by apply bool_decide_eq_true in Hwf.
    + cbn in Hc. intuition discriminate.
  - intros x k Hk. unfold loggable. destruct (truthy _); [|done].
    by rewrite lookup_insert_ne.
Qed.

(** The first pass of a Manager set up for cloud storage logs the base
    snapshot with the password ["pw"] masked. *)
Lemma logged_snapshot_hides_password_witness :
  field (loggable Sample.cloudBase) "cloudAccountPassword" = JStr "**********".
Proof.
  refine (proj1 (logged_snapshot_hides_password Sample.configCloud
                   [CallManage; Sample.ok]
                   (default Sample.fresh
                      (run [CallManage; Sample.ok] (constructor Sample.configCloud)))
                   obsBase (loggable Sample.cloudBase) _ _) _).
  - vm_compute. reflexivity.
  - apply list_elem_of_In, (list_elem_of_lookup_2 _ 7). vm_compute. reflexivity.
  - vm_compute. reflexivity.
Defined.

(** X2.  In every run of the Manager from its construction, crashes
    included, each composite status sent to the renderer is Reconfiguring
    without a message, InvalidConfig with a message, or one of Overrunning,
    Recording, ReadyToRecord and WaitingForWoW with the empty message.
    FatalError is never sent. *)
Theorem published_status_is_well_formed :
  forall (c : ConfigService) (sched : list Label) (s' : System)
         (st : RecStatus.t) (msg : option string),
    run sched (constructor c) = Some s' ->
    List.In (SendRecStatus st msg) (trace s') ->
    status_wf st msg = true /\ st <> RecStatus.FatalError.
Proof.
  intros c sched s' st msg Hrun Hin.
  destruct (run_constructor_In c sched s' _ Hrun Hin) as [Hwf|Hc].
  - cbn in Hwf. split; [done|]. intros ->. by destruct msg.
  - cbn in Hc. intuition discriminate.
Qed.

(** The first call of [manage] announces the pass. *)
Lemma published_status_is_well_formed_witness :
  status_wf RecStatus.Reconfiguring None = true.
Proof.
  refine (proj1 (published_status_is_well_formed Sample.config [CallManage]
                   Sample.started RecStatus.Reconfiguring None _ _)).
  - vm_compute. reflexivity.
  - apply list_elem_of_In, (list_elem_of_lookup_2 _ 4). vm_compute. reflexivity.
Defined.

(** ** A stage is applied only after its validator accepted the snapshot *)

Lemma loop_not_configure e : loopEvent e = true -> isConfigureCall e = false.
Proof. by destruct e. Qed.

Lemma side_not_configure e : sideEvent e = true -> isConfigureCall e = false.
Proof. by destruct e. Qed.

Lemma validatedFirst_app tr evs :
  validatedFirst tr ->
  Forall (fun e => isConfigureCall e = false) evs ->
  validatedFirst (tr ++ evs).
Proof.
  intros Htr Hev pre i nm c post Heq.
  destruct (decide (length pre < length tr)) as [Hlt|Hge].
  - assert (Hpre : pre = take (length pre) tr).
    { apply (f_equal (take (length pre))) in Heq.
      rewrite take_app_le in Heq by lia. by rewrite take_app_length in Heq. }
    assert (Hlk : tr !! length pre = Some (StageConfigure i nm c)).
    { apply (f_equal (fun l => l !! length pre)) in Heq.
      rewrite lookup_app_l in Heq by lia.
      by rewrite list_lookup_middle in Heq. }
    apply (Htr pre i nm c (drop (S (length pre)) tr)).
    rewrite Hpre at 1. rewrite <- (take_drop_middle tr (length pre) _ Hlk) at 1.
    done.
  - exfalso.
    assert (Hlk : evs !! (length pre - length tr) = Some (StageConfigure i nm c)).
    { apply (f_equal (fun l => l !! length pre)) in Heq.
      rewrite lookup_app_r in Heq by lia.
      by rewrite list_lookup_middle in Heq. }
    pose proof (Forall_lookup_1 _ _ _ _ Hev Hlk) as Hx. discriminate.
Qed.

Lemma validatedFirst_configure tr i nm c o evs :
  validatedFirst tr ->
  List.In (StageValidate i nm c) tr ->
  Forall (fun e => isConfigureCall e = false) evs ->
  validatedFirst (tr ++ ConsoleStage nm o :: StageConfigure i nm c :: evs).
Proof.
  intros Htr Hin Hev.
  change (ConsoleStage nm o :: StageConfigure i nm c :: evs)
    with ([ConsoleStage nm o] ++ [StageConfigure i nm c] ++ evs).
  rewrite !app_assoc. apply validatedFirst_app; [|done].
  intros pre j nm' c' post Heq.
  destruct (decide (length pre = length (tr ++ [ConsoleStage nm o]))) as [Hlen|Hlen].
  - assert (pre = tr ++ [ConsoleStage nm o] /\ StageConfigure j nm' c' = StageConfigure i nm c)
      as [-> Hev'].
    { destruct post as [|x post].
      - apply app_inj_tail in Heq as [? ?]. by split.
      - apply (f_equal length) in Heq. rewrite !length_app in Heq. cbn in Heq.
        rewrite !length_app in Hlen. cbn in Hlen. lia. }
    simplify_eq. apply in_or_app. by left.
  - destruct post as [|x post _] using rev_ind.
    { apply app_inj_tail in Heq as [Heq _]. subst pre. lia. }
    rewrite app_comm_cons, app_assoc in Heq. apply app_inj_tail in Heq as [Heq _].
    assert (Htr' : validatedFirst (tr ++ [ConsoleStage nm o])).
    { apply validatedFirst_app; [done|]. repeat constructor. }
    by apply (Htr' pre j nm' c' post).
Qed.

Lemma awaiting_ok_app tr evs t : awaiting_ok tr t -> awaiting_ok (tr ++ evs) t.
Proof.
  unfold awaiting_ok. destruct (passOf t); [|done|done].
  intros H. apply in_or_app. by left.
Qed.

Lemma awaiting_all_app tr evs ts :
  Forall (awaiting_ok tr) ts -> Forall (awaiting_ok (tr ++ evs)) ts.
Proof. intros H. eapply Forall_impl; [exact H|]. intros t. apply awaiting_ok_app. Qed.

(** Where the loop stops it has called the validator it waits on. *)
Lemma loop_awaiting n i s :
  match snd (stage_loop n i s) with
  | AwaitValidate j nm c => List.In (StageValidate j nm c) (trace (fst (stage_loop n i s)))
  | AwaitConfigure _ _ _ => False
  | Returned => True
  end.
Proof.
  pose proof (stage_loop_validate_recorded n i s) as H.
  destruct (stage_loop_table n i s) as (_ & _ & Hres). unfold loop_result in Hres.
  destruct (snd (stage_loop n i s)) as [j nm c|j nm c|]; [|done|done].
  destruct H as (evs' & Happ & Hin). unfold appended in Happ. rewrite Happ.
  apply in_or_app. by right.
Qed.

Lemma internalManage_awaiting s :
  match snd (internalManage s) with
  | AwaitValidate j nm c => List.In (StageValidate j nm c) (trace (fst (internalManage s)))
  | AwaitConfigure _ _ _ => False
  | Returned => True
  end.
Proof. unfold internalManage. cbn zeta. apply loop_awaiting. Qed.

Lemma trace_inv_internalManage (mk : Pass -> Task) s :
  (forall p, passOf (mk p) = p) ->
  trace_inv s ->
  validatedFirst (trace (fst (internalManage s)))
  /\ Forall (awaiting_ok (trace (fst (internalManage s)))) (tasks s)
  /\ awaiting_ok (trace (fst (internalManage s))) (mk (snd (internalManage s))).
Proof.
  intros Hmk [Hv Ht].
  destruct (internalManage_events s) as (evs & Happ & Hev).
  pose proof (internalManage_awaiting s) as Haw.
  unfold appended in Happ. rewrite Happ in *.
  split; [|split].
  - apply validatedFirst_app; [done|].
    eapply Forall_impl; [exact Hev|]. apply loop_not_configure.
  - by apply awaiting_all_app.
  - unfold awaiting_ok. rewrite Hmk.
    by destruct (snd (internalManage s)).
Qed.

Lemma trace_inv_manage s : trace_inv s -> trace_inv (manage s).
Proof.
  intros Hinv. unfold manage. destruct (active (this s)).
  - destruct (queued (this s)); cbn; [done|].
    destruct Hinv as [Hv Ht]. split; cbn.
    + apply validatedFirst_app; [done|]. repeat constructor.
    + by apply awaiting_all_app.
  - set (s0 := modify (set_active true) s).
    assert (Hinv0 : trace_inv s0) by done.
    destruct (trace_inv_internalManage AwaitFirst s0 (fun p => eq_refl) Hinv0)
      as (Hv & Ht & Hp).
    destruct (internalManage_gate s0) as (_ & _ & Htk & _).
    destruct (internalManage s0) as [s1 p]. cbn [fst snd] in *.
    split; cbn; [done|]. rewrite Htk. apply Forall_app. split; [done|].
    by constructor.
Qed.

Lemma trace_inv_resumePass (mk : Pass -> Task) tid p env s :
  (forall q, passOf (mk q) = q) ->
  trace_inv s ->
  tasks s !! tid = Some (mk p) ->
  trace_inv (set_tasks (<[tid := mk (snd (resumePass p env s))]>
                          (tasks (fst (resumePass p env s))))
               (fst (resumePass p env s))).
Proof.
  intros Hmk [Hv Ht] Htid.
  destruct (resumePass_events p env s) as (evs & Happ & Hev).
  pose proof (quiet_resumePass p env s) as [_ _ Htk _].
  assert (Hp : awaiting_ok (trace s) (mk p)).
  { apply (proj1 (Forall_lookup _ _) Ht tid). done. }
  unfold awaiting_ok in Hp. rewrite Hmk in Hp.
  unfold appended in Happ. unfold trace_inv. cbn [trace tasks set_tasks].
  rewrite Htk, Happ.
  destruct p as [i nm c|i nm c|].
  - cbn [resumePass] in *. destruct (stage_validate nm env c) as [e|]; cbn [fst snd] in *.
    + split.
      * apply validatedFirst_app; [done|].
        eapply Forall_impl; [exact Hev|]. apply side_not_configure.
      * apply Forall_insert; [by apply awaiting_all_app|].
        unfold awaiting_ok. by rewrite Hmk.
    + destruct Hev as (evs' & -> & Hev). split.
      * apply validatedFirst_configure; [done|done|].
        eapply Forall_impl; [exact Hev|]. apply side_not_configure.
      * apply Forall_insert; [by apply awaiting_all_app|].
        unfold awaiting_ok. by rewrite Hmk.
  - split.
    + apply validatedFirst_app; [done|].
      eapply Forall_impl; [exact Hev|]. apply loop_not_configure.
    + apply Forall_insert; [by apply awaiting_all_app|].
      unfold awaiting_ok. rewrite Hmk. cbn [resumePass] in *.
      set (a := modify _ s) in *.
      pose proof (loop_awaiting (length (stages (this a)) - S i) (S i) a) as Haw.
      rewrite Happ in Haw.
      by destruct (snd (stage_loop _ _ a)).
  - subst evs. rewrite app_nil_r. cbn. split; [done|].
    apply Forall_insert; [done|]. unfold awaiting_ok. by rewrite Hmk.
Qed.

Lemma trace_inv_manageDone tid s : trace_inv s -> trace_inv (manageDone tid s).
Proof.
  intros [Hv Ht]. split; cbn; [done|]. by apply Forall_delete.
Qed.

Lemma trace_inv_manageAfterFirst tid s :
  trace_inv s -> trace_inv (manageAfterFirst tid s).
Proof.
  intros Hinv. unfold manageAfterFirst. destruct (queued (this s)).
  - set (s0 := modify _ (emit _ s)).
    assert (Hinv0 : trace_inv s0).
    { destruct Hinv as [Hv Ht]. split; cbn.
      - apply validatedFirst_app; [done|]. repeat constructor.
      - by apply awaiting_all_app. }
    destruct (trace_inv_internalManage AwaitSecond s0 (fun p => eq_refl) Hinv0)
      as (Hv & Ht & Hp).
    destruct (internalManage_gate s0) as (_ & _ & Htk & _).
    destruct (internalManage s0) as [s1 p]. cbn [fst snd] in *.
    split; cbn; [done|]. rewrite Htk. by apply Forall_insert.
  - by apply trace_inv_manageDone.
Qed.

Lemma trace_inv_settle tid env s s' :
  trace_inv s -> settle tid env s = Some s' -> trace_inv s'.
Proof.
  intros Hinv. unfold settle.
  destruct (tasks s !! tid) as [[p|p]|] eqn:Htid; [| |done].
  - pose proof (trace_inv_resumePass AwaitFirst tid p env s (fun q => eq_refl) Hinv Htid)
      as Hr.
    destruct p as [i nm c|i nm c|].
    + destruct (resumePass _ env s). intros. by simplify_eq.
    + destruct (resumePass _ env s). intros. by simplify_eq.
    + intros. simplify_eq. by apply trace_inv_manageAfterFirst.
  - pose proof (trace_inv_resumePass AwaitSecond tid p env s (fun q => eq_refl) Hinv Htid)
      as Hr.
    destruct p as [i nm c|i nm c|].
    + destruct (resumePass _ env s). intros. by simplify_eq.
    + destruct (resumePass _ env s). intros. by simplify_eq.
    + intros. simplify_eq. by apply trace_inv_manageDone.
Qed.

(** An operation that leaves the suspended calls alone and calls no
    [configure] keeps the invariant. *)
Lemma trace_inv_side s s' evs :
  trace_inv s -> appended s s' evs -> tasks s' = tasks s ->
  Forall (fun e => sideEvent e = true) evs ->
  trace_inv s'.
Proof.
  intros [Hv Ht] Happ Htk Hev. unfold appended in Happ. split.
  - rewrite Happ. apply validatedFirst_app; [done|].
    eapply Forall_impl; [exact Hev|]. apply side_not_configure.
  - rewrite Happ, Htk. by apply awaiting_all_app.
Qed.

Lemma trace_inv_step l s s' : trace_inv s -> step l s = Some s' -> trace_inv s'.
Proof.
  intros Hinv Hstep. destruct l; cbn [step] in Hstep.
  - simplify_eq. by apply trace_inv_manage.
  - by eapply trace_inv_settle.
  - destruct (timer_pending id s); [|done]. simplify_eq.
    by apply (trace_inv_manage (drop_timer id s)).
  - by simplify_eq.
  - simplify_eq. unfold recoverRecorderFromCrash. apply trace_inv_manage.
    destruct (side_resetAfterCrash s) as (evs & Happ & Hev).
    destruct (resetAfterCrash_effect s) as (_ & _ & _ & _ & Htk & _).
    by eapply trace_inv_side.
  - simplify_eq. set (a := modify _ s).
    destruct (side_refreshStatus a) as (evs & Happ & Hev).
    eapply (trace_inv_side a); [done|exact Happ| |done].
    by destruct (quiet_refreshStatus a).
  - destruct (logHandler f (this s)); [|done]. simplify_eq. set (a := modify _ s).
    destruct (side_refreshStatus a) as (evs & Happ & Hev).
    eapply (trace_inv_side a); [done|exact Happ| |done].
    by destruct (quiet_refreshStatus a).
  - simplify_eq. set (a := modify _ s).
    destruct (side_onWowStarted a) as (evs & Happ & Hev).
    eapply (trace_inv_side a); [done|exact Happ| |done].
    by destruct (quiet_onWowStarted a).
  - simplify_eq. set (a := modify _ s).
    destruct (side_onWowStoppedBegin a) as (evs & Happ & Hev).
    eapply (trace_inv_side a); [done|exact Happ| |done].
    by destruct (quiet_onWowStoppedBegin a).
  - simplify_eq.
    destruct (side_restartRecorder s) as (evs & Happ & Hev).
    eapply trace_inv_side; [done|exact Happ| |done].
    by destruct (quiet_restartRecorder s).
  - destruct (stopping s) as [|n]; [done|]. simplify_eq. set (a := set_stopping n s).
    destruct (side_onWowStoppedEnd a) as (evs & Happ & Hev).
    eapply (trace_inv_side a); [done|exact Happ| |done].
    by destruct (quiet_onWowStoppedEnd a).
  - unfold rejectConfigure in Hstep.
    destruct (passOf <$> tasks s !! tid) as [[]|]; simplify_eq.
    destruct Hinv as [Hv Ht]. split; cbn; [done|]. by apply Forall_delete.
Qed.

Lemma trace_inv_run sched :
  forall s s', trace_inv s -> run sched s = Some s' -> trace_inv s'.
Proof.
  induction sched as [|l rest IH]; intros s s' Hinv Hrun; cbn in Hrun.
  - by simplify_eq.
  - destruct (step l s) as [s1|] eqn:Hstep; [|done].
    eapply IH; [|exact Hrun]. by eapply trace_inv_step.
Qed.

Lemma trace_inv_constructor c : trace_inv (constructor c).
Proof.
  split; [|constructor].
  intros pre i nm x post Heq. exfalso.
  assert (Hin : List.In (StageConfigure i nm x) (trace (constructor c))).
  { rewrite Heq. apply in_or_app. right. by left. }
  cbn in Hin. intuition discriminate.
Qed.

(** ** Claim C3, continued: what the current snapshots have been through *)

Lemma snapshots_lookup s k st :
  stages (this s) !! k = Some st -> snapshots s !! k = Some (name st, current st).
Proof. intros H. unfold snapshots. by rewrite list_lookup_fmap, H. Qed.

Lemma snapshots_lookup_inv s k n c :
  snapshots s !! k = Some (n, c) ->
  exists st, stages (this s) !! k = Some st /\ name st = n /\ current st = c.
Proof.
  unfold snapshots. rewrite list_lookup_fmap.
  destruct (stages (this s) !! k) as [st|]; [|done]. cbn. intros. simplify_eq. eauto.
Qed.

Lemma snapshots_same s s' : stages (this s') = stages (this s) -> snapshots s' = snapshots s.
Proof. unfold snapshots. by intros ->. Qed.

Lemma snapshots_lowered c (l l' : list ConfigStage) :
  (forall k, lowered_at c l l' k) ->
  (fun st => (name st, current st)) <$> l' = (fun st => (name st, current st)) <$> l.
Proof.
  intros H. apply list_eq. intros k. rewrite !list_lookup_fmap.
  destruct (H k) as [->|(st & -> & -> & _)]; done.
Qed.

Lemma stage_loop_snapshots n i s :
  snapshots (fst (stage_loop n i s)) = snapshots s.
Proof.
  destruct (stage_loop_table n i s) as (_ & Hlow & _).
  by apply (snapshots_lowered (cfg (this s))).
Qed.

Lemma validatedApplied_app tr evs k nm c :
  validatedApplied tr k nm c -> validatedApplied (tr ++ evs) k nm c.
Proof. intros [H1 H2]. split; [by apply recorded_mono|done]. Qed.

Lemma task_recorded_frame s s' evs t :
  appended s s' evs -> snapshots s' = snapshots s ->
  task_recorded s t -> task_recorded s' t.
Proof.
  unfold task_recorded, appended. intros -> ->.
  destruct (passOf t); [done| |done]. intros [H1 H2]. split; [|done]. by apply validatedApplied_app.
Qed.

Lemma currents_recorded_frame c0 s s' evs :
  appended s s' evs -> snapshots s' = snapshots s ->
  currents_recorded c0 s -> currents_recorded c0 s'.
Proof.
  unfold appended. intros Happ Hsn H k st Hk.
  apply snapshots_lookup in Hk. rewrite Hsn in Hk.
  apply snapshots_lookup_inv in Hk as (st0 & Hk0 & Hn & Hc).
  rewrite <- Hn, <- Hc, Happ.
  destruct (H k st0 Hk0) as [?|?]; [by left|right]. by apply validatedApplied_app.
Qed.

(** Where the loop stops, the stage it waits on has the name it holds. *)
Lemma stage_loop_task n i s :
  match snd (stage_loop n i s) with
  | AwaitValidate j nm c => exists c', snapshots (fst (stage_loop n i s)) !! j = Some (nm, c')
  | AwaitConfigure _ _ _ => False
  | Returned => True
  end.
Proof.
  destruct (stage_loop_table n i s) as (_ & _ & Hres). unfold loop_result in Hres.
  destruct (snd (stage_loop n i s)) as [j nm c|j nm c|]; [|done|done].
  destruct Hres as (_ & _ & st & _ & Hj & -> & _).
  exists (current st). by rewrite (snapshots_lookup _ _ _ Hj).
Qed.

(** A pass is started in [s]: the invariant holds afterwards, for the old
    calls and for the new one. *)
Lemma rec_inv_internalManage (mk : Pass -> Task) c0 s :
  (forall p, passOf (mk p) = p) ->
  Forall (task_recorded s) (tasks s) -> currents_recorded c0 s ->
  Forall (task_recorded (fst (internalManage s))) (tasks s)
  /\ task_recorded (fst (internalManage s)) (mk (snd (internalManage s)))
  /\ currents_recorded c0 (fst (internalManage s)).
Proof.
  intros Hmk Ht Hc.
  destruct (internalManage_events s) as (evs & Happ & _).
  assert (Hsn : snapshots (fst (internalManage s)) = snapshots s).
  { rewrite internalManage_eq, stage_loop_snapshots. apply snapshots_same.
    by destruct (beginPass_this s) as (-> & _). }
  split; [|split].
  - eapply Forall_impl; [exact Ht|]. intros t. by apply (task_recorded_frame s _ evs).
  - unfold task_recorded. rewrite Hmk. rewrite internalManage_eq.
    pose proof (stage_loop_task (length (stages (this (beginPass s)))) 0 (beginPass s)) as H.
    by destruct (snd (stage_loop _ _ _)).
  - by apply (currents_recorded_frame c0 s _ evs).
Qed.

Lemma rec_inv_frame c0 s s' evs :
  appended s s' evs -> snapshots s' = snapshots s -> tasks s' = tasks s ->
  rec_inv c0 s -> rec_inv c0 s'.
Proof.
  intros Happ Hsn Htk [Ht Hc]. split.
  - rewrite Htk. eapply Forall_impl; [exact Ht|]. intros t.
    by apply (task_recorded_frame s _ evs).
  - by apply (currents_recorded_frame c0 s _ evs).
Qed.

Lemma rec_inv_set_tasks c0 ts x :
  Forall (task_recorded x) ts -> currents_recorded c0 x -> rec_inv c0 (set_tasks ts x).
Proof. intros Ht Hc. split; [exact Ht|exact Hc]. Qed.

Lemma rec_inv_manage c0 s : rec_inv c0 s -> rec_inv c0 (manage s).
Proof.
  intros Hinv. unfold manage. destruct (active (this s)).
  - destruct (queued (this s)); cbn; [done|].
    by apply (rec_inv_frame c0 s _ [Console "[Manager] Queued a manage call"]).
  - set (s0 := modify (set_active true) s).
    assert (Hinv0 : rec_inv c0 s0) by done.
    destruct Hinv0 as [Ht0 Hc0].
    destruct (rec_inv_internalManage AwaitFirst c0 s0 (fun p => eq_refl) Ht0 Hc0)
      as (Ht & Hp & Hc).
    destruct (internalManage_gate s0) as (_ & _ & Htk & _).
    destruct (internalManage s0) as [s1 p]. cbn [fst snd] in *.
    split; cbn [tasks set_tasks].
    + rewrite Htk. apply Forall_app. split; [done|]. by constructor.
    + done.
Qed.

Lemma rec_inv_manageDone c0 tid s : rec_inv c0 s -> rec_inv c0 (manageDone tid s).
Proof. intros [Ht Hc]. split; cbn; [by apply Forall_delete|done]. Qed.

Lemma rec_inv_manageAfterFirst c0 tid s :
  rec_inv c0 s -> rec_inv c0 (manageAfterFirst tid s).
Proof.
  intros Hinv. unfold manageAfterFirst. destruct (queued (this s)).
  - set (s0 := modify _ (emit _ s)).
    assert (Hinv0 : rec_inv c0 s0).
    { by apply (rec_inv_frame c0 s _ [Console "[Manager] Execute a queued manage call"]). }
    destruct Hinv0 as [Ht0 Hc0].
    destruct (rec_inv_internalManage AwaitSecond c0 s0 (fun p => eq_refl) Ht0 Hc0)
      as (Ht & Hp & Hc).
    destruct (internalManage_gate s0) as (_ & _ & Htk & _).
    destruct (internalManage s0) as [s1 p]. cbn [fst snd] in *.
    split; cbn [tasks set_tasks]; [|done]. rewrite Htk. by apply Forall_insert.
  - by apply rec_inv_manageDone.
Qed.

Lemma rec_inv_resumePass (mk : Pass -> Task) c0 tid p env s :
  (forall q, passOf (mk q) = q) ->
  trace_inv s -> rec_inv c0 s ->
  tasks s !! tid = Some (mk p) ->
  rec_inv c0 (set_tasks (<[tid := mk (snd (resumePass p env s))]>
                           (tasks (fst (resumePass p env s))))
                (fst (resumePass p env s))).
Proof.
  intros Hmk [_ Haw] [Ht Hc] Htid.
  destruct (resumePass_events p env s) as (evs & Happ & Hev).
  pose proof (quiet_resumePass p env s) as [_ _ Htk _].
  assert (Hp : task_recorded s (mk p)) by (apply (proj1 (Forall_lookup _ _) Ht tid); done).
  assert (Hpa : awaiting_ok (trace s) (mk p))
    by (apply (proj1 (Forall_lookup _ _) Haw tid); done).
  unfold task_recorded in Hp. unfold awaiting_ok in Hpa. rewrite Hmk in Hp, Hpa.
  destruct p as [i nm c|i nm c|].
  - (* the validator answers *)
    assert (Hsn : snapshots (fst (resumePass (AwaitValidate i nm c) env s)) = snapshots s).
    { apply snapshots_same. cbn [resumePass].
      destruct (stage_validate nm env c) as [e|]; cbn [fst].
      - by destruct (validateFailed_effect e s) as (-> & _).
      - by destruct (stage_configure_effect nm c
                       (emit (StageConfigure i nm c) (emit (ConsoleStage nm (loggable c)) s)))
          as (-> & _). }
    apply rec_inv_set_tasks.
    + rewrite Htk. apply Forall_insert.
      * eapply Forall_impl; [exact Ht|]. intros t.
        apply (task_recorded_frame s _ evs); done.
      * unfold task_recorded. rewrite Hmk. cbn [resumePass] in *.
        destruct (stage_validate nm env c) as [e|] eqn:Hval; cbn [fst snd] in *; [done|].
        destruct Hev as (evs' & -> & _). rewrite Hsn. split; [|done].
        split; [|by exists env].
        unfold appended in Happ. rewrite Happ. split; apply in_or_app.
        -- by left.
        -- right. right. by left.
    + by apply (currents_recorded_frame c0 s _ evs).
  - (* the stage has been applied *)
    destruct Hp as [Hrec (c' & Hi)].
    cbn [resumePass] in *. set (a := modify _ s) in *.
    set (n := length (stages (this a)) - S i) in *.
    assert (Hsn : snapshots (fst (stage_loop n (S i) a)) = snapshots a)
      by apply stage_loop_snapshots.
    assert (Ha : forall k, k <> i -> snapshots a !! k = snapshots s !! k).
    { intros k Hk. unfold snapshots, a. cbn. rewrite !list_lookup_fmap.
      by rewrite list_lookup_alter_ne. }
    assert (Hai : snapshots a !! i = Some (nm, c)).
    { apply snapshots_lookup_inv in Hi as (st & Hst & Hn & _).
      unfold snapshots, a. cbn. rewrite list_lookup_fmap, list_lookup_alter_eq, Hst.
      cbn. by rewrite Hn. }
    assert (Hname : forall k nm', (exists x, snapshots s !! k = Some (nm', x)) ->
                                  exists x, snapshots a !! k = Some (nm', x)).
    { intros k nm' [x Hx]. destruct (decide (k = i)) as [->|Hk].
      - rewrite Hi in Hx. simplify_eq. eauto.
      - rewrite (Ha k Hk). eauto. }
    unfold appended in Happ.
    apply rec_inv_set_tasks.
    + rewrite Htk. apply Forall_insert.
      * eapply Forall_impl; [exact Ht|]. intros t. unfold task_recorded.
        rewrite Hsn, Happ.
        destruct (passOf t) as [j nm' x|j nm' x|]; [apply Hname| |done].
        intros [H1 H2]. split; [by apply validatedApplied_app|by apply Hname].
      * unfold task_recorded. rewrite Hmk.
        pose proof (stage_loop_task n (S i) a) as Hl.
        by destruct (snd (stage_loop n (S i) a)).
    + intros k st Hk. apply snapshots_lookup in Hk. rewrite Hsn in Hk. rewrite Happ.
      destruct (decide (k = i)) as [->|Hki].
      * rewrite Hai in Hk. simplify_eq. right. by apply validatedApplied_app.
      * rewrite (Ha k Hki) in Hk.
        apply snapshots_lookup_inv in Hk as (st0 & Hk0 & Hn & Hx).
        rewrite <- Hn, <- Hx.
        destruct (Hc k st0 Hk0) as [?|?]; [by left|right]. by apply validatedApplied_app.
  - subst evs. cbn [resumePass fst snd]. apply rec_inv_set_tasks; [|done].
    apply Forall_insert; [done|]. unfold task_recorded. by rewrite Hmk.
Qed.

Lemma rec_inv_settle c0 tid env s s' :
  trace_inv s -> rec_inv c0 s -> settle tid env s = Some s' -> rec_inv c0 s'.
Proof.
  intros Htr Hinv. unfold settle.
  destruct (tasks s !! tid) as [[p|p]|] eqn:Htid; [| |done].
  - pose proof (rec_inv_resumePass AwaitFirst c0 tid p env s (fun q => eq_refl) Htr Hinv Htid)
      as Hr.
    destruct p as [i nm c|i nm c|].
    + destruct (resumePass _ env s). intros. by simplify_eq.
    + destruct (resumePass _ env s). intros. by simplify_eq.
    + intros. simplify_eq. by apply rec_inv_manageAfterFirst.
  - pose proof (rec_inv_resumePass AwaitSecond c0 tid p env s (fun q => eq_refl) Htr Hinv Htid)
      as Hr.
    destruct p as [i nm c|i nm c|].
    + destruct (resumePass _ env s). intros. by simplify_eq.
    + destruct (resumePass _ env s). intros. by simplify_eq.
    + intros. simplify_eq. by apply rec_inv_manageDone.
Qed.

Lemma rec_inv_step c0 l s s' :
  trace_inv s -> rec_inv c0 s -> step l s = Some s' -> rec_inv c0 s'.
Proof.
  intros Htr Hinv Hstep. destruct l; cbn [step] in Hstep.
  - simplify_eq. by apply rec_inv_manage.
  - by eapply rec_inv_settle.
  - destruct (timer_pending id s); [|done]. simplify_eq.
    by apply (rec_inv_manage c0 (drop_timer id s)).
  - simplify_eq. apply (rec_inv_frame c0 s _ []); [apply appended_modify|done|done|done].
  - simplify_eq. unfold recoverRecorderFromCrash. apply rec_inv_manage.
    destruct (side_resetAfterCrash s) as (evs & Happ & _).
    destruct (resetAfterCrash_effect s) as (_ & _ & Hst & _ & Htk & _).
    apply (rec_inv_frame c0 s _ evs); [done| |done|done].
    unfold snapshots. rewrite Hst, <- list_fmap_compose. by apply list_fmap_ext.
  - simplify_eq. set (a := modify _ s).
    destruct (side_refreshStatus a) as (evs & Happ & _).
    apply (rec_inv_frame c0 a _ evs); [done| | |done].
    + apply snapshots_same. by rewrite refreshStatus_this.
    + by destruct (quiet_refreshStatus a).
  - destruct (logHandler f (this s)); [|done]. simplify_eq. set (a := modify _ s).
    destruct (side_refreshStatus a) as (evs & Happ & _).
    apply (rec_inv_frame c0 a _ evs); [done| | |done].
    + apply snapshots_same. by rewrite refreshStatus_this.
    + by destruct (quiet_refreshStatus a).
  - simplify_eq. set (a := modify _ s).
    destruct (side_onWowStarted a) as (evs & Happ & _).
    apply (rec_inv_frame c0 a _ evs); [done| | |done].
    + apply snapshots_same. op_cases; reflexivity.
    + by destruct (quiet_onWowStarted a).
  - simplify_eq. set (a := modify _ s).
    destruct (side_onWowStoppedBegin a) as (evs & Happ & _).
    apply (rec_inv_frame c0 a _ evs); [exact Happ| | |done].
    + apply snapshots_same. op_cases; reflexivity.
    + by destruct (quiet_onWowStoppedBegin a).
  - simplify_eq.
    destruct (side_restartRecorder s) as (evs & Happ & _).
    apply (rec_inv_frame c0 s _ evs); [done| | |done].
    + apply snapshots_same. op_cases; reflexivity.
    + by destruct (quiet_restartRecorder s).
  - destruct (stopping s) as [|n]; [done|]. simplify_eq. set (a := set_stopping n s).
    destruct (side_onWowStoppedEnd a) as (evs & Happ & _).
    apply (rec_inv_frame c0 a _ evs); [done| | |done].
    + apply snapshots_same. op_cases; reflexivity.
    + by destruct (quiet_onWowStoppedEnd a).
  - unfold rejectConfigure in Hstep.
    destruct (passOf <$> tasks s !! tid) as [[]|]; simplify_eq.
    destruct Hinv as [Ht Hc]. split; cbn; [by apply Forall_delete|done].
Qed.

Lemma rec_inv_run c0 sched :
  forall s s', trace_inv s -> rec_inv c0 s -> run sched s = Some s' -> rec_inv c0 s'.
Proof.
  induction sched as [|l rest IH]; intros s s' Htr Hinv Hrun; cbn in Hrun.
  - by simplify_eq.
  - destruct (step l s) as [s1|] eqn:Hstep; [|done].
    eapply (IH s1); [by eapply trace_inv_step|by eapply rec_inv_step|exact Hrun].
Qed.

Lemma internalManage_snapshots s : snapshots (fst (internalManage s)) = snapshots s.
Proof.
  rewrite internalManage_eq, stage_loop_snapshots. apply snapshots_same.
  by destruct (beginPass_this s) as (-> & _).
Qed.

Lemma manage_snapshots s : snapshots (manage s) = snapshots s.
Proof.
  unfold manage. destruct (active (this s)).
  - by destruct (queued (this s)).
  - pose proof (internalManage_snapshots (modify (set_active true) s)) as H.
    by destruct (internalManage _).
Qed.

(** A step changes the current snapshot of no stage, unless it is the
    promise of a [configure] that resolves: then only the stage that was
    applied gets a new current snapshot, the one that was applied. *)
Lemma step_snapshots l s s' :
  step l s = Some s' ->
  snapshots s' = snapshots s
  \/ exists tid env i nm c,
       l = Settle tid env
       /\ passOf <$> tasks s !! tid = Some (AwaitConfigure i nm c)
       /\ (forall k, k <> i -> snapshots s' !! k = snapshots s !! k)
       /\ (forall x, snapshots s' !! i = Some x -> snd x = c).
Proof.
  intros Hstep. destruct l; cbn [step] in Hstep.
  - simplify_eq. left. apply manage_snapshots.
  - unfold settle in Hstep.
    assert (Hres : forall (mk : Pass -> Task) p,
              (forall q, passOf (mk q) = q) ->
              tasks s !! tid = Some (mk p) -> isReturned p = false ->
              (let '(s1, p') := resumePass p env s in
               Some (set_tasks (<[tid := mk p']> (tasks s1)) s1)) = Some s' ->
              snapshots s' = snapshots s
              \/ exists tid0 env0 i nm c,
                   Settle tid env = Settle tid0 env0
                   /\ passOf <$> tasks s !! tid0 = Some (AwaitConfigure i nm c)
                   /\ (forall k, k <> i -> snapshots s' !! k = snapshots s !! k)
                   /\ (forall x, snapshots s' !! i = Some x -> snd x = c)).
    { intros mk p Hmk Htid Hp Hx. destruct p as [i nm c|i nm c|]; [| |done].
      - left. cbn [resumePass] in Hx.
        destruct (stage_validate nm env c) as [e|]; simplify_eq; apply snapshots_same; cbn.
        + by destruct (validateFailed_effect e s) as (-> & _).
        + by destruct (stage_configure_effect nm c
                         (emit (StageConfigure i nm c) (emit (ConsoleStage nm (loggable c)) s)))
            as (-> & _).
      - right. exists tid, env, i, nm, c. split; [done|].
        split; [rewrite Htid; cbn; by rewrite Hmk|].
        cbn [resumePass] in Hx. set (a := modify _ s) in Hx.
        pose proof (stage_loop_snapshots (length (stages (this a)) - S i) (S i) a) as Hsn.
        destruct (stage_loop _ _ a) as [s1 p']. cbn [fst] in Hsn. simplify_eq.
        change (snapshots (set_tasks (<[tid:=mk p']> (tasks s1)) s1)) with (snapshots s1).
        rewrite Hsn. unfold snapshots, a. cbn. split.
        + intros k Hk. rewrite !list_lookup_fmap. by rewrite list_lookup_alter_ne.
        + intros x. rewrite list_lookup_fmap, list_lookup_alter_eq.
          destruct (stages (this s) !! i); cbn; intros; by simplify_eq. }
    destruct (tasks s !! tid) as [[p|p]|] eqn:Htid; [| |done].
    + destruct p as [i nm c|i nm c|];
        [by eapply (Hres AwaitFirst)|by eapply (Hres AwaitFirst)|].
      simplify_eq. left. unfold manageAfterFirst. destruct (queued (this s)); [|done].
      set (s0 := modify _ (emit _ s)).
      pose proof (internalManage_snapshots s0) as H. by destruct (internalManage s0).
    + destruct p as [i nm c|i nm c|];
        [by eapply (Hres AwaitSecond)|by eapply (Hres AwaitSecond)|].
      simplify_eq. by left.
  - destruct (timer_pending id s); [|done]. simplify_eq. left.
    apply (manage_snapshots (drop_timer id s)).
  - simplify_eq. by left.
  - simplify_eq. left. unfold recoverRecorderFromCrash. rewrite manage_snapshots.
    destruct (resetAfterCrash_effect s) as (_ & _ & Hst & _).
    unfold snapshots. rewrite Hst, <- list_fmap_compose. by apply list_fmap_ext.
  - simplify_eq. left. apply snapshots_same. by rewrite refreshStatus_this.
  - destruct (logHandler f (this s)); [|done]. simplify_eq. left.
    apply snapshots_same. rewrite refreshStatus_this. by destruct f.
  - simplify_eq. left. apply snapshots_same. op_cases; reflexivity.
  - simplify_eq. left. apply snapshots_same. op_cases; reflexivity.
  - simplify_eq. left. apply snapshots_same. op_cases; reflexivity.
  - destruct (stopping s); [done|]. simplify_eq. left.
    apply snapshots_same. op_cases; reflexivity.
  - unfold rejectConfigure in Hstep.
    destruct (passOf <$> tasks s !! tid) as [[]|]; simplify_eq. by left.
Qed.

Lemma rec_inv_constructor c : rec_inv c (constructor c).
Proof.
  split; [constructor|]. intros k st Hk. left.
  cbn in Hk. unfold initialStages in Hk.
  do 5 (destruct k as [|k]; [cbn in Hk; by simplify_eq|]). done.
Qed.

Lemma configure_in_calls k nm c tr :
  List.In (StageConfigure k nm c) tr -> List.In k (configureCalls tr).
Proof.
  unfold configureCalls. induction tr as [|e tr IH]; [done|].
  intros [->|Hin]; [by left|]. cbn. destruct e; cbn; auto.
Qed.

(** C3 as stated fails.  The first pass of a Manager whose video settings
    ask for window capture without a window aborts at the video stage
    ([Sample.abortedAtVideo]).  The current snapshot of that stage is then
    the snapshot the stage was constructed with, the very one the validator
    has just rejected, and [configure] has never been called on it. *)
Lemma C3_counterexample :
  ~ (forall (sched : list Label) (s' : System) (k : nat) (st : ConfigStage),
       run sched (constructor Sample.configBadVideo) = Some s' ->
       stages (this s') !! k = Some st ->
       validatedApplied (trace s') k (name st) (current st)).
Proof.
  intros H.
  destruct (H Sample.abortedAtVideo
              (default Sample.fresh
                 (run Sample.abortedAtVideo (constructor Sample.configBadVideo)))
              1 {| name := obsVideo; valid := false; current := Sample.badVideo |})
    as [[_ Hin] _].
  - vm_compute. reflexivity.
  - vm_compute. reflexivity.
  - apply configure_in_calls in Hin. vm_compute in Hin. intuition discriminate.
Qed.

(** C3, amended.  A pass that began in [s0] has come to wait on the
    validation of stage [i], and that validation throws [e].  Then the pass returns at
    once: stage [i] has [valid] false and the current snapshot it had in
    [s0]; [configValid] is false and the message is [String(e)]; every stage
    after [i] is exactly as it was in [s0], whatever the settings say about
    it; and in the whole pass no [get], [validate] or [configure] of a stage
    after [i] was called.  At every point of a pass that began in [s0], the
    current snapshot of a stage is the one it had in [s0] or one that the
    pass has validated and, the validator having accepted it, applied.  And
    in every run of the Manager from its construction, crashes and rejected
    [configure]s included, the current snapshot of a stage is the one the
    stage was constructed with, taken from the settings without validation,
    or one that its validator was called on and accepted and on which its
    [configure] was called; and a step gives a stage a new current snapshot
    only when the promise of a [configure] called on that snapshot for that
    stage resolves: a [configure] that rejects leaves the stage table as it
    is. *)
Theorem C3_validation_failure_aborts_pass :
  forall (s0 : System) (envs : list Env) (s1 : System)
         (i : nat) (nm : StageName) (c : JsObject) (env : Env) (e : JsError),
    runPass envs (internalManage s0) = (s1, AwaitValidate i nm c) ->
    stage_validate nm env c = Some e ->
    let r := resumePass (AwaitValidate i nm c) env s1 in
    snd r = Returned
    /\ (exists st0 st,
          stages (this s0) !! i = Some st0 /\ stages (this (fst r)) !! i = Some st
          /\ valid st = false /\ current st = current st0 /\ name st = name st0)
    /\ configValid (this (fst r)) = false
    /\ configMessage (this (fst r)) = String_ e
    /\ reconfiguring (this (fst r)) = false
    /\ (forall k, i < k -> stages (this (fst r)) !! k = stages (this s0) !! k)
    /\ Forall (fun ev => forall k, stageOf ev = Some k -> k <= i) (emitted s0 (fst r))
    /\ (forall envs' : list Env,
          let t := fst (runPass envs' (internalManage s0)) in
          currents_ok s0 t (emitted s0 t))
    /\ (forall (c0 : ConfigService) (sched : list Label) (t : System)
               (k : nat) (st : ConfigStage),
          run sched (constructor c0) = Some t ->
          stages (this t) !! k = Some st ->
          current st = stage_get (name st) c0
          \/ validatedApplied (trace t) k (name st) (current st))
    /\ (forall (l : Label) (t t' : System) (k : nat) (st st' : ConfigStage),
          step l t = Some t' ->
          stages (this t) !! k = Some st ->
          stages (this t') !! k = Some st' ->
          current st' <> current st ->
          exists tid env' nm',
            l = Settle tid env'
            /\ passOf <$> tasks t !! tid = Some (AwaitConfigure k nm' (current st')))
    /\ (forall (tid : nat) (t t' : System),
          step (ConfigureRejects tid) t = Some t' -> stages (this t') = stages (this t)).
Proof.
  intros s0 envs s1 i nm c env e Hrun Hthrow. cbn zeta. cbn [resumePass].
  rewrite Hthrow. cbn [fst snd].
  pose proof (pass_inv_run s0 envs _ (pass_inv_begin s0)) as Hinv.
  rewrite Hrun in Hinv. unfold pass_inv in Hinv. cbn [fst snd] in Hinv.
  destruct Hinv as ((evs & Happ & Hup) & Hgt & st0 & Hst0 & Hst1).
  destruct (validateFailed_effect e s1) as (Hst & _ & Hv & Hm & Hr & Happ' & _).
  split; [done|]. rewrite Hst.
  split; [exists st0, (stage_set_valid false st0); by rewrite Hst1|].
  split; [done|]. split; [done|]. split; [done|]. split; [done|].
  split; [|split; [|split; [|split]]].
  - rewrite (appended_emitted _ _ _ (appended_trans _ _ _ _ _ Happ Happ')).
    apply Forall_app. split; [done|].
    destruct (instanceofRetryable e); repeat constructor; intros k Hk; discriminate.
  - intros envs'.
    destruct (cur_inv_run s0 envs' _ (cur_inv_begin s0)) as (evs' & Hall & Hcur & _).
    by rewrite (appended_emitted _ _ _ Hall).
  - intros c0 sched t k st Hrun' Hk.
    destruct (rec_inv_run c0 sched _ _ (trace_inv_constructor c0)
                (rec_inv_constructor c0) Hrun') as [_ Hcur].
    by apply Hcur.
  - intros l t t' k st st' Hstep Hk Hk' Hne.
    apply snapshots_lookup in Hk, Hk'.
    destruct (step_snapshots l t t' Hstep)
      as [Hsame|(tid & env' & j & nm' & x & -> & Htid & Hoff & Hat)].
    + rewrite Hsame, Hk in Hk'. by simplify_eq.
    + destruct (decide (k = j)) as [->|Hkj].
      * exists tid, env', nm'. split; [done|].
        pose proof (Hat _ Hk') as Hx. cbn in Hx. by rewrite Hx.
      * rewrite (Hoff k Hkj), Hk in Hk'. by simplify_eq.
  - intros tid t t' Hstep. cbn [step] in Hstep. unfold rejectConfigure in Hstep.
    destruct (passOf <$> tasks t !! tid) as [[]|]; by simplify_eq.
Qed.

(** The video stage of [Sample.configBadVideo] is rejected after the base
    stage has been applied. *)
Lemma C3_validation_failure_aborts_pass_witness :
  configValid
    (this (fst (resumePass (AwaitValidate 1 obsVideo Sample.badVideo) Sample.env_ok
                  Sample.beforeBadVideo))) = false.
Proof.
  refine (proj1 (proj2 (proj2
    (C3_validation_failure_aborts_pass (constructor Sample.configBadVideo)
       [Sample.env_ok; Sample.env_ok] Sample.beforeBadVideo 1 obsVideo Sample.badVideo
       Sample.env_ok Sample.noWindow _ _)))).
  - unfold Sample.beforeBadVideo.
    rewrite (surjective_pairing (runPass _ _)) at 1. f_equal.
  - vm_compute. reflexivity.
Defined.

(** X3.  In every run of the Manager from its construction, crashes
    included, each call of a stage's [configure] comes after a call of the
    same stage's [validate] on the same snapshot. *)
Theorem configure_comes_after_validate :
  forall (c : ConfigService) (sched : list Label) (s' : System)
         (pre post : list Event) (i : nat) (nm : StageName) (x : JsObject),
    run sched (constructor c) = Some s' ->
    trace s' = pre ++ StageConfigure i nm x :: post ->
    List.In (StageValidate i nm x) pre.
Proof.
  intros c sched s' pre post i nm x Hrun Heq.
  destruct (trace_inv_run sched _ _ (trace_inv_constructor c) Hrun) as [Hv _].
  by apply (Hv pre i nm x post).
Qed.

(** The first call of [manage] of a fresh Manager: the base stage is
    validated, then applied. *)
Lemma configure_comes_after_validate_witness :
  List.In (StageValidate 0 obsBase Sample.base)
    (take 8 (trace (default Sample.fresh (run [CallManage; Sample.ok] Sample.fresh)))).
Proof.
  refine (configure_comes_after_validate Sample.config [CallManage; Sample.ok]
            (default Sample.fresh (run [CallManage; Sample.ok] Sample.fresh))
            (take 8 (trace (default Sample.fresh (run [CallManage; Sample.ok] Sample.fresh))))
            (drop 9 (trace (default Sample.fresh (run [CallManage; Sample.ok] Sample.fresh))))
            0 obsBase Sample.base _ _).
  - vm_compute. reflexivity.
  - vm_compute. reflexivity.
Defined.

(** X4.  A step of the Manager calls a stage's [configure] only when a
    promise settles for a call of [manage] that was waiting on the
    validation of that stage and snapshot, and the validator accepted it; the
    call of [manage] then waits on that [configure].  No call of [manage],
    timer, crash, change of settings or other event calls [configure] by
    itself. *)
Theorem configure_only_when_validator_accepts :
  forall (l : Label) (s s' : System) (i : nat) (nm : StageName) (x : JsObject),
    step l s = Some s' ->
    List.In (StageConfigure i nm x) (emitted s s') ->
    exists tid env,
      l = Settle tid env
      /\ passOf <$> tasks s !! tid = Some (AwaitValidate i nm x)
      /\ stage_validate nm env x = None
      /\ passOf <$> tasks s' !! tid = Some (AwaitConfigure i nm x).
Proof.
  intros l s s' i nm x Hstep Hin.
  destruct (step_events l s s' Hstep) as (evs & Happ & [Hev|Hev]).
  - exfalso. rewrite (appended_emitted _ _ _ Happ) in Hin.
    apply list_elem_of_In in Hin.
    pose proof (proj1 (Forall_forall _ _) Hev _ Hin) as Hx. discriminate.
  - destruct Hev as (tid & env & j & nm' & c & evs' & -> & Ht & Hval & Ht' & -> & Hev).
    rewrite (appended_emitted _ _ _ Happ) in Hin.
    destruct Hin as [Hin|[Hin|Hin]]; [discriminate| |].
    + simplify_eq. by exists tid, env.
    + exfalso. apply list_elem_of_In in Hin.
      pose proof (proj1 (Forall_forall _ _) Hev _ Hin) as Hx. discriminate.
Qed.

(** The validator of the base stage accepts in [Sample.started]. *)
Lemma configure_only_when_validator_accepts_witness :
  exists tid env,
    Sample.ok = Settle tid env
    /\ passOf <$> tasks Sample.started !! tid = Some (AwaitValidate 0 obsBase Sample.base)
    /\ stage_validate obsBase env Sample.base = None
    /\ passOf <$> tasks (default Sample.fresh (step Sample.ok Sample.started)) !! tid
       = Some (AwaitConfigure 0 obsBase Sample.base).
Proof.
  refine (configure_only_when_validator_accepts Sample.ok Sample.started
            (default Sample.fresh (step Sample.ok Sample.started))
            0 obsBase Sample.base _ _).
  - vm_compute. reflexivity.
  - apply list_elem_of_In, (list_elem_of_lookup_2 _ 1). vm_compute. reflexivity.
Defined.

(** ** Runs without a crash *)

Lemma validBelow_same i s s' :
  stages (this s') = stages (this s) -> validBelow i s -> validBelow i s'.
Proof. intros Hs H k st. rewrite Hs. apply H. Qed.

Lemma validBelow_all i s :
  length (stages (this s)) <= i -> validBelow i s -> allValid s.
Proof.
  intros Hlen Hv. apply Forall_lookup. intros k st Hk.
  apply (Hv k st); [|done]. apply lookup_lt_Some in Hk. lia.
Qed.

(** The loop, given the iterations it needs to reach the end of the table:
    the stages it passes are valid. *)
Lemma valid_loop n :
  forall i s,
    length (stages (this s)) <= n + i -> validBelow i s ->
    passProgress (fst (stage_loop n i s)) (snd (stage_loop n i s)).
Proof.
  induction n as [|n IH]; intros i s Hlen Hv; cbn [stage_loop].
  { cbn [fst snd passProgress]. intros _. unfold allValid.
    rewrite passSucceeded_stages. by apply (validBelow_all i). }
  destruct (stages (this s) !! i) as [stage|] eqn:Hst.
  2:{ apply lookup_ge_None in Hst. cbn [fst snd passProgress]. intros _.
      unfold allValid. rewrite passSucceeded_stages. by apply (validBelow_all i). }
  cbn. destruct (isEqual _ _) eqn:Heq; cbn.
  - destruct (valid stage) eqn:Hvs; cbn.
    + apply IH; [cbn; lia|]. intros k st Hk Hlk. cbn in Hlk.
      destruct (decide (k = i)) as [->|Hne]; [by simplify_eq|].
      apply (Hv k st); [lia|done].
    + done.
  - intros k st Hk Hlk. cbn in Hlk.
    rewrite list_lookup_alter_ne in Hlk by lia. by apply (Hv k st).
Qed.

(** The loop clears [reconfiguring] when it is through and leaves it alone
    when it stops at a stage. *)
Lemma loop_reconfiguring n i s :
  reconfiguring (this (fst (stage_loop n i s)))
  = if isReturned (snd (stage_loop n i s)) then false else reconfiguring (this s).
Proof.
  apply (stage_loop_cases (fun i s r =>
    reconfiguring (this (fst r))
    = if isReturned (snd r) then false else reconfiguring (this s))).
  - intros j t. cbn [fst snd isReturned]. by destruct (passSucceeded_valid t) as (_ & _ & ->).
  - intros j t stage _ _. cbn. unfold fetchStage. by destruct (isEqual _ _).
  - intros j t stage [t' p] _ _ _ H. exact H.
Qed.

Lemma beginPass_flags s :
  reconfiguring (this (beginPass s)) = true
  /\ configValid (this (beginPass s)) = configValid (this s)
  /\ active (this (beginPass s)) = active (this s)
  /\ queued (this (beginPass s)) = queued (this s)
  /\ timers (beginPass s)
     = match retryTimer (this s) with
       | Some t => filter (fun p => fst p <> t) (timers s)
       | None => timers s
       end.
Proof.
  unfold beginPass, refreshStatus, clearTimeout, drop_timer. cbn.
  destruct (retryTimer (this s)) eqn:E; cbn; by rewrite ?E.
Qed.

(** A pass that begins cancels the retry the Manager holds. *)
Lemma beginPass_no_timer s :
  (forall id d, List.In (id, d) (timers s) -> retryTimer (this s) = Some id) ->
  timers (beginPass s) = [].
Proof.
  intros Ht. destruct (beginPass_flags s) as (_ & _ & _ & _ & ->).
  destruct (retryTimer (this s)) as [t|] eqn:E.
  - induction (timers s) as [|[id d] l IH]; [done|].
    rewrite filter_cons. cbn.
    assert (Some t = Some id) as Hid by (apply (Ht id d); by left).
    simplify_eq. rewrite decide_False by auto.
    apply IH. intros id' d' Hin. apply (Ht id' d'). by right.
  - destruct (timers s) as [|[id d] l]; [done|].
    specialize (Ht id d (or_introl eq_refl)). discriminate.
Qed.

Lemma internalManage_calm s :
  (forall id d, List.In (id, d) (timers s) -> retryTimer (this s) = Some id) ->
  timers (fst (internalManage s)) = []
  /\ reconfiguring (this (fst (internalManage s)))
     = negb (isReturned (snd (internalManage s)))
  /\ passProgress (fst (internalManage s)) (snd (internalManage s)).
Proof.
  intros Ht. unfold internalManage. cbn zeta.
  set (b := beginPass s).
  set (n := length (stages (this b))).
  destruct (outside_eq _ _ (stage_loop_outside n 0 b)) as (_ & _ & _ & _ & Htm & _).
  split; [|split].
  - rewrite Htm. by apply beginPass_no_timer.
  - rewrite loop_reconfiguring. unfold b.
    destruct (beginPass_flags s) as (-> & _). by destruct (isReturned _).
  - apply valid_loop; [unfold n; lia|]. intros k st Hk. lia.
Qed.

Lemma stage_configure_frame nm c s :
  reconfiguring (this (stage_configure nm c s)) = reconfiguring (this s)
  /\ configValid (this (stage_configure nm c s)) = configValid (this s)
  /\ retryTimer (this (stage_configure nm c s)) = retryTimer (this s)
  /\ timers (stage_configure nm c s) = timers s
  /\ active (this (stage_configure nm c s)) = active (this s).
Proof. repeat split; op_cases; reflexivity. Qed.

Lemma inFlight_one t s : tasks s = [t] -> inFlight s = negb (isReturned (passOf t)).
Proof. unfold inFlight. intros ->. cbn. by rewrite orb_false_r. Qed.

Lemma inFlight_none s : tasks s = [] -> inFlight s = false.
Proof. unfold inFlight. by intros ->. Qed.

(** A pass started through an open gate or from the queue. *)
Lemma calm_start (mk : Pass -> Task) s :
  (forall p, passOf (mk p) = p) ->
  active (this s) = true ->
  (forall id d, List.In (id, d) (timers s) -> retryTimer (this s) = Some id) ->
  calm (set_tasks [mk (snd (internalManage s))] (fst (internalManage s))).
Proof.
  intros Hmk Ha Ht.
  destruct (internalManage_calm s Ht) as (Htm & Hrec & Hprog).
  destruct (internalManage_gate s) as (Ha1 & _).
  set (r := internalManage s) in *. clearbody r. destruct r as [s1 p]. cbn [fst snd] in *.
  split; cbn [this tasks timers set_tasks].
  - unfold gate_ok. cbn [this tasks set_tasks]. by rewrite Ha1, Ha.
  - rewrite Hrec. unfold inFlight. cbn. by rewrite Hmk, orb_false_r.
  - rewrite Htm. by intros id d [].
  - rewrite Htm. cbn. lia.
  - done.
  - by rewrite Hmk.
Qed.

Lemma calm_manage s : calm s -> calm (manage s).
Proof.
  intros [Hg Hf Ht H1 Hq Hv].
  destruct (gate_ok_cases s Hg) as [[Ha Htk]|[Ha [t Htk]]].
  - rewrite (manage_idle_eq s Ha).
    set (s0 := modify (set_active true) s).
    destruct (internalManage_gate s0) as (_ & _ & Htk0 & _).
    rewrite Htk0. cbn [tasks modify s0]. rewrite Htk. cbn [app].
    by apply (calm_start AwaitFirst s0).
  - rewrite (manage_when_active s Ha). destruct (queued (this s)); [by split|].
    split; cbn; done.
Qed.

Lemma calm_manageDone s t :
  calm s -> tasks s = [t] -> passOf t = Returned -> calm (manageDone 0 s).
Proof.
  intros [Hg Hf Ht H1 Hq Hv] Htk Hp. rewrite Htk, Hp in Hv.
  rewrite (inFlight_one t s Htk), Hp in Hf. cbn in Hf.
  unfold manageDone. split; cbn [this tasks timers set_tasks modify]; rewrite ?Htk; cbn; try done.
Qed.

Lemma calm_settle tid env s s' : calm s -> settle tid env s = Some s' -> calm s'.
Proof.
  intros Hc Hs. pose proof Hc as [Hg Hf Ht H1 Hq Hv].
  destruct (gate_ok_cases s Hg) as [[Ha Htk]|[Ha [t Htk]]].
  { unfold settle in Hs. by rewrite Htk in Hs. }
  unfold settle in Hs. rewrite Htk in Hs.
  destruct tid as [|tid]; [|done]. cbn [lookup list_lookup] in Hs.
  rewrite Htk in Hv.
  rewrite (inFlight_one t s Htk) in Hf, Hq.
  assert (Hres : forall (mk : Pass -> Task) p,
            (forall q, passOf (mk q) = q) -> t = mk p -> isReturned p = false ->
            calm (set_tasks (<[0 := mk (snd (resumePass p env s))]>
                               (tasks (fst (resumePass p env s))))
                    (fst (resumePass p env s)))).
  { intros mk p Hmk -> Hp. rewrite Hmk in Hf, Hq, Hv. rewrite Hp in Hf, Hq. cbn in Hf, Hq.
    specialize (Hq eq_refl).
    pose proof (quiet_resumePass p env s) as [Ha1 _ Htk1 _].
    rewrite Htk1, Htk. cbn [insert list_insert].
    destruct p as [i nm c|i nm c|]; [| |done]; cbn [resumePass] in *.
    - destruct (stage_validate nm env c) as [e|]; cbn [fst snd] in *.
      + destruct (validateFailed_effect e s) as (Hst & _ & Hcv & _ & Hrc & _ & Htm & Hrt).
        split; cbn [this tasks timers set_tasks].
        * unfold gate_ok. cbn [this tasks set_tasks]. by rewrite Ha1, Ha.
        * rewrite Hrc. unfold inFlight. cbn. by rewrite Hmk.
        * rewrite Htm, Hrt, Hq. cbn.
          destruct (instanceofRetryable e); [|by intros id d []].
          intros id d [Heq|[]]. by simplify_eq.
        * rewrite Htm, Hq. cbn. destruct (instanceofRetryable e); cbn; lia.
        * unfold inFlight. cbn. rewrite Hmk. cbn. discriminate.
        * rewrite Hmk. cbn. rewrite Hcv. discriminate.
      + set (a := emit (StageConfigure i nm c) (emit (ConsoleStage nm (loggable c)) s)) in *.
        destruct (stage_configure_frame nm c a) as (Hrc & _ & Hrt & Htm & _).
        destruct (stage_configure_effect nm c a) as (Hst & _).
        split; cbn [this tasks timers set_tasks].
        * unfold gate_ok. cbn [this tasks set_tasks]. by rewrite Ha1, Ha.
        * rewrite Hrc. unfold inFlight. cbn. by rewrite Hmk.
        * rewrite Htm. cbn. rewrite Hq. by intros id d [].
        * rewrite Htm. cbn. rewrite Hq. cbn. lia.
        * intros _. rewrite Htm. exact Hq.
        * rewrite Hmk. cbn. by apply (validBelow_same i s).
    - set (a := modify _ s) in *.
      set (n := length (stages (this a)) - S i) in *.
      destruct (outside_eq _ _ (stage_loop_outside n (S i) a))
        as (_ & _ & _ & Hrt & Htm & _).
      pose proof (loop_reconfiguring n (S i) a) as Hrc.
      assert (Hprog : passProgress (fst (stage_loop n (S i) a)) (snd (stage_loop n (S i) a))).
      { apply valid_loop.
        - unfold n. lia.
        - intros k st Hk Hlk. cbn in Hlk.
          destruct (decide (k = i)) as [->|Hne].
          + rewrite list_lookup_alter_eq in Hlk.
            destruct (stages (this s) !! i); [|done]. cbn in Hlk. by simplify_eq.
          + rewrite list_lookup_alter_ne in Hlk by done. apply (Hv k st); [lia|done]. }
      split; cbn [this tasks timers set_tasks].
      * unfold gate_ok. cbn [this tasks set_tasks]. by rewrite Ha1, Ha.
      * rewrite Hrc. unfold inFlight. cbn [tasks set_tasks existsb]. rewrite Hmk, orb_false_r.
        destruct (isReturned (snd (stage_loop n (S i) a))); [done|]. exact Hf.
      * rewrite Htm. cbn. rewrite Hq. by intros id d [].
      * rewrite Htm. cbn. rewrite Hq. cbn. lia.
      * intros _. rewrite Htm. exact Hq.
      * by rewrite Hmk. }
  assert (Hqueued : forall s0,
            this s0 = set_queued false (this s) -> timers s0 = timers s ->
            tasks s0 = tasks s ->
            calm (set_tasks (<[0 := AwaitSecond (snd (internalManage s0))]>
                               (tasks (fst (internalManage s0))))
                    (fst (internalManage s0)))).
  { intros s0 Hthis Htm0 Htk0.
    destruct (internalManage_gate s0) as (_ & _ & Htk1 & _).
    rewrite Htk1, Htk0, Htk. cbn [insert list_insert].
    apply (calm_start AwaitSecond s0); [done| |].
    - rewrite Hthis. cbn. exact Ha.
    - rewrite Htm0, Hthis. cbn. exact Ht. }
  destruct t as [p|p].
  - destruct p as [i nm c|i nm c|].
    + pose proof (Hres AwaitFirst (AwaitValidate i nm c) (fun q => eq_refl) eq_refl eq_refl) as Hr.
      destruct (resumePass _ env s). by simplify_eq.
    + pose proof (Hres AwaitFirst (AwaitConfigure i nm c) (fun q => eq_refl) eq_refl eq_refl) as Hr.
      destruct (resumePass _ env s). by simplify_eq.
    + simplify_eq. unfold manageAfterFirst. destruct (queued (this s)).
      * set (s0 := modify (set_queued false) (emit _ s)).
        pose proof (Hqueued s0 eq_refl eq_refl eq_refl) as Hr.
        destruct (internalManage s0). exact Hr.
      * by apply (calm_manageDone s (AwaitFirst Returned)).
  - destruct p as [i nm c|i nm c|].
    + pose proof (Hres AwaitSecond (AwaitValidate i nm c) (fun q => eq_refl) eq_refl eq_refl) as Hr.
      destruct (resumePass _ env s). by simplify_eq.
    + pose proof (Hres AwaitSecond (AwaitConfigure i nm c) (fun q => eq_refl) eq_refl eq_refl) as Hr.
      destruct (resumePass _ env s). by simplify_eq.
    + simplify_eq. by apply (calm_manageDone s (AwaitSecond Returned)).
Qed.

(** The events that are neither a call of [manage], nor a timer, nor a crash,
    nor a settled or rejected promise of a pass leave the flags, the timers
    and the stage table alone. *)
Lemma step_frame l s s' :
  drivesPass l = false -> isRejection l = false -> step l s = Some s' ->
  stages (this s') = stages (this s)
  /\ reconfiguring (this s') = reconfiguring (this s)
  /\ configValid (this s') = configValid (this s)
  /\ retryTimer (this s') = retryTimer (this s)
  /\ timers s' = timers s
  /\ tasks s' = tasks s
  /\ active (this s') = active (this s).
Proof.
  intros Hl Hr Hstep. destruct l; try discriminate; cbn [step] in Hstep.
  - by simplify_eq.
  - simplify_eq. op_cases; done.
  - destruct (logHandler f (this s)); [|done]. simplify_eq.
    destruct f; op_cases; done.
  - simplify_eq. op_cases; done.
  - simplify_eq. op_cases; done.
  - simplify_eq. op_cases; done.
  - destruct (stopping s); [done|]. simplify_eq. op_cases; done.
Qed.

(** A rejected [configure] takes the call that awaited it out of flight and
    changes nothing else. *)
Lemma rejectConfigure_effect tid s s' :
  rejectConfigure tid s = Some s' ->
  (exists i nm c, passOf <$> tasks s !! tid = Some (AwaitConfigure i nm c))
  /\ this s' = this s /\ tasks s' = delete tid (tasks s)
  /\ timers s' = timers s /\ trace s' = trace s.
Proof.
  unfold rejectConfigure. intros H.
  destruct (passOf <$> tasks s !! tid) as [[i nm c|i nm c|]|]; simplify_eq.
  split; [by exists i, nm, c|done].
Qed.

Lemma calm_frame s s' :
  stages (this s') = stages (this s) ->
  reconfiguring (this s') = reconfiguring (this s) ->
  configValid (this s') = configValid (this s) ->
  retryTimer (this s') = retryTimer (this s) ->
  timers s' = timers s ->
  tasks s' = tasks s ->
  active (this s') = active (this s) ->
  calm s -> calm s'.
Proof.
  intros Hst Hrc Hcv Hrt Htm Htk Ha [Hg Hf Ht H1 Hq Hv].
  assert (Hin : inFlight s' = inFlight s) by (unfold inFlight; by rewrite Htk).
  split.
  - unfold gate_ok in *. by rewrite Ha, Htk.
  - by rewrite Hrc, Hin.
  - by rewrite Htm, Hrt.
  - by rewrite Htm.
  - by rewrite Hin, Htm.
  - rewrite Htk. destruct (tasks s) as [|t ts].
    + rewrite Hcv. unfold allValid. by rewrite Hst.
    + unfold passProgress, validBelow, allValid in *. rewrite Hst, Hcv. exact Hv.
Qed.

Lemma calm_drop_timer id s : calm s -> calm (drop_timer id s).
Proof.
  intros [Hg Hf Ht H1 Hq Hv]. split; try done.
  - intros id' d Hin. apply (Ht id' d). cbn in Hin.
    apply list_elem_of_In, list_elem_of_filter in Hin as [_ Hin].
    by apply list_elem_of_In.
  - cbn. etrans; [apply length_filter|done].
  - intros Hfl. cbn. change (inFlight (drop_timer id s)) with (inFlight s) in Hfl.
    by rewrite (Hq Hfl).
Qed.

Lemma calm_step l s s' :
  isCrash l = false -> isRejection l = false ->
  calm s -> step l s = Some s' -> calm s'.
Proof.
  intros Hl Hr Hc Hstep.
  destruct (drivesPass l) eqn:Hd.
  - destruct l; try discriminate; cbn [step] in Hstep.
    + simplify_eq. by apply calm_manage.
    + by eapply calm_settle.
    + destruct (timer_pending id s); [|done]. simplify_eq.
      by apply calm_manage, calm_drop_timer.
  - destruct (step_frame l s s' Hd Hr Hstep) as (? & ? & ? & ? & ? & ? & ?).
    by apply (calm_frame s s').
Qed.

(** A [configure] that rejects in a calm state leaves the gate held with no
    call in flight. *)
Lemma calm_reject tid s s' : calm s -> rejectConfigure tid s = Some s' -> wedged s'.
Proof.
  intros [Hg Hf Ht H1 Hq Hv] Hrej.
  destruct (rejectConfigure_effect tid s s' Hrej)
    as ((i & nm & c & Hlk) & Hthis & Htk & Htm & _).
  destruct (gate_ok_cases s Hg) as [[_ Hnil]|[Ha [t Hone]]].
  { rewrite Hnil in Hlk. done. }
  rewrite Hone in Hlk, Htk. destruct tid as [|tid]; [|done].
  cbn in Hlk. injection Hlk as Hp.
  assert (Hfl : inFlight s = true).
  { rewrite (inFlight_one t s Hone). by rewrite Hp. }
  unfold wedged. rewrite Hthis, Htk, Htm, Hf, Hfl. by rewrite (Hq Hfl).
Qed.

(** Once the gate is held with no call in flight it stays so: a call of
    [manage] is queued, no promise is left to settle and no timer to fire. *)
Lemma wedged_step l s s' :
  isCrash l = false -> wedged s -> step l s = Some s' -> wedged s'.
Proof.
  intros Hl (Ha & Htk & Hrc & Htm) Hstep.
  destruct (isRejection l) eqn:Hr.
  { destruct l; try discriminate. cbn [step] in Hstep.
    destruct (rejectConfigure_effect tid s s' Hstep) as ((i & nm & c & Hlk) & _).
    by rewrite Htk in Hlk. }
  destruct (drivesPass l) eqn:Hd.
  - destruct l; try discriminate; cbn [step] in Hstep.
    + simplify_eq. rewrite (manage_when_active s Ha).
      by destruct (queued (this s)).
    + unfold settle in Hstep. by rewrite Htk in Hstep.
    + unfold timer_pending in Hstep. by rewrite Htm in Hstep.
  - destruct (step_frame l s s' Hd Hr Hstep) as (_ & ? & _ & _ & ? & ? & ?).
    unfold wedged. repeat split; congruence.
Qed.

Lemma calm_run sched :
  forall s s',
    no_crash sched = true -> no_reject sched = true ->
    calm s -> run sched s = Some s' -> calm s'.
Proof.
  induction sched as [|l rest IH]; intros s s' Hnc Hnr Hc Hrun; cbn in Hrun, Hnc, Hnr.
  - by simplify_eq.
  - apply andb_true_iff in Hnc as [Hl Hnc]. apply negb_true_iff in Hl.
    apply andb_true_iff in Hnr as [Hr Hnr]. apply negb_true_iff in Hr.
    destruct (step l s) as [s1|] eqn:Hstep; [|done].
    eapply IH; [done|done| |exact Hrun]. by eapply calm_step.
Qed.

(** Without a crash the Manager is calm, or a [configure] has rejected and
    it is wedged. *)
Lemma calm_or_wedged_run sched :
  forall s s',
    no_crash sched = true -> calm s \/ wedged s -> run sched s = Some s' ->
    calm s' \/ wedged s'.
Proof.
  induction sched as [|l rest IH]; intros s s' Hnc Hc Hrun; cbn in Hrun, Hnc.
  - by simplify_eq.
  - apply andb_true_iff in Hnc as [Hl Hnc]. apply negb_true_iff in Hl.
    destruct (step l s) as [s1|] eqn:Hstep; [|done].
    eapply IH; [done| |exact Hrun].
    destruct Hc as [Hc|Hw]; [|right; by eapply wedged_step].
    destruct (isRejection l) eqn:Hr; [|left; by eapply calm_step].
    destruct l; try discriminate. right. by eapply calm_reject.
Qed.

Lemma calm_constructor c : calm (constructor c).
Proof. split; cbn; try done. lia. Qed.

(** X5.  In a run of the Manager from its construction without a crash, at
    most one retry timer is pending at any time, a pending timer is the one
    whose handle the Manager holds in [retryTimer], and no retry timer is
    pending while the Manager is reconfiguring. *)
Theorem retry_timers_do_not_pile_up :
  forall (c : ConfigService) (sched : list Label) (s' : System),
    no_crash sched = true ->
    run sched (constructor c) = Some s' ->
    length (timers s') <= 1
    /\ (forall id d, List.In (id, d) (timers s') -> retryTimer (this s') = Some id)
    /\ (reconfiguring (this s') = true -> timers s' = []).
Proof.
  intros c sched s' Hnc Hrun.
  destruct (calm_or_wedged_run sched _ _ Hnc (or_introl (calm_constructor c)) Hrun)
    as [[Hg Hf Ht H1 Hq Hv]|(_ & _ & _ & Htm)].
  - split; [done|]. split; [done|]. intros Hr. apply Hq. by rewrite <- Hf.
  - rewrite Htm. split; [cbn; lia|]. split; [|done]. intros id d [].
Qed.

(** The cloud check of the first pass runs into the deadline: one retry is
    pending. *)
Lemma retry_timers_do_not_pile_up_witness :
  length (timers (default Sample.fresh
                    (run [CallManage; Settle 0 Sample.env_timeout]
                       (constructor Sample.configCloud)))) <= 1.
Proof.
  refine (proj1 (retry_timers_do_not_pile_up Sample.configCloud
                   [CallManage; Settle 0 Sample.env_timeout]
                   (default Sample.fresh
                      (run [CallManage; Settle 0 Sample.env_timeout]
                         (constructor Sample.configCloud))) _ _)).
  - reflexivity.
  - vm_compute. reflexivity.
Defined.

(** X6.  In a run of the Manager from its construction without a crash,
    a [configure] that rejects included, while a call of [manage] is inside
    a pass that has not returned, [reconfiguring] is set and a call of
    [refreshStatus] sends Reconfiguring and nothing else. *)
Theorem reconfiguring_while_a_pass_is_under_way :
  forall (c : ConfigService) (sched : list Label) (s' : System),
    no_crash sched = true ->
    run sched (constructor c) = Some s' ->
    inFlight s' = true ->
    reconfiguring (this s') = true
    /\ emitted s' (refreshStatus s') = [SendRecStatus RecStatus.Reconfiguring None].
Proof.
  intros c sched s' Hnc Hrun Hfl.
  assert (Hrc : reconfiguring (this s') = true).
  { destruct (calm_or_wedged_run sched _ _ Hnc (or_introl (calm_constructor c)) Hrun)
      as [[Hg Hf Ht H1 Hq Hv]|(_ & _ & Hrc & _)]; [by rewrite Hf|done]. }
  split; [done|].
  rewrite (appended_emitted _ _ _ (refreshStatus_appended s')).
  unfold statusByPriority. by rewrite Hrc.
Qed.

(** The first call of [manage] waits on the validation of the base stage. *)
Lemma reconfiguring_while_a_pass_is_under_way_witness :
  reconfiguring (this Sample.started) = true
  /\ emitted Sample.started (refreshStatus Sample.started)
     = [SendRecStatus RecStatus.Reconfiguring None].
Proof.
  refine (reconfiguring_while_a_pass_is_under_way Sample.config [CallManage]
            Sample.started _ _ _).
  - reflexivity.
  - vm_compute. reflexivity.
  - vm_compute. reflexivity.
Defined.

(** X7.  In a run of the Manager from its construction without a crash,
    whenever the Manager is not reconfiguring and holds its configuration
    for valid, every stage is valid; so a call of [refreshStatus] sends a
    status other than Reconfiguring and InvalidConfig only when every stage
    is valid. *)
Theorem valid_configuration_means_every_stage_valid :
  forall (c : ConfigService) (sched : list Label) (s' : System),
    no_crash sched = true ->
    run sched (constructor c) = Some s' ->
    (reconfiguring (this s') = false -> configValid (this s') = true -> allValid s')
    /\ (forall st msg,
          List.In (SendRecStatus st msg) (emitted s' (refreshStatus s')) ->
          st <> RecStatus.Reconfiguring -> st <> RecStatus.InvalidConfig ->
          allValid s').
Proof.
  intros c sched s' Hnc Hrun.
  assert (Hmain : reconfiguring (this s') = false -> configValid (this s') = true ->
                  allValid s').
  { intros Hr Hcv.
    destruct (calm_or_wedged_run sched _ _ Hnc (or_introl (calm_constructor c)) Hrun)
      as [[Hg Hf Ht H1 Hq Hv]|(_ & _ & Hrc & _)]; [|congruence].
    rewrite Hf in Hr.
    destruct (gate_ok_cases s' Hg) as [[_ Htk]|[_ [t Htk]]]; rewrite Htk in Hv.
    - by apply Hv.
    - rewrite (inFlight_one t s' Htk) in Hr. apply negb_false_iff in Hr.
      destruct (passOf t); try discriminate. by apply Hv. }
  split; [done|]. intros st msg Hin Hn1 Hn2.
  rewrite (appended_emitted _ _ _ (refreshStatus_appended s')) in Hin.
  unfold statusByPriority in Hin.
  destruct (reconfiguring (this s')) eqn:Hr.
  { cbn in Hin. destruct Hin as [Hin|[]]. by simplify_eq. }
  destruct (configValid (this s')) eqn:Hcv.
  - by apply Hmain.
  - cbn in Hin. destruct Hin as [Hin|[]]. by simplify_eq.
Qed.

(** After the first call of [manage] has run to its end. *)
Lemma valid_configuration_means_every_stage_valid_witness :
  allValid Sample.configured.
Proof.
  refine (proj1 (valid_configuration_means_every_stage_valid Sample.config
                   (CallManage :: replicate 11 Sample.ok) Sample.configured _ _) _ _).
  - reflexivity.
  - vm_compute. reflexivity.
  - vm_compute. reflexivity.
  - vm_compute. reflexivity.
Defined.

(** While the Manager is wedged a step starts no pass and leaves the stage
    table alone. *)
Lemma wedged_step_still l s s' :
  isCrash l = false -> wedged s -> step l s = Some s' ->
  passes s' = passes s /\ stages (this s') = stages (this s).
Proof.
  intros Hl (Ha & Htk & Hrc & Htm) Hstep.
  destruct (isRejection l) eqn:Hr.
  { destruct l; try discriminate. cbn [step] in Hstep.
    destruct (rejectConfigure_effect tid s s' Hstep) as ((i & nm & c & Hlk) & _).
    by rewrite Htk in Hlk. }
  destruct (drivesPass l) eqn:Hd.
  - destruct l; try discriminate; cbn [step] in Hstep.
    + simplify_eq. destruct (manage_active_effect s Ha) as (-> & _ & _ & ->). done.
    + unfold settle in Hstep. by rewrite Htk in Hstep.
    + unfold timer_pending in Hstep. by rewrite Htm in Hstep.
  - destruct (step_frame l s s' Hd Hr Hstep) as (-> & _).
    by destruct (step_quiet l s s' Hd Hr Hstep) as [_ _ _ ->].
Qed.

Lemma wedged_run sched :
  forall s s',
    no_crash sched = true -> wedged s -> run sched s = Some s' ->
    wedged s' /\ passes s' = passes s /\ stages (this s') = stages (this s).
Proof.
  induction sched as [|l rest IH]; intros s s' Hnc Hw Hrun; cbn in Hrun, Hnc.
  - by simplify_eq.
  - apply andb_true_iff in Hnc as [Hl Hnc]. apply negb_true_iff in Hl.
    destruct (step l s) as [s1|] eqn:Hstep; [|done].
    destruct (wedged_step_still l s s1 Hl Hw Hstep) as [Hp Hst].
    destruct (IH s1 s' Hnc (wedged_step l s s1 Hl Hw Hstep) Hrun) as (Hw' & Hp' & Hst').
    split; [done|]. split; congruence.
Qed.

(** X23.  [manage] awaits the [configure] of a stage outside any [try].  In
    a run of the Manager from its construction without a crash, when that
    promise rejects the call of [manage] ends there and the Manager itself
    is left as it was, [active] and [reconfiguring] set; nothing resets
    them: whatever follows without a crash, no call of [manage] is in
    flight, no pass is started, the stage table stays as it is, no retry
    timer is pending, and [refreshStatus] sends Reconfiguring. *)
Theorem rejected_configure_wedges_the_gate :
  forall (c : ConfigService) (sched : list Label) (tid : nat) (s s1 : System),
    no_crash sched = true ->
    run sched (constructor c) = Some s ->
    step (ConfigureRejects tid) s = Some s1 ->
    this s1 = this s
    /\ tasks s1 = []
    /\ active (this s1) = true
    /\ reconfiguring (this s1) = true
    /\ forall (sched' : list Label) (s2 : System),
         no_crash sched' = true ->
         run sched' s1 = Some s2 ->
         tasks s2 = []
         /\ active (this s2) = true
         /\ reconfiguring (this s2) = true
         /\ timers s2 = []
         /\ passes s2 = passes s1
         /\ stages (this s2) = stages (this s1)
         /\ emitted s2 (refreshStatus s2) = [SendRecStatus RecStatus.Reconfiguring None].
Proof.
  intros c sched tid s s1 Hnc Hrun Hstep. cbn [step] in Hstep.
  destruct (rejectConfigure_effect tid s s1 Hstep) as ((i & nm & x & Hlk) & Hthis & _).
  assert (Hw : wedged s1).
  { destruct (calm_or_wedged_run sched _ _ Hnc (or_introl (calm_constructor c)) Hrun)
      as [Hc|(_ & Htk & _)]; [by apply (calm_reject tid s)|].
    by rewrite Htk in Hlk. }
  pose proof Hw as (Ha & Htk & Hrc & _).
  split; [done|]. split; [done|]. split; [done|]. split; [done|].
  intros sched' s2 Hnc' Hrun'.
  destruct (wedged_run sched' s1 s2 Hnc' Hw Hrun') as ((Ha2 & Htk2 & Hrc2 & Htm2) & Hp & Hst).
  repeat (split; [done|]).
  rewrite (appended_emitted _ _ _ (refreshStatus_appended s2)).
  unfold statusByPriority. by rewrite Hrc2.
Qed.

(** The [configure] of the base stage rejects in the first pass; two calls
    of [manage] and a change of the settings follow. *)
Lemma rejected_configure_wedges_the_gate_witness :
  tasks Sample.afterRejection = []
  /\ active (this Sample.afterRejection) = true
  /\ reconfiguring (this Sample.afterRejection) = true
  /\ timers Sample.afterRejection = []
  /\ passes Sample.afterRejection = passes Sample.rejected
  /\ stages (this Sample.afterRejection) = stages (this Sample.rejected)
  /\ emitted Sample.afterRejection (refreshStatus Sample.afterRejection)
     = [SendRecStatus RecStatus.Reconfiguring None].
Proof.
  refine (proj2 (proj2 (proj2 (proj2
    (rejected_configure_wedges_the_gate Sample.config [CallManage; Sample.ok] 0
       Sample.applyingBase Sample.rejected _ _ _))))
    [CallManage; ConfigChanged Sample.configAudio2; CallManage]
    Sample.afterRejection _ _).
  - reflexivity.
  - vm_compute. reflexivity.
  - vm_compute. reflexivity.
  - reflexivity.
  - vm_compute. reflexivity.
Defined.

(** ** A pass ends, and visits the stages in order *)

Lemma stage_loop_length n i s :
  length (stages (this (fst (stage_loop n i s)))) = length (stages (this s)).
Proof.
  apply (stage_loop_cases (fun i s r =>
    length (stages (this (fst r))) = length (stages (this s)))).
  - intros j t. cbn [fst]. by rewrite passSucceeded_stages.
  - intros j t stage _ _. cbn. unfold fetchStage.
    destruct (isEqual _ _); cbn; [done|]. by rewrite length_alter.
  - intros j t stage [t' p] _ _ _ H. exact H.
Qed.

Lemma loop_inBounds n i s :
  inBounds (fst (stage_loop n i s)) (snd (stage_loop n i s))
  /\ match snd (stage_loop n i s) with
     | AwaitValidate j _ _ => i <= j
     | AwaitConfigure _ _ _ => False
     | Returned => True
     end.
Proof.
  destruct (stage_loop_table n i s) as (_ & _ & Hres). unfold loop_result in Hres.
  destruct (snd (stage_loop n i s)) as [j nm c|j nm c|]; [|done|done].
  destruct Hres as (Hle & _ & st & _ & Hlk & _). split; [|done].
  cbn. by apply lookup_lt_Some in Hlk.
Qed.

Lemma resumePass_length p env s :
  length (stages (this (fst (resumePass p env s)))) = length (stages (this s)).
Proof.
  destruct p as [i nm c|i nm c|]; cbn [resumePass].
  - destruct (stage_validate nm env c) as [e|]; cbn [fst].
    + by destruct (validateFailed_effect e s) as (-> & _).
    + by destruct (stage_configure_effect nm c
                     (emit (StageConfigure i nm c) (emit (ConsoleStage nm (loggable c)) s)))
        as (-> & _).
  - rewrite stage_loop_length. cbn. by rewrite length_alter.
  - done.
Qed.

(** Each settled promise brings the pass nearer to its end. *)
Lemma resumePass_measure p env s :
  inBounds s p -> isReturned p = false ->
  inBounds (fst (resumePass p env s)) (snd (resumePass p env s))
  /\ awaitsLeft (length (stages (this s))) (snd (resumePass p env s))
     < awaitsLeft (length (stages (this s))) p.
Proof.
  intros Hb Hp. pose proof (resumePass_length p env s) as Hlen.
  destruct p as [i nm c|i nm c|]; [| |done]; cbn [resumePass] in *; cbn in Hb.
  - destruct (stage_validate nm env c) as [e|]; cbn [fst snd inBounds awaitsLeft] in *.
    + split; [done|]. lia.
    + split; [lia|]. lia.
  - set (a := modify _ s) in *.
    destruct (loop_inBounds (length (stages (this a)) - S i) (S i) a) as [Hb' Hle].
    split; [done|].
    destruct (snd (stage_loop _ _ a)) as [j nm' c'|j nm' c'|]; [|done|]; cbn in *; lia.
Qed.

Lemma runPass_ends envs :
  forall s p,
    inBounds s p ->
    awaitsLeft (length (stages (this s))) p <= length envs ->
    snd (runPass envs (s, p)) = Returned.
Proof.
  induction envs as [|env envs IH]; intros s p Hb Hm.
  - destruct p; cbn in *; try done; lia.
  - destruct (isReturned p) eqn:Hp.
    { by destruct p. }
    destruct (resumePass_measure p env s Hb Hp) as [Hb' Hlt].
    pose proof (resumePass_length p env s) as Hlen.
    assert (Hgo : runPass (env :: envs) (s, p) = runPass envs (resumePass p env s))
      by by destruct p.
    rewrite Hgo. rewrite (surjective_pairing (resumePass p env s)).
    apply IH; [done|]. rewrite Hlen. cbn in Hm. lia.
Qed.

(** X8.  A pass awaits at most two promises for each stage, the answer of
    its validator and the end of its [configure]: whatever the validators
    answer, once twice as many promises as there are stages have settled the
    pass has returned. *)
Theorem pass_returns_after_two_awaits_per_stage :
  forall (s0 : System) (envs : list Env),
    2 * length (stages (this s0)) <= length envs ->
    snd (runPass envs (internalManage s0)) = Returned.
Proof.
  intros s0 envs Hlen.
  rewrite (surjective_pairing (internalManage s0)).
  unfold internalManage. cbn zeta.
  destruct (beginPass_this s0) as (Hst & _).
  set (b := beginPass s0) in *.
  destruct (loop_inBounds (length (stages (this b))) 0 b) as [Hb _].
  apply runPass_ends; [done|].
  rewrite stage_loop_length.
  generalize (snd (stage_loop (length (stages (this b))) 0 b)). intros p.
  rewrite Hst. destruct p; cbn [awaitsLeft]; lia.
Qed.

(** The first pass of a fresh Manager, with ten promises settled. *)
Lemma pass_returns_after_two_awaits_per_stage_witness :
  snd (runPass (replicate 10 Sample.env_ok) (internalManage Sample.fresh)) = Returned.
Proof.
  refine (pass_returns_after_two_awaits_per_stage Sample.fresh
            (replicate 10 Sample.env_ok) _).
  vm_compute. lia.
Defined.

Lemma getCalls_app a b : getCalls (a ++ b) = getCalls a ++ getCalls b.
Proof. apply omap_app. Qed.

Lemma configureCalls_app a b : configureCalls (a ++ b) = configureCalls a ++ configureCalls b.
Proof. apply omap_app. Qed.

Lemma side_no_calls evs :
  Forall (fun e => sideEvent e = true) evs ->
  getCalls evs = [] /\ configureCalls evs = [].
Proof.
  induction 1 as [|e evs He _ [IH1 IH2]]; [done|].
  destruct e; try discriminate; cbn; by rewrite ?IH1, ?IH2.
Qed.

(** The calls of the loop from index [i] on, given the iterations it needs
    to reach the end of the table. *)
Lemma order_loop n :
  forall i s,
    exists evs k,
      appended s (fst (stage_loop n i s)) evs
      /\ getCalls evs = seq i k
      /\ configureCalls evs = []
      /\ match snd (stage_loop n i s) with
         | AwaitValidate j _ _ => i + k = S j
         | AwaitConfigure _ _ _ => False
         | Returned =>
             length (stages (this s)) <= n + i -> i <= length (stages (this s)) ->
             i + k = length (stages (this s))
         end.
Proof.
  induction n as [|n IH]; intros i s; cbn [stage_loop].
  { destruct (side_passSucceeded s) as (evs & Happ & Hev).
    destruct (side_no_calls evs Hev) as [Hg Hc].
    exists evs, 0. cbn [fst snd]. split; [done|]. split; [done|]. split; [done|]. lia. }
  destruct (stages (this s) !! i) as [stage|] eqn:Hst.
  2:{ destruct (side_passSucceeded s) as (evs & Happ & Hev).
      destruct (side_no_calls evs Hev) as [Hg Hc]. apply lookup_ge_None in Hst.
      exists evs, 0. cbn [fst snd]. split; [done|]. split; [done|]. split; [done|]. lia. }
  pose proof (lookup_lt_Some _ _ _ Hst) as Hlt.
  cbn. destruct (isEqual _ _) eqn:Heq; cbn.
  - destruct (valid stage) eqn:Hvs; cbn.
    + destruct (IH (S i) (emit (StageGet i (name stage)) s)) as (evs & k & Happ & Hg & Hc & Hp).
      exists (StageGet i (name stage) :: evs), (S k). split; [|split; [|split]].
      * unfold appended in *. rewrite Happ. cbn. by rewrite <- app_assoc.
      * change (getCalls (StageGet i (name stage) :: evs)) with (i :: getCalls evs).
        by rewrite Hg.
      * done.
      * destruct (snd (stage_loop n (S i) _)); [lia|done|]. cbn in Hp. lia.
    + exists [StageGet i (name stage);
              StageValidate i (name stage) (stage_get (name stage) (cfg (this s)))], 1.
      split; [unfold appended; cbn; by rewrite <- app_assoc|].
      split; [done|]. split; [done|]. lia.
  - exists [StageGet i (name stage);
            StageValidate i (name stage) (stage_get (name stage) (cfg (this s)))], 1.
    split; [unfold appended; cbn; by rewrite <- app_assoc|].
    split; [done|]. split; [done|]. lia.
Qed.

Lemma sublist_seq_le i j l : i <= j -> l `sublist_of` seq 0 i -> l `sublist_of` seq 0 j.
Proof.
  intros Hij Hl. replace j with (i + (j - i)) by lia. rewrite seq_app.
  by apply sublist_inserts_r.
Qed.

Lemma order_inv_begin s0 : order_inv s0 (internalManage s0).
Proof.
  unfold internalManage. cbn zeta.
  destruct (side_beginPass s0) as (e1 & H1 & Hs1).
  destruct (side_no_calls e1 Hs1) as [Hg1 Hc1].
  destruct (beginPass_this s0) as (Hst & _).
  set (b := beginPass s0) in *.
  destruct (order_loop (length (stages (this b))) 0 b) as (e2 & k & H2 & Hg2 & Hc2 & Hp).
  destruct (loop_inBounds (length (stages (this b))) 0 b) as [Hb _].
  pose proof (stage_loop_length (length (stages (this b))) 0 b) as Hlen.
  destruct (stage_loop_table (length (stages (this b))) 0 b) as (_ & _ & Hres).
  unfold loop_result in Hres.
  set (r := stage_loop (length (stages (this b))) 0 b) in *. clearbody r.
  assert (Hlb : length (stages (this b)) = length (stages (this s0))) by by rewrite Hst.
  exists (e1 ++ e2), k.
  split; [unfold appended in *; by rewrite H2, H1, app_assoc|].
  split; [congruence|].
  split; [by rewrite getCalls_app, Hg1, Hg2|].
  rewrite configureCalls_app, Hc1, Hc2. cbn [app].
  destruct (snd r) as [j nm c|j nm c|]; [|done|].
  - cbn in Hb. split; [lia|]. split; [lia|]. apply sublist_nil_l.
  - specialize (Hp ltac:(lia) ltac:(lia)).
    split; [lia|]. split; [apply sublist_nil_l|]. intros _. lia.
Qed.

Lemma order_inv_resume s0 s p env :
  order_inv s0 (s, p) -> order_inv s0 (resumePass p env s).
Proof.
  intros (evs & m & Happ & Hlen & Hg & Hm & Hp). cbn [fst snd] in *.
  destruct p as [i nm c|i nm c|]; cbn [resumePass].
  - destruct Hp as [-> Hsub].
    destruct (stage_validate nm env c) as [e|]; cbn [fst snd].
    + destruct (side_validateFailed e s) as (e1 & H1 & Hs1).
      destruct (side_no_calls e1 Hs1) as [Hg1 Hc1].
      destruct (validateFailed_effect e s) as (Hst & _ & Hcv & _).
      exists (evs ++ e1), (S i). cbn [fst snd].
      split; [unfold appended in *; by rewrite H1, Happ, app_assoc|].
      split; [by rewrite Hst|].
      split; [by rewrite getCalls_app, Hg1, app_nil_r|]. split; [done|].
      rewrite configureCalls_app, Hc1, app_nil_r.
      split; [apply (sublist_seq_le i); [lia|done]|]. rewrite Hcv. discriminate.
    + set (a := emit (StageConfigure i nm c) (emit (ConsoleStage nm (loggable c)) s)).
      destruct (side_stage_configure nm c a) as (e1 & H1 & Hs1).
      destruct (side_no_calls e1 Hs1) as [Hg1 Hc1].
      destruct (stage_configure_effect nm c a) as (Hst & _).
      exists ((evs ++ [ConsoleStage nm (loggable c); StageConfigure i nm c]) ++ e1), (S i).
      cbn [fst snd]. split.
      { unfold appended in *. rewrite H1. cbn. rewrite Happ. by rewrite <- !app_assoc. }
      split; [by rewrite Hst|].
      split; [rewrite !getCalls_app, Hg1; cbn; by rewrite !app_nil_r|]. split; [done|].
      split; [done|].
      rewrite !configureCalls_app, Hc1, app_nil_r.
      change (configureCalls [ConsoleStage nm (loggable c); StageConfigure i nm c])
        with [i].
      rewrite seq_S. by apply sublist_app.
  - destruct Hp as [-> Hsub].
    set (a := modify _ s).
    assert (Hla : length (stages (this a)) = length (stages (this s0))).
    { cbn. by rewrite length_alter. }
    destruct (order_loop (length (stages (this a)) - S i) (S i) a)
      as (e2 & k & H2 & Hg2 & Hc2 & Hp).
    destruct (loop_inBounds (length (stages (this a)) - S i) (S i) a) as [Hb Hle].
    pose proof (stage_loop_length (length (stages (this a)) - S i) (S i) a) as Hlen'.
    destruct (stage_loop_table (length (stages (this a)) - S i) (S i) a) as (_ & _ & Hres).
    unfold loop_result in Hres.
    set (r := stage_loop (length (stages (this a)) - S i) (S i) a) in *. clearbody r.
    exists (evs ++ e2), (S i + k).
    split; [unfold appended in *; by rewrite H2, app_assoc, <- Happ|].
    split; [congruence|].
    split; [by rewrite getCalls_app, Hg, Hg2, seq_app|].
    rewrite configureCalls_app, Hc2, app_nil_r.
    destruct (snd r) as [j nm' c'|j nm' c'|]; [|done|].
    + cbn in Hb. split; [lia|]. split; [lia|]. apply (sublist_seq_le (S i)); [lia|done].
    + specialize (Hp ltac:(lia) ltac:(lia)).
      split; [lia|]. split; [apply (sublist_seq_le (S i)); [lia|done]|]. intros _. lia.
  - exists evs, m. by cbn.
Qed.

Lemma order_inv_run s0 envs :
  forall sp, order_inv s0 sp -> order_inv s0 (runPass envs sp).
Proof.
  induction envs as [|env envs IH]; intros [s p] Hinv; [done|].
  destruct p as [i nm c|i nm c|]; [| |done].
  - apply (IH (resumePass (AwaitValidate i nm c) env s)). by apply order_inv_resume.
  - apply (IH (resumePass (AwaitConfigure i nm c) env s)). by apply order_inv_resume.
Qed.

(** X9.  A pass calls [get] on the stages in the order of the table, each
    once and without a gap, from the first up to the stage it waits on or
    aborts at; a pass that returns with a valid configuration has fetched
    every stage.  The stages it applies, it applies in the order of the
    table and each at most once. *)
Theorem pass_visits_stages_in_order :
  forall (s0 : System) (envs : list Env),
    let r := runPass envs (internalManage s0) in
    exists m,
      getCalls (emitted s0 (fst r)) = seq 0 m
      /\ configureCalls (emitted s0 (fst r)) `sublist_of` seq 0 m
      /\ m <= length (stages (this s0))
      /\ match snd r with
         | AwaitValidate i _ _ | AwaitConfigure i _ _ => m = S i
         | Returned => configValid (this (fst r)) = true -> m = length (stages (this s0))
         end.
Proof.
  intros s0 envs. cbn zeta.
  destruct (order_inv_run s0 envs _ (order_inv_begin s0))
    as (evs & m & Happ & _ & Hg & Hm & Hp).
  exists m. rewrite (appended_emitted _ _ _ Happ).
  split; [done|].
  destruct (snd (runPass envs (internalManage s0))) as [i nm c|i nm c|].
  - destruct Hp as [-> Hsub]. split; [|done]. apply (sublist_seq_le i); [lia|done].
  - by destruct Hp as [-> Hsub].
  - by destruct Hp as [Hsub Hv].
Qed.

(** ** The stage table keeps its shape *)

Lemma names_alter (f : ConfigStage -> ConfigStage) i (l : list ConfigStage) :
  (forall x, name (f x) = name x) -> name <$> alter f i l = name <$> l.
Proof.
  intros Hf. apply list_eq. intros k. rewrite !list_lookup_fmap.
  destruct (decide (k = i)) as [->|Hne].
  - rewrite list_lookup_alter_eq. destruct (l !! i); cbn; by rewrite ?Hf.
  - by rewrite list_lookup_alter_ne.
Qed.

Lemma stage_loop_names n i s :
  name <$> stages (this (fst (stage_loop n i s))) = name <$> stages (this s).
Proof.
  apply (stage_loop_cases (fun i s r =>
    name <$> stages (this (fst r)) = name <$> stages (this s))).
  - intros j t. cbn [fst]. by rewrite passSucceeded_stages.
  - intros j t stage _ _. cbn. unfold fetchStage.
    destruct (isEqual _ _); cbn; [done|]. by apply names_alter.
  - intros j t stage [t' p] _ _ _ H. exact H.
Qed.

Lemma internalManage_names s :
  name <$> stages (this (fst (internalManage s))) = name <$> stages (this s).
Proof.
  unfold internalManage. cbn zeta. rewrite stage_loop_names.
  by destruct (beginPass_this s) as (-> & _).
Qed.

Lemma resumePass_names p env s :
  name <$> stages (this (fst (resumePass p env s))) = name <$> stages (this s).
Proof.
  destruct p as [i nm c|i nm c|]; cbn [resumePass].
  - destruct (stage_validate nm env c) as [e|]; cbn [fst].
    + by destruct (validateFailed_effect e s) as (-> & _).
    + by destruct (stage_configure_effect nm c
                     (emit (StageConfigure i nm c) (emit (ConsoleStage nm (loggable c)) s)))
        as (-> & _).
  - rewrite stage_loop_names. cbn. by apply names_alter.
  - done.
Qed.

Lemma manage_names s : name <$> stages (this (manage s)) = name <$> stages (this s).
Proof.
  unfold manage. destruct (active (this s)).
  - by destruct (queued (this s)).
  - pose proof (internalManage_names (modify (set_active true) s)) as H.
    by destruct (internalManage _).
Qed.

Lemma settle_names tid env s s' :
  settle tid env s = Some s' -> name <$> stages (this s') = name <$> stages (this s).
Proof.
  unfold settle. intros H.
  assert (Hres : forall (mk : Pass -> Task) p x,
            (let '(s1, p') := resumePass p env s in
             Some (set_tasks (<[tid := mk p']> (tasks s1)) s1)) = Some x ->
            name <$> stages (this x) = name <$> stages (this s)).
  { intros mk p x Hx. pose proof (resumePass_names p env s) as Hn.
    destruct (resumePass p env s). by simplify_eq. }
  assert (Hafter : name <$> stages (this (manageAfterFirst tid s)) = name <$> stages (this s)).
  { unfold manageAfterFirst. destruct (queued (this s)); [|done].
    set (s0 := modify _ (emit _ s)). pose proof (internalManage_names s0) as Hn.
    by destruct (internalManage s0). }
  destruct (tasks s !! tid) as [[p|p]|]; [| |done].
  - destruct p as [i nm c|i nm c|]; [by eapply (Hres AwaitFirst)|by eapply (Hres AwaitFirst)|].
    by simplify_eq.
  - destruct p as [i nm c|i nm c|]; [by eapply (Hres AwaitSecond)|by eapply (Hres AwaitSecond)|].
    by simplify_eq.
Qed.

Lemma step_names l s s' :
  step l s = Some s' -> name <$> stages (this s') = name <$> stages (this s).
Proof.
  intros Hstep. destruct (isRejection l) eqn:Hr.
  { destruct l; try discriminate. cbn [step] in Hstep.
    by destruct (rejectConfigure_effect tid s s' Hstep) as (_ & -> & _). }
  destruct (drivesPass l) eqn:Hd.
  - destruct l; try discriminate; cbn [step] in Hstep.
    + simplify_eq. apply manage_names.
    + by eapply settle_names.
    + destruct (timer_pending id s); [|done]. simplify_eq.
      apply (manage_names (drop_timer id s)).
    + simplify_eq. unfold recoverRecorderFromCrash. rewrite manage_names.
      destruct (resetAfterCrash_effect s) as (_ & _ & -> & _).
      rewrite <- list_fmap_compose. by apply list_fmap_ext.
  - by destruct (step_frame l s s' Hd Hr Hstep) as (-> & _).
Qed.

(** X10.  In every run of the Manager from its construction, crashes
    included, the stage table consists of the same five stages in the same
    order: base, video, audio, flavour, overlay. *)
Theorem stage_table_keeps_its_stages :
  forall (c : ConfigService) (sched : list Label) (s' : System),
    run sched (constructor c) = Some s' ->
    name <$> stages (this s') = [obsBase; obsVideo; obsAudio; flavour; overlay].
Proof.
  intros c sched. change [obsBase; obsVideo; obsAudio; flavour; overlay]
    with (name <$> stages (this (constructor c))).
  generalize (constructor c).
  induction sched as [|l rest IH]; intros s s' Hrun; cbn in Hrun.
  - by simplify_eq.
  - destruct (step l s) as [s1|] eqn:Hstep; [|done].
    rewrite (IH s1 s' Hrun). by eapply step_names.
Qed.

(** A crash while the first pass waits on the video stage. *)
Lemma stage_table_keeps_its_stages_witness :
  name <$> stages (this (default Sample.fresh (run Sample.crashDuringPass Sample.fresh)))
  = [obsBase; obsVideo; obsAudio; flavour; overlay].
Proof.
  refine (stage_table_keeps_its_stages Sample.config Sample.crashDuringPass
            (default Sample.fresh (run Sample.crashDuringPass Sample.fresh)) _).
  vm_compute. reflexivity.
Defined.

(** X11.  The first call of [manage] on a freshly constructed Manager goes
    through the gate and starts a pass in which no stage is skipped: with
    every validator accepting, the pass fetches, validates and applies the
    five stages in the order of the table, each once, and returns with the
    configuration valid and every stage holding the snapshot of the
    settings. *)
Theorem first_call_applies_every_stage :
  forall (c : ConfigService) (envs : list Env),
    forallb (fun env => allAccept env (initialStages c) c) envs = true ->
    10 <= length envs ->
    exists p,
      tasks (manage (constructor c)) = [AwaitFirst p]
      /\ snd (runPass envs (manage (constructor c), p)) = Returned
      /\ List.filter isStageEvent
           (emitted (constructor c) (fst (runPass envs (manage (constructor c), p))))
         = fullPassCalls 0 (initialStages c) c
      /\ stages (this (fst (runPass envs (manage (constructor c), p))))
         = applied c <$> initialStages c
      /\ configValid (this (fst (runPass envs (manage (constructor c), p)))) = true.
Proof.
  intros c envs Hacc Hlen.
  assert (Hinv : Forall (fun st => valid st = false) (stages (this (constructor c))))
    by (repeat constructor).
  destruct (manage_all_invalid (constructor c) eq_refl Hinv)
    as (p & evs & Htk & Hst & Hc & _ & _ & _ & Happ & Hm).
  set (s1 := manage (constructor c)) in *. clearbody s1.
  exists p. split; [exact Htk|].
  cbn [stages this constructor initialStages] in Hm. destruct Hm as [-> Hf].
  cbn [name] in Hf |- *.
  pose proof (full_pass (tail (initialStages c)) [] _ s1 envs Hst) as Hfull.
  cbn zeta in Hfull. rewrite Hc in Hfull. cbn [length name cfg this constructor] in Hfull.
  destruct Hfull as (Hr & (evs2 & Happ2 & Hf2) & Hfin & Hcv).
  - repeat constructor.
  - apply forallb_Forall in Hacc. exact Hacc.
  - cbn. lia.
  - split; [exact Hr|]. split; [|split; [exact Hfin|exact Hcv]].
    pose proof (appended_trans _ _ _ _ _ Happ Happ2) as Hall.
    apply appended_emitted in Hall.
    etrans; [exact (f_equal (List.filter isStageEvent) Hall)|].
    rewrite List.filter_app, Hf, Hf2. reflexivity.
Qed.

(** The first call of [manage] of [Sample.fresh], everything outside being
    in order. *)
Lemma first_call_applies_every_stage_witness :
  exists p,
    tasks (manage (constructor Sample.config)) = [AwaitFirst p]
    /\ snd (runPass (replicate 10 Sample.env_ok) (manage (constructor Sample.config), p))
       = Returned
    /\ List.filter isStageEvent
         (emitted (constructor Sample.config)
            (fst (runPass (replicate 10 Sample.env_ok)
                    (manage (constructor Sample.config), p))))
       = fullPassCalls 0 (initialStages Sample.config) Sample.config
    /\ stages (this (fst (runPass (replicate 10 Sample.env_ok)
                            (manage (constructor Sample.config), p))))
       = applied Sample.config <$> initialStages Sample.config
    /\ configValid (this (fst (runPass (replicate 10 Sample.env_ok)
                                 (manage (constructor Sample.config), p)))) = true.
Proof.
  refine (first_call_applies_every_stage Sample.config (replicate 10 Sample.env_ok) _ _).
  - vm_compute. reflexivity.
  - vm_compute. lia.
Defined.

(** ** The game stops; the stages are applied *)

(** The two steps of a call of [onWowStopped], one after the other, are the
    function run through. *)
Lemma wow_stop_then_settle s :
  run [WowProcessStop; WowStopSettles] s
  = Some (set_stopping (stopping s)
            (onWowStopped (modify (set_poller {| isWowRunning := false |}) s))).
Proof.
  cbn. unfold onWowStopped, onWowStoppedEnd, onWowStoppedBegin. cbn.
  by repeat (case_match; cbn).
Qed.

(** X12.  When the game stops (or Windows goes to sleep) the Manager ends
    the activity of at most one log handler, the first of retail, classic
    and era that has one, and stops the recorder only if none has; in every
    case it then, the promise of that call having resolved, detaches the
    audio sources, which is its last call, and it changes nothing else of
    its own state. *)
Theorem wow_stopped_detaches_audio :
  forall s : System,
    let s' := onWowStopped s in
    forceEnded (emitted s s')
    = (if optflag activity (retailLogHandler (this s)) then [Retail]
       else if optflag activity (classicLogHandler (this s)) then [Classic]
       else if optflag activity (eraLogHandler (this s)) then [Era]
       else [])
    /\ List.filter isRecorderCall (emitted s s')
       = (if inActivity (this s) then [] else [OnRecorder R_stop])
         ++ [OnRecorder R_removeAudioSources]
    /\ last (trace s') = Some (OnRecorder R_removeAudioSources)
    /\ audioSources (recorder (this s')) = None
    /\ obsState (recorder (this s')) = obsState (recorder (this s))
    /\ stages (this s') = stages (this s)
    /\ tasks s' = tasks s
    /\ configValid (this s') = configValid (this s).
Proof.
  intros s. cbn zeta. unfold onWowStopped, onWowStoppedEnd, onWowStoppedBegin,
    inActivity, emitted, recorder_removeAudioSources. cbn.
  destruct (optflag activity (retailLogHandler (this s))); cbn;
    [rewrite <- !app_assoc, drop_app_length, ?app_assoc, !last_snoc; done|].
  destruct (optflag activity (classicLogHandler (this s))); cbn;
    [rewrite <- !app_assoc, drop_app_length, ?app_assoc, !last_snoc; done|].
  destruct (optflag activity (eraLogHandler (this s))); cbn;
    rewrite <- !app_assoc, drop_app_length, ?app_assoc, !last_snoc; done.
Qed.


Lemma createHandler_handler f g record logPath config s :
  logHandler g (this (createHandler f record logPath config s))
  = if decide (g = f)
    then (if truthy (field config record) then Some newLogHandler
          else logHandler g (this s))
    else logHandler g (this s).
Proof.
  unfold createHandler. destruct (truthy (field config record)).
  - destruct f, g; cbn; done.
  - by destruct (decide (g = f)).
Qed.

Lemma destroyHandler_this f s : this (destroyHandler f s) = this s.
Proof. unfold destroyHandler. by destruct (logHandler f (this s)). Qed.

Lemma createHandler_recorder f record logPath config s :
  recorder (this (createHandler f record logPath config s)) = recorder (this s)
  /\ stages (this (createHandler f record logPath config s)) = stages (this s).
Proof.
  unfold createHandler. destruct (truthy (field config record)); [|done].
  by destruct f.
Qed.

(** X14.  Applying the flavour stage makes these calls, in this order and
    no others: it stops the recorder if it is recording; for each of
    retail, classic and era whose log handler the Manager holds it removes
    the handler's listeners and destroys it; for each flavour that the
    snapshot switches on it creates a handler on the log path of the
    snapshot; and it reconfigures and starts the poller.  Afterwards the
    Manager holds a fresh handler, with no activity and not overrunning, for
    each flavour switched on; for a flavour that is switched off it keeps
    the handler it held: the handler has been destroyed, the field is not
    cleared. *)
Theorem flavour_stage_renews_handlers :
  forall (config : JsObject) (s : System) (f : Flavour),
    let s' := configureFlavour config s in
    logHandler f (this s')
    = (if truthy (field config (recordKey f)) then Some newLogHandler
       else logHandler f (this s))
    /\ emitted s s'
       = (if bool_decide (obsState (recorder (this s)) = ERecordingState.Recording)
          then [OnRecorder R_stop] else [])
         ++ flat_map (fun g => match logHandler g (this s) with
                               | Some _ => [OnLogHandler g H_removeAllListeners;
                                            OnLogHandler g H_destroy]
                               | None => []
                               end) [Retail; Classic; Era]
         ++ flat_map (fun g => if truthy (field config (recordKey g))
                               then [OnLogHandler g (H_new (field config (logPathKey g)))]
                               else []) [Retail; Classic; Era]
         ++ [OnPoller (P_reconfigureFlavour config); OnPoller P_start]
    /\ recorder (this s') = recorder (this s)
    /\ stages (this s') = stages (this s).
Proof.
  intros config s f. cbn zeta. split; [|split; [|split]].
  - unfold configureFlavour, emits. cbn [foldl this emit].
    rewrite !createHandler_handler, !destroyHandler_this.
    replace (this (if bool_decide (obsState (recorder (this s)) = ERecordingState.Recording)
                   then emit (OnRecorder R_stop) s else s))
      with (this s) by by destruct (bool_decide _).
    destruct f; cbn; repeat case_match; done.
  - unfold emitted, configureFlavour, destroyHandler, createHandler, emits. cbn.
    destruct (bool_decide (obsState (recorder (this s)) = ERecordingState.Recording)); cbn;
      (destruct (retailLogHandler (this s)); cbn);
      (destruct (classicLogHandler (this s)); cbn);
      (destruct (eraLogHandler (this s)); cbn);
      (destruct (truthy (field config "recordRetail")); cbn);
      (destruct (truthy (field config "recordClassic")); cbn);
      (destruct (truthy (field config "recordEra")); cbn);
      rewrite <- ?app_assoc, ?drop_app_length; reflexivity.
  - unfold configureFlavour, emits. cbn [foldl this emit].
    rewrite !(proj1 (createHandler_recorder _ _ _ _ _)), !destroyHandler_this.
    by destruct (bool_decide _).
  - unfold configureFlavour, emits. cbn [foldl this emit].
    rewrite !(proj2 (createHandler_recorder _ _ _ _ _)), !destroyHandler_this.
    by destruct (bool_decide _).
Qed.

(** ** The validators *)

(** X15.  The audio stage has no validation that can fail, and a failure
    of the video or of the overlay validation is never a
    RetryableConfigError: the pass ends with the configuration invalid, the
    thrown error as the message, and no retry timer is set, so nothing
    happens until the next call of [manage]. *)
Theorem video_and_overlay_failures_are_terminal :
  forall (nm : StageName) (env : Env) (c : JsObject) (e : JsError) (i : nat) (s : System),
    nm = obsVideo \/ nm = obsAudio \/ nm = overlay ->
    stage_validate nm env c = Some e ->
    let s' := fst (resumePass (AwaitValidate i nm c) env s) in
    nm <> obsAudio
    /\ instanceofRetryable e = None
    /\ timers s' = timers s
    /\ List.filter isSetTimeout (emitted s s') = []
    /\ configValid (this s') = false
    /\ configMessage (this s') = String_ e.
Proof.
  intros nm env c e i s Hnm Hval. cbn zeta. cbn [resumePass]. rewrite Hval. cbn [fst].
  assert (Hne : nm <> obsAudio) by (intros ->; discriminate).
  assert (Hr : instanceofRetryable e = None).
  { destruct Hnm as [-> | [-> | ->]]; [|done|]; cbn in Hval.
    - unfold validateVideoConfig in Hval. destruct (_ && _); by simplify_eq.
    - unfold validateOverlayConfig in Hval.
      repeat (case_match; simplify_eq; try done). }
  destruct (validateFailed_effect e s) as (_ & _ & Hv & Hm & _ & Happ & Htm & _).
  rewrite Hr in Happ, Htm.
  split; [done|]. split; [done|]. split; [by rewrite Htm, app_nil_r|].
  split; [by rewrite (appended_emitted _ _ _ Happ)|]. done.
Qed.

(** Window capture without a window, see [Sample.badVideo]. *)
Lemma video_and_overlay_failures_are_terminal_witness :
  timers (fst (resumePass (AwaitValidate 1 obsVideo Sample.badVideo) Sample.env_ok
                 Sample.beforeBadVideo))
  = timers Sample.beforeBadVideo.
Proof.
  refine (proj1 (proj2 (proj2
    (video_and_overlay_failures_are_terminal obsVideo Sample.env_ok Sample.badVideo
       Sample.noWindow 1 Sample.beforeBadVideo _ _)))).
  - by left.
  - vm_compute. reflexivity.
Defined.

(** X16.  The local validation of the base snapshot accepts exactly when:
    the storage path is a string that is not empty and its parent directory
    exists; the disk check of the storage path with [maxStorage] passes; the
    buffer path is a string that is not empty, its parent directory exists
    and it differs from the storage path; the disk check for 10 GB passes on
    the buffer directory, or on its parent if the directory does not exist;
    the storage directory is owned or its ownership can be taken; and the
    same for the buffer directory if it exists.  A storage path that is
    truthy but not a string makes it throw a TypeError, and so does such a
    buffer path once the checks of the storage path have passed. *)
Theorem base_validation_accepts_exactly :
  forall (env : Env) (config : JsObject),
    let storagePath := field config "storagePath" in
    let obsPath := field config "obsPath" in
    (validateBaseConfig env config = None
     <-> ((exists p, storagePath = JStr p /\ p <> EmptyString)
          /\ existsSync env (dirname env storagePath) = true
          /\ checkDisk env storagePath (field config "maxStorage") = None
          /\ (exists q, obsPath = JStr q /\ q <> EmptyString)
          /\ exists_ env (dirname env obsPath) = true
          /\ storagePath <> obsPath
          /\ checkDisk env (if exists_ env obsPath then obsPath else dirname env obsPath)
               (JNum 10) = None
          /\ (isFolderOwned env storagePath = false ->
              takeOwnershipStorageDir env storagePath = None)
          /\ (exists_ env obsPath = true -> isFolderOwned env obsPath = false ->
              takeOwnershipBufferDir env obsPath = None)))
    /\ (truthy storagePath = true -> (forall p, storagePath <> JStr p) ->
        exists m, validateBaseConfig env config = Some (TypeError_ m))
    /\ (forall p, storagePath = JStr p -> p <> EmptyString ->
        existsSync env (dirname env storagePath) = true ->
        checkDisk env storagePath (field config "maxStorage") = None ->
        truthy obsPath = true -> (forall q, obsPath <> JStr q) ->
        exists m, validateBaseConfig env config = Some (TypeError_ m)).
Proof.
  intros env config. cbn zeta. unfold validateBaseConfig, andThen, strictEq, path_dirname.
  assert (Hstr : forall p, truthy (JStr p) = true <-> p <> EmptyString).
  { intros p. cbn. rewrite negb_true_iff. split.
    - intros H ->. discriminate.
    - intros H. destruct (String.eqb p EmptyString) eqn:E; [|done].
      by apply String.eqb_eq in E. }
  split; [|split].
  - destruct (field config "storagePath") as [|b|n|p] eqn:Hsp.
    + cbn. split; [done|]. by intros [(p & ? & _) _].
    + destruct b; cbn; (split; [done|]; by intros [(p & ? & _) _]).
    + destruct (truthy (JNum n)); cbn; (split; [done|]; by intros [(p & ? & _) _]).
    + destruct (truthy (JStr p)) eqn:Htp; cbn [negb].
      2:{ split; [done|]. intros [(p' & Hp' & Hne) _]. simplify_eq.
          apply Hstr in Hne. congruence. }
      apply Hstr in Htp.
      destruct (existsSync env (dirname env (JStr p))); cbn [negb];
        [|split; [done|]; by intros (_ & ? & _)].
      destruct (checkDisk env (JStr p) (field config "maxStorage"));
        [split; [done|]; by intros (_ & _ & ? & _)|].
      destruct (field config "obsPath") as [|b|n|q] eqn:Hop.
      * cbn. split; [done|]. by intros (_ & _ & _ & (q & ? & _) & _).
      * destruct b; cbn; (split; [done|]; by intros (_ & _ & _ & (q & ? & _) & _)).
      * destruct (truthy (JNum n)); cbn;
          (split; [done|]; by intros (_ & _ & _ & (q & ? & _) & _)).
      * destruct (truthy (JStr q)) eqn:Htq; cbn [negb].
        2:{ split; [done|]. intros (_ & _ & _ & (q' & Hq' & Hne) & _). simplify_eq.
            apply Hstr in Hne. congruence. }
        apply Hstr in Htq.
        destruct (exists_ env (dirname env (JStr q))); cbn [negb];
          [|split; [done|]; by intros (_ & _ & _ & _ & ? & _)].
        case_bool_decide as Heq; [split; [done|]; by intros (_ & _ & _ & _ & _ & ? & _)|].
        destruct (exists_ env (JStr q)); cbn [andb negb].
        -- destruct (checkDisk env (JStr q) (JNum 10));
             [split; [done|]; by intros (_ & _ & _ & _ & _ & _ & ? & _)|].
           destruct (isFolderOwned env (JStr p)); cbn [negb].
           ++ destruct (isFolderOwned env (JStr q)); cbn [negb].
              ** split; [|done]. intros _. repeat split; eauto; done.
              ** split.
                 --- intros H. repeat split; eauto; done.
                 --- intros (_ & _ & _ & _ & _ & _ & _ & _ & H). by apply H.
           ++ destruct (takeOwnershipStorageDir env (JStr p)) eqn:Ho;
                [split; [done|]; intros (_ & _ & _ & _ & _ & _ & _ & H & _);
                 by specialize (H eq_refl)|].
              destruct (isFolderOwned env (JStr q)); cbn [negb].
              ** split; [|done]. intros _. repeat split; eauto; done.
              ** split.
                 --- intros H. repeat split; eauto; done.
                 --- intros (_ & _ & _ & _ & _ & _ & _ & _ & H). by apply H.
        -- destruct (checkDisk env (dirname env (JStr q)) (JNum 10));
             [split; [done|]; by intros (_ & _ & _ & _ & _ & _ & ? & _)|].
           destruct (isFolderOwned env (JStr p)); cbn [negb].
           ++ split; [|done]. intros _. repeat split; eauto; done.
           ++ destruct (takeOwnershipStorageDir env (JStr p)) eqn:Ho.
              ** split; [done|]. intros (_ & _ & _ & _ & _ & _ & _ & H & _).
                 by specialize (H eq_refl).
              ** split; [|done]. intros _. repeat split; eauto; done.
  - intros Ht Hns. rewrite Ht. cbn [negb].
    destruct (field config "storagePath") as [|b|n|p]; [done| | |by destruct (Hns p)];
      eauto.
  - intros p Hp Hne Hex Hcd Ht Hns. rewrite Hp in *.
    apply Hstr in Hne. rewrite Hne, Hex, Hcd, Ht. cbn [negb].
    destruct (field config "obsPath") as [|b|n|q]; [done| | |by destruct (Hns q)];
      eauto.
Qed.

(** X17.  The cloud validation accepts exactly when the account name, the
    password and the guild name are set, the check answers before the
    deadline that the user may read, and the user may write or uploading is
    off.  What it throws is a plain Error (a missing credential or a missing
    right), the AuthError of the check, rethrown as it is, or a
    RetryableConfigError with a delay of 10000 ms; a missing credential is
    reported whatever the cloud service would answer. *)
Theorem cloud_validation_accepts_exactly :
  forall (env : Env) (config : JsObject),
    (validateCloudBaseConfig env config = None
     <-> (truthy (field config "cloudAccountName") = true
          /\ truthy (field config "cloudAccountPassword") = true
          /\ truthy (field config "cloudGuildName") = true
          /\ exists w, checkAuthRace env = CheckResolved true w
                       /\ (w = true \/ truthy (field config "cloudUpload") = false)))
    /\ (forall e,
          validateCloudBaseConfig env config = Some e ->
          (exists m, e = Error_ m)
          \/ (instanceofAuthError e = true /\ checkAuthRace env = CheckRejected e)
          \/ e = RetryableConfigError "Failed to authenticate with the cloud store." 10000)
    /\ (forall r,
          truthy (field config "cloudAccountName")
          && truthy (field config "cloudAccountPassword")
          && truthy (field config "cloudGuildName") = false ->
          validateCloudBaseConfig (withAuthRace r env) config
          = validateCloudBaseConfig env config
          /\ exists m, validateCloudBaseConfig env config = Some (Error_ m)).
Proof.
  intros env config. unfold validateCloudBaseConfig, raceWinner.
  destruct (truthy (field config "cloudAccountName")); cbn;
    [|split; [intuition discriminate|split; [intros e ?; simplify_eq; eauto|eauto]]].
  destruct (truthy (field config "cloudAccountPassword")); cbn;
    [|split; [intuition discriminate|split; [intros e ?; simplify_eq; eauto|eauto]]].
  destruct (truthy (field config "cloudGuildName")); cbn;
    [|split; [intuition discriminate|split; [intros e ?; simplify_eq; eauto|eauto]]].
  split; [|split; [|intros r Hf; discriminate]].
  - destruct (checkAuthRace env) as [r w|err|]; cbn.
    + destruct r; cbn.
      * destruct w; cbn.
        -- split; [intros _; repeat split; exists true; eauto|done].
        -- destruct (truthy (field config "cloudUpload")); cbn.
           ++ split; [done|]. intros (_ & _ & _ & w' & Hw & [->|?]); by simplify_eq.
           ++ split; [|done]. intros _. repeat split. exists false. eauto.
      * split; [done|]. intros (_ & _ & _ & w' & Hw & _). by simplify_eq.
    + split; [by destruct (instanceofAuthError err)|].
      intros (_ & _ & _ & w & Hw & _). by simplify_eq.
    + split; [done|]. intros (_ & _ & _ & w & Hw & _). by simplify_eq.
  - intros e. destruct (checkAuthRace env) as [r w|err|]; cbn.
    + destruct r; cbn; [|intros; simplify_eq; eauto].
      destruct (negb w && _); intros; simplify_eq; eauto.
    + destruct (instanceofAuthError err) eqn:Ha; intros; simplify_eq; eauto.
    + intros; simplify_eq; eauto.
Qed.

Lemma append_cons a (s t : string) : String a s +:+ t = String a (s +:+ t).
Proof. reflexivity. Qed.

Lemma substring_all s : String.substring 0 (String.length s) s = s.
Proof. induction s as [|a s IH]; simpl; [done|]. by rewrite IH. Qed.

Lemma substring_skip pre suf :
  String.substring (String.length pre) (String.length suf) (pre +:+ suf) = suf.
Proof.
  induction pre as [|a pre IH]; [apply substring_all|].
  rewrite append_cons. simpl. exact IH.
Qed.

Lemma length_append (a b : string) :
  String.length (a +:+ b) = String.length a + String.length b.
Proof.
  induction a as [|x a IH]; [done|]. rewrite append_cons. simpl. by rewrite IH.
Qed.

Lemma substring_split n :
  forall s, n <= String.length s ->
    s = String.substring 0 n s +:+ String.substring n (String.length s - n) s.
Proof.
  induction n as [|n IH]; intros s Hn.
  - simpl. rewrite Nat.sub_0_r, substring_all. by destruct s.
  - destruct s as [|a s]; simpl in *; [lia|].
    rewrite append_cons. f_equal. apply IH. lia.
Qed.

(** [endsWith] is what its name says. *)
Lemma endsWith_spec s suffix :
  endsWith s suffix = true <-> exists pre, s = pre +:+ suffix.
Proof.
  unfold endsWith. split.
  - intros [Hle Heq]%andb_true_iff. apply Nat.leb_le in Hle.
    apply String.eqb_eq in Heq.
    exists (String.substring 0 (String.length s - String.length suffix) s).
    pose proof (substring_split (String.length s - String.length suffix) s) as H.
    replace (String.length s - (String.length s - String.length suffix))
      with (String.length suffix) in H by lia.
    rewrite Heq in H. apply H. lia.
  - intros [pre ->]. rewrite length_append. apply andb_true_iff. split.
    + apply Nat.leb_le. lia.
    + apply String.eqb_eq.
      replace (String.length pre + String.length suffix - String.length suffix)
        with (String.length pre) by lia.
      apply substring_skip.
Qed.

(** X18.  The overlay validation accepts exactly when the custom image is
    off, or cloud storage is on and the image path is a string that ends in
    [.png] and names a file that exists.  Nothing outside is consulted when
    the custom image is off. *)
Theorem overlay_validation_accepts_exactly :
  forall (env : Env) (config : JsObject),
    validateOverlayConfig env config = None
    <-> (truthy (field config "chatOverlayOwnImage") = false
         \/ (truthy (field config "cloudStorage") = true
             /\ exists pre,
                  field config "chatOverlayOwnImagePath" = JStr (pre +:+ ".png")
                  /\ exists_ env (JStr (pre +:+ ".png")) = true)).
Proof.
  intros env config. unfold validateOverlayConfig.
  destruct (truthy (field config "chatOverlayOwnImage")); cbn; [|by split; [left|]].
  destruct (truthy (field config "cloudStorage")); cbn;
    [|split; [done|intros [?|[? _]]; done]].
  destruct (field config "chatOverlayOwnImagePath") as [|b|n|p] eqn:Hp; cbn.
  - split; [done|]. intros [?|(_ & pre & ? & _)]; done.
  - destruct b; cbn; (split; [done|]; intros [?|(_ & pre & ? & _)]; done).
  - destruct (n =? 0)%Z; cbn; (split; [done|]; intros [?|(_ & pre & ? & _)]; done).
  - destruct (String.eqb p "") eqn:He; cbn.
    + apply String.eqb_eq in He. subst p. split; [done|].
      intros [?|(_ & pre & Hx & _)]; [done|]. simplify_eq. by destruct pre.
    + destruct (endsWith p ".png") eqn:Hend; cbn.
      * apply endsWith_spec in Hend as [pre ->].
        destruct (exists_ env _) eqn:Hex; cbn.
        -- split; [|done]. intros _. right. split; [done|]. by exists pre.
        -- split; [done|]. intros [?|(_ & pre' & Hx & Hy)]; [done|].
           simplify_eq. congruence.
      * split; [done|]. intros [?|(_ & pre & Hx & _)]; [done|]. simplify_eq.
        assert (endsWith (pre +:+ ".png") ".png" = true) by (apply endsWith_spec; eauto).
        congruence.
Qed.

(** ** A pass over a table that is partly settled *)

Lemma applied_same c st : needsWork c st = false -> applied c st = st.
Proof.
  unfold needsWork, applied, isEqual. intros [Hv Heq]%orb_false_iff.
  apply negb_false_iff in Hv, Heq. apply bool_decide_eq_true in Heq.
  destruct st; cbn in *. by rewrite Hv, Heq.
Qed.

Lemma side_no_stage_event evs :
  Forall (fun ev => isRecStatus ev || isMicStatus ev = true) evs ->
  List.filter isStageEvent evs = [].
Proof.
  intros H. apply filter_none. eapply Forall_impl; [exact H|].
  intros [] Hx; cbn in *; done.
Qed.

(** The loop from index [length pre] on, every validator accepting and
    every [await] settling: the stages that need work are validated and
    applied, the others only fetched, and the pass returns. *)
Lemma partial_pass rest :
  forall pre s envs,
    stages (this s) = pre ++ rest ->
    Forall (fun env => allAccept env rest (cfg (this s)) = true) envs ->
    2 * length rest <= length envs ->
    let r := runPass envs (stage_loop (length rest) (length pre) s) in
    snd r = Returned
    /\ (exists evs,
          appended s (fst r) evs
          /\ List.filter isStageEvent evs = passCalls (length pre) rest (cfg (this s)))
    /\ stages (this (fst r)) = pre ++ (applied (cfg (this s)) <$> rest)
    /\ cfg (this (fst r)) = cfg (this s)
    /\ configValid (this (fst r)) = true.
Proof.
  induction rest as [|st rest IH]; intros pre s envs Hst Hacc Hlen; cbn zeta.
  - cbn [length stage_loop]. rewrite runPass_Returned. cbn [fst snd].
    destruct (passSucceeded_appended s) as (evs & Happ & Hev).
    split; [done|]. split; [|split; [|split]].
    + exists evs. split; [done|]. by apply side_no_stage_event.
    + by rewrite passSucceeded_stages, Hst.
    + by destruct (outside_eq _ _ (passSucceeded_outside s)) as (_ & ? & _).
    + apply passSucceeded_valid.
  - assert (Hlk : stages (this s) !! length pre = Some st).
    { rewrite Hst, lookup_app_r, Nat.sub_diag by lia. done. }
    assert (Hacc' : Forall (fun env => allAccept env rest (cfg (this s)) = true) envs).
    { eapply Forall_impl; [exact Hacc|]. intros env Hx. cbn in Hx.
      by apply andb_true_iff in Hx as [_ Hx]. }
    destruct (needsWork (cfg (this s)) st) eqn:Hw.
    + (* the stage needs work *)
      set (c := stage_get (name st) (cfg (this s))) in *.
      assert (Hloop : exists x,
                 stage_loop (length (st :: rest)) (length pre) s
                 = (emit (StageValidate (length pre) (name st) c) x,
                    AwaitValidate (length pre) (name st) c)
                 /\ trace x = trace s ++ [StageGet (length pre) (name st)]
                 /\ stages (this x) = pre ++ stage_set_valid false st :: rest
                 /\ cfg (this x) = cfg (this s)).
      { cbn [length stage_loop]. rewrite Hlk. cbn zeta. cbn [this emit cfg]. fold c.
        unfold needsWork in Hw. fold c in Hw.
        destruct (isEqual c (current st)) eqn:Heq; cbn [negb] in *.
        - rewrite orb_false_r in Hw. apply negb_true_iff in Hw. rewrite Hw. cbn [negb].
          eexists. split; [reflexivity|]. cbn. split; [done|]. split; [|done].
          by rewrite Hst, stage_set_valid_same.
        - eexists. split; [reflexivity|]. cbn. split; [done|]. split; [|done].
          by rewrite Hst, alter_app_r_alt, Nat.sub_diag by lia. }
      destruct Hloop as (x & -> & Htr & Hsx & Hcx).
      destruct envs as [|e1 [|e2 envs]]; [cbn in Hlen; lia|cbn in Hlen; lia|].
      pose proof (Forall_inv Hacc) as Ha1. cbn in Ha1.
      apply andb_true_iff in Ha1 as [Ha1 _]. apply bool_decide_eq_true in Ha1.
      fold c in Ha1.
      cbn [runPass snd fst resumePass]. rewrite Ha1. cbn [runPass snd fst resumePass].
      set (a := emit (StageConfigure (length pre) (name st) c)
                  (emit (ConsoleStage (name st) (loggable c))
                     (emit (StageValidate (length pre) (name st) c) x))).
      destruct (stage_configure_effect (name st) c a) as (Hst1 & Hc1 & evs1 & Happ1 & Hev1).
      set (a1 := stage_configure (name st) c a) in *.
      set (a2 := modify _ a1).
      assert (Hst2 : stages (this a2) = (pre ++ [applied (cfg (this s)) st]) ++ rest).
      { unfold a2. cbn. rewrite Hst1. cbn. rewrite Hsx.
        rewrite alter_app_r_alt, Nat.sub_diag by lia. cbn. by rewrite <- app_assoc. }
      assert (Hc2 : cfg (this a2) = cfg (this s)) by (unfold a2; cbn; by rewrite Hc1).
      assert (Happ2 : appended s a2
                        ([StageGet (length pre) (name st);
                          StageValidate (length pre) (name st) c;
                          ConsoleStage (name st) (loggable c);
                          StageConfigure (length pre) (name st) c] ++ evs1)).
      { unfold appended in *. unfold a2. cbn [trace modify]. rewrite Happ1. unfold a.
        cbn [trace emit]. rewrite Htr. by rewrite <- !app_assoc. }
      assert (Hn : length (stages (this a2)) - S (length pre) = length rest).
      { rewrite Hst2, !length_app. cbn. lia. }
      rewrite Hn.
      assert (Hacc2 : Forall (fun env => allAccept env rest (cfg (this a2)) = true) envs).
      { rewrite Hc2. by apply Forall_inv_tail, Forall_inv_tail in Hacc'. }
      assert (Hlen2 : 2 * length rest <= length envs) by (cbn in Hlen; lia).
      specialize (IH (pre ++ [applied (cfg (this s)) st]) a2 envs Hst2 Hacc2 Hlen2).
      cbn zeta in IH. rewrite length_app in IH. cbn [length] in IH.
      replace (length pre + 1) with (S (length pre)) in IH by lia.
      rewrite Hc2 in IH.
      destruct IH as (Hret & (evs4 & Happ4 & Hf4) & Hfin & Hcf & Hval).
      split; [exact Hret|]. split; [|split; [|split]].
      * eexists. split; [exact (appended_trans _ _ _ _ _ Happ2 Happ4)|].
        rewrite !List.filter_app, Hf4, (filter_none _ _ Hev1). cbn [passCalls].
        rewrite Hw. reflexivity.
      * rewrite Hfin. cbn. by rewrite <- app_assoc.
      * exact Hcf.
      * exact Hval.
    + (* the stage is skipped *)
      assert (Hloop : stage_loop (length (st :: rest)) (length pre) s
                      = stage_loop (length rest) (S (length pre))
                          (emit (StageGet (length pre) (name st)) s)).
      { cbn [length stage_loop]. rewrite Hlk. cbn zeta. cbn [this emit cfg].
        unfold needsWork in Hw. apply orb_false_iff in Hw as [Hv Heq].
        apply negb_false_iff in Hv. rewrite Heq, Hv. reflexivity. }
      rewrite Hloop.
      set (a := emit (StageGet (length pre) (name st)) s).
      assert (Hsa : stages (this a) = (pre ++ [st]) ++ rest)
        by (cbn; by rewrite Hst, <- app_assoc).
      assert (Hlen2 : 2 * length rest <= length envs) by (cbn in Hlen; lia).
      specialize (IH (pre ++ [st]) a envs Hsa Hacc' Hlen2).
      cbn zeta in IH. rewrite length_app in IH. cbn [length] in IH.
      replace (length pre + 1) with (S (length pre)) in IH by lia.
      change (cfg (this a)) with (cfg (this s)) in IH.
      destruct IH as (Hret & (evs4 & Happ4 & Hf4) & Hfin & Hcf & Hval).
      split; [exact Hret|]. split; [|split; [|split]].
      * exists ([StageGet (length pre) (name st)] ++ evs4).
        split; [exact (appended_trans _ _ _ _ _ (appended_emit _ s) Happ4)|].
        rewrite List.filter_app, Hf4. cbn [passCalls]. rewrite Hw. reflexivity.
      * rewrite Hfin. cbn. by rewrite <- app_assoc, (applied_same _ _ Hw).
      * exact Hcf.
      * exact Hval.
Qed.

(** X19.  A pass in which every validator accepts and every [await]
    settles does exactly the work that is due: it fetches every stage in the
    order of the table, validates and applies the stages that are not valid
    or whose snapshot in the settings differs from their current one, and
    leaves the others alone, also when an earlier stage has just been
    applied again.  It returns with the configuration valid and every stage
    valid and holding the snapshot of the settings. *)
Theorem pass_reconfigures_exactly_what_changed :
  forall (s0 : System) (envs : list Env),
    forallb (fun env => allAccept env (stages (this s0)) (cfg (this s0))) envs = true ->
    2 * length (stages (this s0)) <= length envs ->
    let r := runPass envs (internalManage s0) in
    snd r = Returned
    /\ List.filter isStageEvent (emitted s0 (fst r))
       = passCalls 0 (stages (this s0)) (cfg (this s0))
    /\ stages (this (fst r)) = applied (cfg (this s0)) <$> stages (this s0)
    /\ configValid (this (fst r)) = true.
Proof.
  intros s0 envs Hacc Hlen. cbn zeta. rewrite internalManage_eq.
  destruct (beginPass_this s0) as (Hst & Hc & _).
  pose proof (beginPass_appended s0) as Hb.
  pose proof (partial_pass (stages (this s0)) [] (beginPass s0) envs) as H.
  cbn zeta in H. cbn [length app] in H. rewrite Hc, Hst in H. rewrite Hst.
  destruct H as (Hret & (evs & Happ & Hf) & Hfin & _ & Hval).
  - reflexivity.
  - by apply forallb_Forall.
  - exact Hlen.
  - split; [exact Hret|]. split; [|split; [exact Hfin|exact Hval]].
    pose proof (appended_trans _ _ _ _ _ Hb Happ) as Hall.
    apply appended_emitted in Hall.
    etrans; [exact (f_equal (List.filter isStageEvent) Hall)|].
    rewrite List.filter_app, Hf. by destruct (retryTimer (this s0)).
Qed.

(** The audio device is changed after the first pass: the next pass fetches
    the five stages and validates and applies the audio stage only. *)
Lemma pass_reconfigures_exactly_what_changed_witness :
  List.filter isStageEvent
    (emitted (modify (set_cfg Sample.configAudio2) Sample.configured)
       (fst (runPass (replicate 10 Sample.env_ok)
               (internalManage (modify (set_cfg Sample.configAudio2) Sample.configured)))))
  = [StageGet 0 obsBase; StageGet 1 obsVideo;
     StageGet 2 obsAudio; StageValidate 2 obsAudio Sample.audio2;
     StageConfigure 2 obsAudio Sample.audio2;
     StageGet 3 flavour; StageGet 4 overlay].
Proof.
  refine (eq_trans
            (proj1 (proj2
               (pass_reconfigures_exactly_what_changed
                  (modify (set_cfg Sample.configAudio2) Sample.configured)
                  (replicate 10 Sample.env_ok) _ _))) _).
  - vm_compute. reflexivity.
  - vm_compute. lia.
  - vm_compute. reflexivity.
Defined.

(** ** [forceStop] *)

Lemma forceStopFrom_this fs s : this (fst (forceStopFrom fs s)) = this s.
Proof.
  induction fs as [|f fs IH]; cbn; [done|].
  by destruct (optflag activity (logHandler f (this s))).
Qed.

(** One leg of [forceStop]: the handlers without an activity are passed
    over, the first with one is ended, and the call waits. *)
Lemma forceStopFrom_leg fs :
  forall s,
    match snd (forceStopFrom fs s) with
    | Some rest =>
        exists skipped f,
          fs = skipped ++ f :: rest
          /\ Forall (fun g => optflag activity (logHandler g (this s)) = false) skipped
          /\ optflag activity (logHandler f (this s)) = true
          /\ appended s (fst (forceStopFrom fs s)) [OnLogHandler f H_forceEndActivity]
    | None =>
        Forall (fun g => optflag activity (logHandler g (this s)) = false) fs
        /\ fst (forceStopFrom fs s) = s
    end.
Proof.
  induction fs as [|f fs IH]; intros s; cbn; [by split|].
  destruct (optflag activity (logHandler f (this s))) eqn:Hf; cbn.
  - exists [], f. by repeat split.
  - specialize (IH s). destruct (snd (forceStopFrom fs s)) as [rest|].
    + destruct IH as (skipped & g & -> & Hsk & Hg & Happ).
      exists (f :: skipped), g. repeat split; [by constructor|done|done].
    + destruct IH as [Hall Heq]. split; [by constructor|done].
Qed.

Lemma forceStopRun_all fs :
  forall n s,
    length fs <= n ->
    appended s (forceStopRun n (forceStopFrom fs s))
      ((fun f => OnLogHandler f H_forceEndActivity)
         <$> List.filter (fun f => optflag activity (logHandler f (this s))) fs)
    /\ this (forceStopRun n (forceStopFrom fs s)) = this s
    /\ tasks (forceStopRun n (forceStopFrom fs s)) = tasks s
    /\ timers (forceStopRun n (forceStopFrom fs s)) = timers s.
Proof.
  induction fs as [|f fs IH]; intros n s Hn.
  - cbn [forceStopFrom]. destruct n; cbn; by rewrite ?app_nil_r; repeat split;
      try apply appended_refl.
  - cbn [forceStopFrom List.filter].
    destruct (optflag activity (logHandler f (this s))) eqn:Hf.
    + destruct n as [|n]; [cbn in Hn; lia|]. cbn [forceStopRun fst snd].
      destruct (IH n (emit (OnLogHandler f H_forceEndActivity) s)) as (Happ & Ht & Htk & Htm);
        [cbn in Hn; lia|].
      cbn [this emit] in Happ. split; [|done].
      exact (appended_trans _ _ _ _ _ (appended_emit _ s) Happ).
    + apply IH. cbn in Hn. lia.
Qed.

(** X20.  [forceStop] ends the activity of every log handler that has one,
    in the order retail, classic, era, each once, and does nothing else: it
    does not stop the recorder, detach the audio sources or change the
    Manager.  Each time it is resumed it looks at the handlers it has not
    looked at yet, as they are then, and ends the first that has an
    activity. *)
Theorem force_stop_ends_every_activity :
  forall s : System,
    (let s' := forceStopRun 3 (forceStop s) in
     emitted s s'
     = (fun f => OnLogHandler f H_forceEndActivity)
         <$> List.filter (fun f => optflag activity (logHandler f (this s)))
               [Retail; Classic; Era]
     /\ this s' = this s /\ tasks s' = tasks s /\ timers s' = timers s)
    /\ (forall fs,
          match snd (forceStopFrom fs s) with
          | Some rest =>
              exists skipped f,
                fs = skipped ++ f :: rest
                /\ Forall (fun g => optflag activity (logHandler g (this s)) = false) skipped
                /\ optflag activity (logHandler f (this s)) = true
                /\ emitted s (fst (forceStopFrom fs s)) = [OnLogHandler f H_forceEndActivity]
          | None =>
              Forall (fun g => optflag activity (logHandler g (this s)) = false) fs
              /\ fst (forceStopFrom fs s) = s
          end).
Proof.
  intros s. split.
  - cbn zeta. unfold forceStop.
    destruct (forceStopRun_all [Retail; Classic; Era] 3 s) as (Happ & Hrest); [cbn; lia|].
    split; [by apply appended_emitted|exact Hrest].
  - intros fs. pose proof (forceStopFrom_leg fs s) as H.
    destruct (snd (forceStopFrom fs s)) as [rest|]; [|exact H].
    destruct H as (skipped & f & Hfs & Hsk & Hf & Happ).
    exists skipped, f. repeat split; try done. by apply appended_emitted.
Qed.

(** ** Where the audio sources are attached *)

Lemma noAttach_refl s : noAttach s s.
Proof. split; [done|]. exists []. split; [apply appended_refl|constructor]. Qed.

Lemma noAttach_trans s1 s2 s3 : noAttach s1 s2 -> noAttach s2 s3 -> noAttach s1 s3.
Proof.
  intros (Hp1 & e1 & H1 & Hf1) (Hp2 & e2 & H2 & Hf2). split; [congruence|].
  exists (e1 ++ e2). split; [unfold appended in *; by rewrite H2, H1, app_assoc|].
  by apply Forall_app.
Qed.

Lemma noAttach_emit e s : isAttachAudio e = false -> noAttach s (emit e s).
Proof. intros He. split; [done|]. exists [e]. split; [done|by constructor]. Qed.

Lemma noAttach_modify f s :
  poller (f (this s)) = poller (this s) -> noAttach s (modify f s).
Proof.
  intros Hp. split; [done|]. exists []. split; [apply appended_modify|constructor].
Qed.

Lemma noAttach_set_tasks ts s : noAttach s (set_tasks ts s).
Proof.
  split; [done|]. exists []. split; [unfold appended; cbn; by rewrite app_nil_r|constructor].
Qed.

Lemma noAttach_refreshStatus s : noAttach s (refreshStatus s).
Proof.
  split; [op_cases; reflexivity|]. eexists. split; [apply refreshStatus_appended|].
  constructor; [done|]. destruct (_ || _); repeat constructor.
Qed.

Lemma noAttach_passSucceeded s : noAttach s (passSucceeded s).
Proof.
  unfold passSucceeded, setConfigValid.
  eapply noAttach_trans; [|apply noAttach_refreshStatus].
  set (a := modify (set_reconfiguring false) s).
  apply (noAttach_trans _ a); [by apply noAttach_modify|].
  apply (noAttach_trans _ (modify (set_configValid true) a)); by apply noAttach_modify.
Qed.

Lemma noAttach_validateFailed e s : noAttach s (validateFailed e s).
Proof.
  split; [op_cases; reflexivity|].
  destruct (validateFailed_effect e s) as (_ & _ & _ & _ & _ & Happ & _).
  eexists. split; [exact Happ|]. destruct (instanceofRetryable e); repeat constructor.
Qed.

Lemma noAttach_beginPass s : noAttach s (beginPass s).
Proof.
  destruct (beginPass_this s) as (_ & _ & _ & Hp & _).
  split; [done|].
  eexists. split; [apply beginPass_appended|].
  destruct (retryTimer (this s)); repeat constructor.
Qed.

Lemma noAttach_resetAfterCrash s : noAttach s (resetAfterCrash s).
Proof. no_attach. Qed.

Lemma noAttach_onWowStoppedBegin s : noAttach s (onWowStoppedBegin s).
Proof. no_attach. Qed.

Lemma noAttach_onWowStoppedEnd s : noAttach s (onWowStoppedEnd s).
Proof. no_attach. Qed.

Lemma noAttach_set_stopping n s : noAttach s (set_stopping n s).
Proof.
  split; [done|]. exists []. split; [unfold appended; cbn; by rewrite app_nil_r|constructor].
Qed.

Lemma noAttach_restartRecorder s : noAttach s (restartRecorder s).
Proof. no_attach. Qed.

Lemma noAttach_stage_configure nm c s :
  nm <> obsAudio \/ isWowRunning (poller (this s)) = false ->
  noAttach s (stage_configure nm c s).
Proof.
  intros H.
  destruct nm; [no_attach|no_attach|
                |no_attach|no_attach].
  destruct H as [H|H]; [done|]. cbn. unfold configureObsAudio. rewrite H.
  apply noAttach_refl.
Qed.

Lemma noAttach_loop n i s : noAttach s (fst (stage_loop n i s)).
Proof.
  apply (stage_loop_cases (fun i s r => noAttach s (fst r))).
  - intros j t. apply noAttach_passSucceeded.
  - intros j t stage _ _. cbn [fst].
    eapply noAttach_trans; [|by apply noAttach_emit].
    unfold fetchStage, invalidate. destruct (isEqual _ _).
    + by apply noAttach_emit.
    + apply (noAttach_trans _ (emit (StageGet j (name stage)) t));
        [by apply noAttach_emit|by apply noAttach_modify].
  - intros j t stage r _ _ _ H.
    eapply noAttach_trans; [|exact H]. by apply noAttach_emit.
Qed.

Lemma noAttach_internalManage s : noAttach s (fst (internalManage s)).
Proof.
  rewrite internalManage_eq.
  eapply noAttach_trans; [apply noAttach_beginPass|apply noAttach_loop].
Qed.

Lemma noAttach_manage s : noAttach s (manage s).
Proof.
  unfold manage. destruct (active (this s)).
  - destruct (queued (this s)); cbn; [apply noAttach_refl|].
    apply (noAttach_trans _ (emit (Console "[Manager] Queued a manage call") s));
      [by apply noAttach_emit|by apply noAttach_modify].
  - pose proof (noAttach_internalManage (modify (set_active true) s)) as H.
    destruct (internalManage (modify (set_active true) s)) as [s1 p]. cbn [fst] in H.
    eapply noAttach_trans; [by apply (noAttach_modify (set_active true))|].
    eapply noAttach_trans; [exact H|]. apply noAttach_set_tasks.
Qed.

Lemma noAttach_manageDone tid s : noAttach s (manageDone tid s).
Proof.
  unfold manageDone.
  eapply noAttach_trans; [by apply (noAttach_modify (set_active false))|].
  apply noAttach_set_tasks.
Qed.

Lemma noAttach_manageAfterFirst tid s : noAttach s (manageAfterFirst tid s).
Proof.
  unfold manageAfterFirst. destruct (queued (this s)); [|apply noAttach_manageDone].
  set (s0 := modify _ (emit _ s)).
  pose proof (noAttach_internalManage s0) as H.
  destruct (internalManage s0) as [s1 p]. cbn [fst] in H.
  eapply noAttach_trans; [|apply noAttach_set_tasks].
  eapply noAttach_trans; [|exact H]. unfold s0.
  apply (noAttach_trans _ (emit (Console "[Manager] Execute a queued manage call") s));
    [by apply noAttach_emit|by apply noAttach_modify].
Qed.

(** What a pass emits when the promise it awaits settles: the audio sources
    are attached only by the [configure] of the audio stage, with the
    snapshot that was validated, and only if the poller says the game is
    running. *)
Lemma resumePass_attach p env s :
  poller (this (fst (resumePass p env s))) = poller (this s)
  /\ exists evs,
       appended s (fst (resumePass p env s)) evs
       /\ forall c, List.In (OnRecorder (R_configureAudioSources c)) evs ->
                    isWowRunning (poller (this s)) = true
                    /\ exists i, p = AwaitValidate i obsAudio c.
Proof.
  assert (Hno : forall t, noAttach s t ->
            poller (this t) = poller (this s)
            /\ exists evs,
                 appended s t evs
                 /\ forall c, List.In (OnRecorder (R_configureAudioSources c)) evs ->
                              isWowRunning (poller (this s)) = true
                              /\ exists i, p = AwaitValidate i obsAudio c).
  { intros t (Hp & evs & Happ & Hev). split; [done|]. exists evs. split; [done|].
    intros c Hin. apply list_elem_of_In in Hin.
    pose proof (proj1 (Forall_forall _ _) Hev _ Hin). discriminate. }
  destruct p as [i nm c|i nm c|]; cbn [resumePass].
  - destruct (stage_validate nm env c) as [e|]; cbn [fst].
    + apply Hno, noAttach_validateFailed.
    + set (a := emit (StageConfigure i nm c) (emit (ConsoleStage nm (loggable c)) s)).
      assert (Ha : noAttach s a).
      { apply (noAttach_trans _ (emit (ConsoleStage nm (loggable c)) s));
          by apply noAttach_emit. }
      destruct (decide (nm = obsAudio)) as [->|Hnm].
      * destruct (isWowRunning (poller (this s))) eqn:Hrun.
        -- cbn [stage_configure]. unfold configureObsAudio.
           change (poller (this a)) with (poller (this s)). rewrite Hrun.
           split; [done|]. eexists. split; [unfold appended; cbn; by rewrite <- !app_assoc|].
           intros c' Hin. cbn in Hin.
           destruct Hin as [Hin|[Hin|[Hin|[]]]]; try discriminate. simplify_eq.
           split; [done|]. by exists i.
        -- apply Hno. eapply noAttach_trans; [exact Ha|].
           apply noAttach_stage_configure. by right.
      * apply Hno. eapply noAttach_trans; [exact Ha|].
        apply noAttach_stage_configure. by left.
  - apply Hno. set (a := modify _ s).
    eapply noAttach_trans; [|apply noAttach_loop]. by apply noAttach_modify.
  - apply Hno, noAttach_refl.
Qed.

(** X21.  A step of the Manager attaches the recorder's audio sources only
    when the poller reports that the game has started, with the audio
    settings of that moment, or when a validation of the audio stage has
    succeeded while the poller says the game is running, with the snapshot
    that was validated.  After such a step the poller says the game is
    running. *)
Theorem audio_attached_only_while_game_runs :
  forall (l : Label) (s s' : System) (c : JsObject),
    step l s = Some s' ->
    List.In (OnRecorder (R_configureAudioSources c)) (emitted s s') ->
    isWowRunning (poller (this s')) = true
    /\ ((l = WowProcessStart /\ c = getObsAudioConfig (cfg (this s)))
        \/ exists tid env i,
             l = Settle tid env
             /\ passOf <$> tasks s !! tid = Some (AwaitValidate i obsAudio c)
             /\ stage_validate obsAudio env c = None
             /\ isWowRunning (poller (this s)) = true).
Proof.
  intros l s s' c Hstep Hin.
  assert (Hno : forall a, noAttach a s' -> trace a = trace s -> False).
  { intros a (_ & evs & Happ & Hev) Htr.
    unfold emitted in Hin. unfold appended in Happ. rewrite Happ, Htr, drop_app_length in Hin.
    apply list_elem_of_In in Hin.
    pose proof (proj1 (Forall_forall _ _) Hev _ Hin). discriminate. }
  destruct l; cbn [step] in Hstep.
  - simplify_eq. exfalso. apply (Hno s); [apply noAttach_manage|done].
  - unfold settle in Hstep.
    assert (Hres : forall (mk : Pass -> Task) p,
              (forall q, passOf (mk q) = q) ->
              tasks s !! tid = Some (mk p) ->
              (let '(s1, p') := resumePass p env s in
               Some (set_tasks (<[tid := mk p']> (tasks s1)) s1)) = Some s' ->
              isWowRunning (poller (this s')) = true
              /\ ((Settle tid env = WowProcessStart /\ c = getObsAudioConfig (cfg (this s)))
                  \/ exists tid0 env0 i,
                       Settle tid env = Settle tid0 env0
                       /\ passOf <$> tasks s !! tid0 = Some (AwaitValidate i obsAudio c)
                       /\ stage_validate obsAudio env0 c = None
                       /\ isWowRunning (poller (this s)) = true)).
    { intros mk p Hmk Htid Hx.
      destruct (resumePass_attach p env s) as (Hp & evs & Happ & Hall).
      destruct (resumePass p env s) as [s1 p'] eqn:Hr. cbn [fst] in *. simplify_eq.
      assert (Hem : emitted s (set_tasks (<[tid := mk p']> (tasks s1)) s1) = evs)
        by (apply appended_emitted; exact Happ).
      rewrite Hem in Hin. destruct (Hall c Hin) as (Hrun & i & ->).
      split; [cbn; by rewrite Hp|]. right. exists tid, env, i.
      rewrite Htid. cbn. by rewrite Hmk. }
    destruct (tasks s !! tid) as [[p|p]|] eqn:Htid; [| |done].
    + destruct p as [i nm x|i nm x|];
        [by eapply (Hres AwaitFirst)|by eapply (Hres AwaitFirst)|].
      simplify_eq. exfalso. apply (Hno s); [apply noAttach_manageAfterFirst|done].
    + destruct p as [i nm x|i nm x|];
        [by eapply (Hres AwaitSecond)|by eapply (Hres AwaitSecond)|].
      simplify_eq. exfalso. apply (Hno s); [apply noAttach_manageDone|done].
  - destruct (timer_pending id s); [|done]. simplify_eq. exfalso.
    apply (Hno (drop_timer id s)); [apply noAttach_manage|done].
  - simplify_eq. exfalso. apply (Hno s); [by apply noAttach_modify|done].
  - simplify_eq. exfalso. apply (Hno s); [|done]. unfold recoverRecorderFromCrash.
    eapply noAttach_trans; [apply noAttach_resetAfterCrash|apply noAttach_manage].
  - simplify_eq. exfalso.
    match goal with
    | H : forall a, noAttach a (refreshStatus ?m) -> _ |- _ =>
        apply (H m); [apply noAttach_refreshStatus|done]
    end.
  - destruct (logHandler f (this s)); [|done]. simplify_eq. exfalso.
    match goal with
    | H : forall a, noAttach a (refreshStatus ?m) -> _ |- _ =>
        apply (H m); [apply noAttach_refreshStatus|done]
    end.
  - simplify_eq. split; [reflexivity|]. left. split; [done|].
    unfold emitted, onWowStarted, recorder_configureAudioSources in Hin. cbn in Hin.
    rewrite <- !app_assoc, drop_app_length in Hin. cbn in Hin.
    destruct Hin as [Hin|[Hin|[Hin|[]]]]; try discriminate. by simplify_eq.
  - simplify_eq. exfalso.
    match goal with
    | H : forall a, noAttach a (set_stopping _ (onWowStoppedBegin ?m)) -> _ |- _ =>
        apply (H m); [|done];
        apply (noAttach_trans _ (onWowStoppedBegin m));
          [apply noAttach_onWowStoppedBegin|apply noAttach_set_stopping]
    end.
  - simplify_eq. exfalso. apply (Hno s); [apply noAttach_restartRecorder|done].
  - destruct (stopping s) as [|n]; [done|]. simplify_eq. exfalso.
    apply (Hno s); [|done].
    apply (noAttach_trans _ (set_stopping n s));
      [apply noAttach_set_stopping|apply noAttach_onWowStoppedEnd].
  - exfalso. destruct (rejectConfigure_effect tid s s' Hstep) as (_ & _ & _ & _ & Htr).
    unfold emitted in Hin. by rewrite Htr, drop_all in Hin.
Qed.

(** The game starts: the audio sources of the settings are attached. *)
Lemma audio_attached_only_while_game_runs_witness :
  isWowRunning
    (poller (this (default Sample.fresh (step WowProcessStart Sample.fresh)))) = true.
Proof.
  refine (proj1 (audio_attached_only_while_game_runs WowProcessStart Sample.fresh
                   (default Sample.fresh (step WowProcessStart Sample.fresh))
                   Sample.audio _ _)).
  - vm_compute. reflexivity.
  - apply list_elem_of_In, (list_elem_of_lookup_2 _ 1). vm_compute. reflexivity.
Defined.
